(** * Strelka: error-count aggregation, indel error model and the
      continuous-frequency variant caller

    A shallow embedding of
    - [lib/errorAnalysis/BasecallErrorCounts.cpp]  (the error-context aggregator),
    - [IndelErrorModel.cpp]                        (the indel error-rate model),
    - [starling_continuous_variant_caller.cpp]     (the continuous allele caller),
    followed by the properties the design document states about them.

    Conventions.
    - [unsigned] and [uint64_t] values are integers in [Z]; every addition the
      code performs on them is written with its wrap-around ([add32], [add64]).
    - [std::map] is a [gmap]; [std::set] is a [gset].  Equality of maps is
      equality of their key/value content.
    - [double] values are reached through the interface [DoubleOps].  Where a
      property only depends on the control flow it is proved for every
      implementation of that interface; where it depends on the numbers it is
      proved for the instance [RealDouble], which reads every [double]
      operation as the exact operation on real numbers.
    - [assert] failures and undefined behaviour are explicit results. *)

From Stdlib Require Import ZArith Reals Lra Lia.
From stdpp Require Import gmap list sorting strings.

Local Open Scope Z_scope.

(** ** Machine integers *)

Definition UINT32_MOD : Z := 2 ^ 32.
Definition UINT64_MOD : Z := 2 ^ 64.

(** [unsigned + unsigned] *)
Definition add32 (a b : Z) : Z := (a + b) mod UINT32_MOD.
(** [uint64_t + uint64_t] *)
Definition add64 (a b : Z) : Z := (a + b) mod UINT64_MOD.

(** [std::max(a, one)] on [unsigned] *)
Definition umax (a b : Z) : Z := if a <? b then b else a.

(** ** Helpers of [errorAnalysisUtils.hh] and [blt_util/IntegerLogCompressor.hh] *)

(** Modelled from the spec: [iterateMapValue], a template of
    [errorAnalysisUtils.hh], a header that is not embedded here.  The spec has
    it "increment the occurrence count" of a key, a key that is absent
    counting as zero. *)
Definition iterateMapValue `{Countable K} (add : Z → Z → Z)
    (m : gmap K Z) (key : K) (increment : Z) : gmap K Z :=
  match m !! key with
  | None => <[key := increment]> m
  | Some v => <[key := add v increment]> m
  end.

(** Modelled from the spec: [mergeMapKeys], a template of
    [errorAnalysisUtils.hh], a header that is not embedded here.  The spec
    describes the merge as a union by key that adds the counts of a key
    present on both sides, "absent keys are treated as zero".  [mergeMapKeys add m1 m2] is the new content of the
    second argument, the one the C++ function updates in place; [add] is the
    addition of the mapped type. *)
Definition mergeMapKeys `{Countable K} (add : Z → Z → Z) (m1 m2 : gmap K Z) : gmap K Z :=
  union_with (λ v2 v1, Some (add v2 v1)) m2 m1.

(** [compressInt] is defined in [blt_util/IntegerLogCompressor.hh], a header
    that is not embedded here: it is a parameter of the development.
    [compressInt x b] is the value [x] reduced to [b] significant bits. *)
Class IntegerLogCompressor := compressInt : Z → Z → Z.

(** What the development uses of [compressInt]: compressing twice changes
    nothing more, zero stays zero, and an [unsigned] stays an [unsigned]. *)
Class IntegerLogCompressorLaws `{IntegerLogCompressor} : Prop := {
  compressInt_idem : ∀ x b, compressInt (compressInt x b) b = compressInt x b;
  compressInt_zero : ∀ b, compressInt 0 b = 0;
  compressInt_range : ∀ x b, 0 ≤ x < UINT32_MOD → 0 ≤ compressInt x b < UINT32_MOD
}.

(** Modelled from the spec: an implementation of [compressInt] that "rounds
    to a bounded number of significant bits" by clearing every bit below the
    [bitCount] highest ones. *)
Definition truncateToBits (x bitCount : Z) : Z :=
  if x <? 2 ^ bitCount then x
  else let shift := Z.log2 x + 1 - bitCount in Z.shiftl (Z.shiftr x shift) shift.

(** ** [StrandBasecallCounts] *)

Module StrandBasecallCounts.

(** [qual_count_t] is [std::map<uint16_t,unsigned>] *)
Record t : Type := mk {
  refAlleleCount : Z;
  altAlleleCount : gmap Z Z
}.

Global Instance eq_dec : EqDecision t.
Proof. solve_decision. Defined.

Global Instance countable : Countable t.
Proof.
  refine (inj_countable' (λ s, (refAlleleCount s, altAlleleCount s))
                         (λ p, mk p.1 p.2) _).
  by intros [].
Defined.

(** [StrandBasecallCounts::compressCounts] *)
Definition compressCounts `{IntegerLogCompressor} (s : t) : t :=
  let bitCount := 4 in
  {| refAlleleCount := compressInt (refAlleleCount s) bitCount;
     altAlleleCount := (λ v, compressInt v bitCount) <$> altAlleleCount s |}.

End StrandBasecallCounts.

(** [StrandBasecallCounts::operator<] is defined in [BasecallErrorCounts.hh],
    a header that is not embedded here: the ordering is a parameter. *)
Class StrandOrder := strand_lt : StrandBasecallCounts.t → StrandBasecallCounts.t → bool.

(** The spec calls it a total ordering. *)
Class StrandOrderLaws `{StrandOrder} : Prop := {
  strand_lt_asym : ∀ a b, strand_lt a b = true → strand_lt b a = false;
  strand_lt_total : ∀ a b, strand_lt a b = false → strand_lt b a = false → a = b
}.

(** Among strands with the same alt counts the ordering follows the
    reference count. *)
Class StrandOrderRefFirst `{StrandOrder} : Prop :=
  strand_lt_ref : ∀ a b,
    StrandBasecallCounts.altAlleleCount a = StrandBasecallCounts.altAlleleCount b →
    strand_lt a b = true →
    StrandBasecallCounts.refAlleleCount a ≤ StrandBasecallCounts.refAlleleCount b.

(** Lexicographic comparison of two lists of pairs of integers. *)
Fixpoint lex_ltb (l1 l2 : list (Z * Z)) : bool :=
  match l1, l2 with
  | [], [] => false
  | [], _ :: _ => true
  | _ :: _, [] => false
  | (k1, v1) :: r1, (k2, v2) :: r2 =>
      if k1 <? k2 then true
      else if k2 <? k1 then false
      else if v1 <? v2 then true
      else if v2 <? v1 then false
      else lex_ltb r1 r2
  end.

(** Modelled from the spec: a total ordering of the per-strand summaries,
    by reference count first and then by the content of the alt-count map. *)
Definition refThenAlt (a b : StrandBasecallCounts.t) : bool :=
  let ra := StrandBasecallCounts.refAlleleCount a in
  let rb := StrandBasecallCounts.refAlleleCount b in
  if ra <? rb then true
  else if rb <? ra then false
  else lex_ltb (map_to_list (StrandBasecallCounts.altAlleleCount a))
               (map_to_list (StrandBasecallCounts.altAlleleCount b)).

(** ** [BasecallErrorContextInputObservation] *)

Module BasecallErrorContextInputObservation.

(** [ref] and [alt] are [std::array<qual_count_t,2>], one map per strand *)
Record t : Type := mk {
  ref : gmap Z Z * gmap Z Z;
  alt : gmap Z Z * gmap Z Z
}.

Definition strand {A} (isFwdStrand : bool) (a : A * A) : A :=
  if isFwdStrand then a.1 else a.2.

Definition setStrand {A} (isFwdStrand : bool) (x : A) (a : A * A) : A * A :=
  if isFwdStrand then (x, a.2) else (a.1, x).

(** [BasecallErrorContextInputObservation::addRefCount] *)
Definition addRefCount (isFwdStrand : bool) (basecallErrorPhredProb : Z) (o : t) : t :=
  {| ref := setStrand isFwdStrand
              (iterateMapValue add32 (strand isFwdStrand (ref o)) basecallErrorPhredProb 1) (ref o);
     alt := alt o |}.

(** [BasecallErrorContextInputObservation::addAltCount] *)
Definition addAltCount (isFwdStrand : bool) (basecallErrorPhredProb : Z) (o : t) : t :=
  {| ref := ref o;
     alt := setStrand isFwdStrand
              (iterateMapValue add32 (strand isFwdStrand (alt o)) basecallErrorPhredProb 1) (alt o) |}.

End BasecallErrorContextInputObservation.

(** ** [BasecallErrorContextObservation] *)

Module BasecallErrorContextObservation.

Record t : Type := mk {
  strand0 : StrandBasecallCounts.t;
  strand1 : StrandBasecallCounts.t
}.

Global Instance eq_dec : EqDecision t.
Proof. solve_decision. Defined.

Global Instance countable : Countable t.
Proof.
  refine (inj_countable' (λ o, (strand0 o, strand1 o)) (λ p, mk p.1 p.2) _).
  by intros [].
Defined.

Definition getStrand0Counts (o : t) := strand0 o.
Definition getStrand1Counts (o : t) := strand1 o.

(** the test of the first [if]: no strand has an alt entry *)
Definition noAlts (o : t) : bool :=
  bool_decide (StrandBasecallCounts.altAlleleCount (strand0 o) = ∅) &&
  bool_decide (StrandBasecallCounts.altAlleleCount (strand1 o) = ∅).

(** the first [if]: strand information is erased when no alt exists *)
Definition sumToStrand0 (o : t) : t :=
  if noAlts o then
    {| strand0 :=
         StrandBasecallCounts.mk
           (add32 (StrandBasecallCounts.refAlleleCount (strand0 o))
                  (StrandBasecallCounts.refAlleleCount (strand1 o)))
           (StrandBasecallCounts.altAlleleCount (strand0 o));
       strand1 :=
         StrandBasecallCounts.mk 0 (StrandBasecallCounts.altAlleleCount (strand1 o)) |}
  else o.

(** [BasecallErrorContextObservation::compressCounts] *)
Definition compressCounts `{IntegerLogCompressor} `{StrandOrder} (o : t) : t :=
  let o1 := sumToStrand0 o in
  let s0 := StrandBasecallCounts.compressCounts (strand0 o1) in
  let s1 := StrandBasecallCounts.compressCounts (strand1 o1) in
  if strand_lt s0 s1 then {| strand0 := s1; strand1 := s0 |}
  else {| strand0 := s0; strand1 := s1 |}.

(** the same pattern with its strands exchanged *)
Definition swapStrands (o : t) : t := {| strand0 := strand1 o; strand1 := strand0 o |}.

End BasecallErrorContextObservation.

(** two strands as a pattern, the larger one first: the last [if] of
    [compressCounts] *)
Definition larger_first `{StrandOrder} (s0 s1 : StrandBasecallCounts.t)
  : BasecallErrorContextObservation.t :=
  if strand_lt s0 s1 then BasecallErrorContextObservation.mk s1 s0
  else BasecallErrorContextObservation.mk s0 s1.

(** ** Results of code that can stop on an [assert] or run into undefined behaviour *)

Inductive outcome (A : Type) : Type :=
  | Done (a : A)
  | AssertionFailed
  | EndIteratorDereferenced.
Arguments Done {A} a.
Arguments AssertionFailed {A}.
Arguments EndIteratorDereferenced {A}.

Definition obind {A B} (x : outcome A) (f : A → outcome B) : outcome B :=
  match x with
  | Done a => f a
  | AssertionFailed => AssertionFailed
  | EndIteratorDereferenced => EndIteratorDereferenced
  end.

Notation "x ← y ;;; z" := (obind y (λ x, z))
  (at level 20, y at level 100, z at level 200, only parsing).

(** ** The exported form of the counts *)

Module BasecallErrorContextObservationExportStrandObservation.
Record t : Type := mk {
  refAlleleCount : Z;
  altAlleleCount : list Z      (* [std::vector<unsigned>] *)
}.
Global Instance eq_dec : EqDecision t.
Proof. solve_decision. Defined.
Global Instance countable : Countable t.
Proof.
  refine (inj_countable' (λ s, (refAlleleCount s, altAlleleCount s))
                         (λ p, mk p.1 p.2) _).
  by intros [].
Defined.
End BasecallErrorContextObservationExportStrandObservation.

Module BasecallErrorContextObservationExportObservation.
Record t : Type := mk {
  strand0 : BasecallErrorContextObservationExportStrandObservation.t;
  strand1 : BasecallErrorContextObservationExportStrandObservation.t
}.
Global Instance eq_dec : EqDecision t.
Proof. solve_decision. Defined.
Global Instance countable : Countable t.
Proof.
  refine (inj_countable' (λ o, (strand0 o, strand1 o)) (λ p, mk p.1 p.2) _).
  by intros [].
Defined.
End BasecallErrorContextObservationExportObservation.

Module BasecallErrorContextObservationExportData.
Record t : Type := mk {
  altAlleleBasecallErrorPhredProbLevels : list Z;   (* [std::vector<uint16_t>] *)
  refCount : list Z;                                (* [std::vector<uint64_t>] *)
  observations : gmap BasecallErrorContextObservationExportObservation.t Z
}.
(** [clear] *)
Definition clear : t := mk [] [] ∅.
End BasecallErrorContextObservationExportData.

(** ** [BasecallErrorContextObservationData] *)

Module BasecallErrorContextObservationData.

Record t : Type := mk {
  data : gmap BasecallErrorContextObservation.t Z;
  (** [refQual_t], from quality level to the number of reference calls *)
  refAlleleBasecallErrorPhredProbs : gmap Z Z
}.

Definition empty : t := mk ∅ ∅.

(** the loop [for (val : obs.ref[strandIndex]) refAlleleCount += val.second] *)
Definition sumCounts (m : gmap Z Z) : Z :=
  map_fold (λ _ v acc, add32 acc v) 0 m.

(** the pattern [addObservation] hands to [compressCounts] *)
Definition rawObservation (obs : BasecallErrorContextInputObservation.t)
  : BasecallErrorContextObservation.t :=
  let ref := BasecallErrorContextInputObservation.ref obs in
  let alt := BasecallErrorContextInputObservation.alt obs in
  {| BasecallErrorContextObservation.strand0 :=
       StrandBasecallCounts.mk (sumCounts ref.1) alt.1;
     BasecallErrorContextObservation.strand1 :=
       StrandBasecallCounts.mk (sumCounts ref.2) alt.2 |}.

(** [compressedObs] when [addObservation] counts it *)
Definition compressedObservation `{IntegerLogCompressor} `{StrandOrder}
    (obs : BasecallErrorContextInputObservation.t) : BasecallErrorContextObservation.t :=
  BasecallErrorContextObservation.compressCounts (rawObservation obs).

(** [BasecallErrorContextObservationData::addObservation] *)
Definition addObservation `{IntegerLogCompressor} `{StrandOrder}
    (obs : BasecallErrorContextInputObservation.t) (this : t) : t :=
  let ref := BasecallErrorContextInputObservation.ref obs in
  {| data := iterateMapValue add64 (data this) (compressedObservation obs) 1;
     refAlleleBasecallErrorPhredProbs :=
       mergeMapKeys add64 ref.2
         (mergeMapKeys add64 ref.1 (refAlleleBasecallErrorPhredProbs this)) |}.

(** [BasecallErrorContextObservationData::merge]: [this] after [this.merge(in)] *)
Definition merge (this inp : t) : t :=
  {| data := mergeMapKeys add64 (data inp) (data this);
     refAlleleBasecallErrorPhredProbs :=
       mergeMapKeys add64 (refAlleleBasecallErrorPhredProbs inp)
                          (refAlleleBasecallErrorPhredProbs this) |}.

(** *** [getExportData] *)

(** [basecallErrorPhredProbs], the [std::set] of levels, in the order a
    loop over it visits them *)
Definition exportLevels (this : t) : list Z :=
  merge_sort Z.le (elements (dom (refAlleleBasecallErrorPhredProbs this))).

(** the loop that fills [qualIndex] and the level vector *)
Definition indexLevels (levels : list Z) : gmap Z nat * list Z :=
  foldl (λ '(qualIndex, out) qual, (<[qual := length out]> qualIndex, out ++ [qual]))
        (∅, []) levels.

(** the loop that fills [refCount] *)
Definition exportRefCount (this : t) (levels : list Z) : list Z :=
  (λ qual, match refAlleleBasecallErrorPhredProbs this !! qual with
           | Some c => c
           | None => 0
           end) <$> levels.

(** the lambda [strand2ExportStrand]; [qualIndex.find(..)->second] is not
    guarded, a level without an index dereferences [qualIndex.end()] *)
Definition strand2ExportStrand (levelCount : nat) (qualIndex : gmap Z nat)
    (si : StrandBasecallCounts.t)
  : outcome BasecallErrorContextObservationExportStrandObservation.t :=
  alt ← map_fold
          (λ qual count acc,
             se ← acc ;;;
             match qualIndex !! qual with
             | Some i => Done (<[i := count]> se)
             | None => EndIteratorDereferenced
             end)
          (Done (replicate levelCount 0))
          (StrandBasecallCounts.altAlleleCount si) ;;;
  Done (BasecallErrorContextObservationExportStrandObservation.mk
          (StrandBasecallCounts.refAlleleCount si) alt).

(** the body of the loop over [data] *)
Definition exportObservation (levelCount : nat) (qualIndex : gmap Z nat)
    (observationPattern : BasecallErrorContextObservation.t) (instanceCount : Z)
    (observations : gmap BasecallErrorContextObservationExportObservation.t Z)
  : outcome (gmap BasecallErrorContextObservationExportObservation.t Z) :=
  e0 ← strand2ExportStrand levelCount qualIndex
         (BasecallErrorContextObservation.getStrand0Counts observationPattern) ;;;
  e1 ← strand2ExportStrand levelCount qualIndex
         (BasecallErrorContextObservation.getStrand1Counts observationPattern) ;;;
  let exportObservationPattern :=
    BasecallErrorContextObservationExportObservation.mk e0 e1 in
  match observations !! exportObservationPattern with
  | Some _ => AssertionFailed
  | None => Done (<[exportObservationPattern := instanceCount]> observations)
  end.

(** [BasecallErrorContextObservationData::getExportData] *)
Definition getExportData (this : t) : outcome BasecallErrorContextObservationExportData.t :=
  let basecallErrorPhredProbs := exportLevels this in
  let '(qualIndex, levels) := indexLevels basecallErrorPhredProbs in
  let refCount := exportRefCount this levels in
  observations ← map_fold
                   (λ pattern count acc,
                      obs ← acc ;;;
                      exportObservation (length basecallErrorPhredProbs) qualIndex
                                        pattern count obs)
                   (Done ∅) (data this) ;;;
  Done (BasecallErrorContextObservationExportData.mk levels refCount observations).

End BasecallErrorContextObservationData.

(** every key of the alt counts has an entry in the index [qualIndex] *)
Definition covered {I : Type} (qualIndex : gmap Z I) (alt : gmap Z Z) : Prop :=
  ∀ q, is_Some (alt !! q) → is_Some (qualIndex !! q).

(** the alt counts of both strands of a pattern are covered *)
Definition coveredPattern {I : Type} (qualIndex : gmap Z I)
    (pattern : BasecallErrorContextObservation.t) : Prop :=
  covered qualIndex (StrandBasecallCounts.altAlleleCount
                       (BasecallErrorContextObservation.strand0 pattern))
  ∧ covered qualIndex (StrandBasecallCounts.altAlleleCount
                         (BasecallErrorContextObservation.strand1 pattern)).

(** ** [BasecallErrorData] *)

Module BasecallErrorData.

Record t : Type := mk {
  counts : BasecallErrorContextObservationData.t;
  excludedRegionSkipped : Z;
  depthSkipped : Z;
  emptySkipped : Z;
  noiseSkipped : Z
}.

(** a default-constructed value, [data_t::mapped_type()] *)
Definition empty : t := mk BasecallErrorContextObservationData.empty 0 0 0 0.

(** [BasecallErrorData::merge]: [this] after [this.merge(in)] *)
Definition merge (this inp : t) : t :=
  {| counts := BasecallErrorContextObservationData.merge (counts this) (counts inp);
     excludedRegionSkipped := add64 (excludedRegionSkipped this) (excludedRegionSkipped inp);
     depthSkipped := add64 (depthSkipped this) (depthSkipped inp);
     emptySkipped := add64 (emptySkipped this) (emptySkipped inp);
     noiseSkipped := add64 (noiseSkipped this) (noiseSkipped inp) |}.

End BasecallErrorData.

(** ** [BasecallErrorCounts] *)

Module BasecallErrorCounts.

Section WithContext.
(** [BasecallErrorContext], the key of [_data]; its declaration is in
    [BasecallErrorCounts.hh], any type with a decidable order will do *)
Context {BasecallErrorContext : Type} `{Countable BasecallErrorContext}.

(** [_data], the only member *)
Local Abbreviation t := (gmap BasecallErrorContext BasecallErrorData.t).

(** [getContextIterator]: the map once the context has an entry, and that entry *)
Definition getContextIterator (context : BasecallErrorContext) (this : t)
  : t * BasecallErrorData.t :=
  match this !! context with
  | Some d => (this, d)
  | None => (<[context := BasecallErrorData.empty]> this, BasecallErrorData.empty)
  end.

(** [iter->second] is replaced by [f (iter->second)] *)
Definition updateContext (context : BasecallErrorContext)
    (f : BasecallErrorData.t → BasecallErrorData.t) (this : t) : t :=
  let '(m, d) := getContextIterator context this in <[context := f d]> m.

(** [BasecallErrorCounts::addSiteObservation] *)
Definition addSiteObservation `{IntegerLogCompressor} `{StrandOrder}
    (context : BasecallErrorContext)
    (siteObservation : BasecallErrorContextInputObservation.t) (this : t) : t :=
  updateContext context
    (λ d, BasecallErrorData.mk
            (BasecallErrorContextObservationData.addObservation siteObservation
               (BasecallErrorData.counts d))
            (BasecallErrorData.excludedRegionSkipped d) (BasecallErrorData.depthSkipped d)
            (BasecallErrorData.emptySkipped d) (BasecallErrorData.noiseSkipped d))
    this.

(** [BasecallErrorCounts::addExcludedRegionSkip] *)
Definition addExcludedRegionSkip (context : BasecallErrorContext) (this : t) : t :=
  updateContext context
    (λ d, BasecallErrorData.mk (BasecallErrorData.counts d)
            (add64 (BasecallErrorData.excludedRegionSkipped d) 1)
            (BasecallErrorData.depthSkipped d)
            (BasecallErrorData.emptySkipped d) (BasecallErrorData.noiseSkipped d))
    this.

(** [BasecallErrorCounts::addDepthSkip] *)
Definition addDepthSkip (context : BasecallErrorContext) (this : t) : t :=
  updateContext context
    (λ d, BasecallErrorData.mk (BasecallErrorData.counts d)
            (BasecallErrorData.excludedRegionSkipped d)
            (add64 (BasecallErrorData.depthSkipped d) 1)
            (BasecallErrorData.emptySkipped d) (BasecallErrorData.noiseSkipped d))
    this.

(** [BasecallErrorCounts::addEmptySkip] *)
Definition addEmptySkip (context : BasecallErrorContext) (this : t) : t :=
  updateContext context
    (λ d, BasecallErrorData.mk (BasecallErrorData.counts d)
            (BasecallErrorData.excludedRegionSkipped d) (BasecallErrorData.depthSkipped d)
            (add64 (BasecallErrorData.emptySkipped d) 1)
            (BasecallErrorData.noiseSkipped d))
    this.

(** [BasecallErrorCounts::addNoiseSkip] *)
Definition addNoiseSkip (context : BasecallErrorContext) (this : t) : t :=
  updateContext context
    (λ d, BasecallErrorData.mk (BasecallErrorData.counts d)
            (BasecallErrorData.excludedRegionSkipped d) (BasecallErrorData.depthSkipped d)
            (BasecallErrorData.emptySkipped d)
            (add64 (BasecallErrorData.noiseSkipped d) 1))
    this.

(** one turn of the loop of [merge], for the entry [idata] of [in._data] *)
Definition mergeEntry (context : BasecallErrorContext) (idata : BasecallErrorData.t)
    (this : t) : t :=
  match this !! context with
  | None => <[context := idata]> this
  | Some d => <[context := BasecallErrorData.merge d idata]> this
  end.

(** [BasecallErrorCounts::merge]: [this] after [this.merge(in)] *)
Definition merge (this inp : t) : t := map_fold mergeEntry this inp.

End WithContext.

(** what a context holds after a merge, from what the two sides hold *)
Definition mergedEntry (a b : option BasecallErrorData.t) : option BasecallErrorData.t :=
  union_with (λ x y, Some (BasecallErrorData.merge x y)) a b.

End BasecallErrorCounts.

(** ** The interface to [double] *)

(** The operations on [double] the code uses: the arithmetic of the language,
    [std::log] and [std::exp], [boost::math::gamma_p] and the binomial
    probability mass of [boost::math::pdf], and the two conversions of
    [blt_util/qscore.hh].  [gamma_p] and [binomial_pdf] take the [unsigned]
    arguments the code passes as integers. *)
Class DoubleOps (D : Type) : Type := {
  d_of_Z : Z → D;
  d_add : D → D → D;
  d_sub : D → D → D;
  d_mul : D → D → D;
  d_div : D → D → D;
  d_ltb : D → D → bool;
  d_leb : D → D → bool;
  d_eqb : D → D → bool;
  d_log : D → D;
  d_exp : D → D;
  gamma_p : Z → D → D;
  binomial_pdf : Z → D → Z → D;
  qphred_to_error_prob : Z → D;
  error_prob_to_qphred : D → Z
}.

(** [std::max(a, b)] on [double] is [(a < b) ? b : a] *)
Definition d_max `{DoubleOps D} (a b : D) : D := if d_ltb a b then b else a.

(** *** The exact reading of [double] *)

Global Instance Rlt_decision (x y : R) : Decision (x < y)%R := Rlt_dec x y.
Global Instance Rle_decision (x y : R) : Decision (x <= y)%R := Rle_dec x y.
Global Instance Req_decision (x y : R) : Decision (x = y) := Req_dec_T x y.

(** the sum of [x^k / k!] for [k < n] *)
Fixpoint poissonHead (n : nat) (x : R) : R :=
  match n with
  | O => 0%R
  | S k => (poissonHead k x + x ^ k / INR (fact k))%R
  end.

(** Modelled from the spec: "the regularized lower incomplete gamma function",
    which at a positive integer [a] is [1 - exp(-x) * sum_(k<a) x^k / k!]. *)
Definition Rgamma_p (a : Z) (x : R) : R :=
  (1 - exp (- x) * poissonHead (Z.to_nat a) x)%R.

(** the number of ways to choose [k] among [n] *)
Definition choose (n k : nat) : R := (INR (fact n) / (INR (fact k) * INR (fact (n - k))))%R.

(** Modelled from the spec: "the binomial likelihood" of [k] successes in [n]
    trials at success frequency [p]. *)
Definition Rbinomial_pdf (n : Z) (p : R) (k : Z) : R :=
  if bool_decide (0 ≤ k ≤ n) then
    (choose (Z.to_nat n) (Z.to_nat k) * p ^ Z.to_nat k * (1 - p) ^ Z.to_nat (n - k))%R
  else 0%R.

Definition log10 (x : R) : R := (ln x / ln 10)%R.

(** Modelled from the spec: the error probability of a phred-scaled quality,
    the inverse of "-10 log10(p)". *)
Definition Rqphred_to_error_prob (q : Z) : R := Rpower 10 (- (IZR q / 10)).

(** Modelled from the spec: "-10 log10(p), rounded to an integer". *)
Definition Rerror_prob_to_qphred (p : R) : Z := Zfloor (-10 * log10 p + / 2).

Global Instance RealDouble : DoubleOps R := {|
  d_of_Z := IZR;
  d_add := Rplus;
  d_sub := Rminus;
  d_mul := Rmult;
  d_div := Rdiv;
  d_ltb := λ x y, bool_decide (x < y)%R;
  d_leb := λ x y, bool_decide (x <= y)%R;
  d_eqb := λ x y, bool_decide (x = y);
  d_log := ln;
  d_exp := exp;
  gamma_p := Rgamma_p;
  binomial_pdf := Rbinomial_pdf;
  qphred_to_error_prob := Rqphred_to_error_prob;
  error_prob_to_qphred := Rerror_prob_to_qphred
|}.

(** ** [IndelErrorModel] *)

Module IndelErrorRateType.
Inductive index_t : Type := INSERT | DELETE | OTHER.
Global Instance eq_dec : EqDecision index_t.
Proof. solve_decision. Defined.
End IndelErrorRateType.

Module AlleleReportInfo.
(** the three members [getIndelErrorRate] reads, all [unsigned] *)
Record t : Type := mk {
  repeatUnitLength : Z;
  refRepeatCount : Z;
  indelRepeatCount : Z
}.
End AlleleReportInfo.

Module IndelErrorModel.
Import IndelErrorRateType.

Section WithRates.
Context {D : Type} `{DoubleOps D}.
(** [IndelKey] and [IndelErrorRateSet] are declared in headers that are not
    embedded here; so are [getRateType], which classifies an indel, and
    [IndelErrorRateSet::getRate], which reads the finalized table.  They
    are parameters. *)
Context {IndelKey IndelErrorRateSet : Type}.
Variable getRateType : IndelKey → index_t.
Variable getRate : IndelErrorRateSet → Z → Z → index_t → D.

Record t : Type := mk {
  _errorRates : IndelErrorRateSet;
  _candidateErrorRates : IndelErrorRateSet
}.

(** [IndelErrorModel::getIndelErrorRate]; the result is the pair of the
    output arguments [(refToIndelErrorProb, indelToRefErrorProb)] *)
Definition getIndelErrorRate (this : t) (indelKey : IndelKey)
    (indelReportInfo : AlleleReportInfo.t) (isCandidateRates : bool) : D * D :=
  let errorRates :=
    if isCandidateRates then _candidateErrorRates this else _errorRates this in
  let indelType := getRateType indelKey in
  let isSimpleIndel :=
    bool_decide (indelType = INSERT) || bool_decide (indelType = DELETE) in
  if negb isSimpleIndel then
    let baselineInsertionErrorRate := getRate errorRates 1 1 INSERT in
    let baselineDeletionErrorRate := getRate errorRates 1 1 DELETE in
    let refToIndelErrorProb := d_max baselineInsertionErrorRate baselineDeletionErrorRate in
    (refToIndelErrorProb, refToIndelErrorProb)
  else
    let one := 1 in
    let repeatingPatternSize := umax (AlleleReportInfo.repeatUnitLength indelReportInfo) one in
    let refPatternRepeatCount := umax (AlleleReportInfo.refRepeatCount indelReportInfo) one in
    let indelPatternRepeatCount := umax (AlleleReportInfo.indelRepeatCount indelReportInfo) one in
    let reverseIndelType := if bool_decide (indelType = DELETE) then INSERT else DELETE in
    (getRate errorRates repeatingPatternSize refPatternRepeatCount indelType,
     getRate errorRates repeatingPatternSize indelPatternRepeatCount reverseIndelType).
End WithRates.
End IndelErrorModel.

(** ** [AdaptiveIndelErrorModel] *)

Module AdaptiveIndelErrorModelLogParams.
Record t (D : Type) : Type := mk {
  logErrorRate : D;
  logNoisyLocusRate : D
}.
Arguments mk {D}.
Arguments logErrorRate {D}.
Arguments logNoisyLocusRate {D}.
End AdaptiveIndelErrorModelLogParams.

Module AdaptiveIndelErrorModel.

(** [unsigned AdaptiveIndelErrorModel::lowRepeatCount = 2;] *)
Definition lowRepeatCount : Z := 2.

(** Modelled from the spec: the member [_lowRepeatCount] that [errorRate]
    reads is declared in [IndelErrorModel.hh]; the spec has "the low anchor
    (fixed at repeat count 2)". *)
Definition _lowRepeatCount : Z := lowRepeatCount.

Record t (D : Type) : Type := mk {
  _repeatPatternSize : Z;
  _highRepeatCount : Z;
  _lowLogParams : AdaptiveIndelErrorModelLogParams.t D;
  _highLogParams : AdaptiveIndelErrorModelLogParams.t D
}.
Arguments mk {D}.
Arguments _repeatPatternSize {D}.
Arguments _highRepeatCount {D}.
Arguments _lowLogParams {D}.
Arguments _highLogParams {D}.

Section WithDouble.
Context {D : Type} `{DoubleOps D}.

(** [AdaptiveIndelErrorModel::linearFit] *)
Definition linearFit (x x1 y1 x2 y2 : D) : outcome D :=
  if d_eqb x1 x2 then AssertionFailed
  else Done (d_div (d_add (d_mul (d_sub y2 y1) x) (d_sub (d_mul x2 y1) (d_mul x1 y2)))
                   (d_sub x2 x1)).

(** [AdaptiveIndelErrorModel::errorRate] *)
Definition errorRate (this : t D) (repeatCount : Z) : outcome D :=
  if negb (1 <? repeatCount) then AssertionFailed
  else if _highRepeatCount this <=? repeatCount then
    Done (d_exp (AdaptiveIndelErrorModelLogParams.logErrorRate (_highLogParams this)))
  else
    y ← linearFit (d_of_Z repeatCount)
          (d_of_Z _lowRepeatCount)
          (AdaptiveIndelErrorModelLogParams.logErrorRate (_lowLogParams this))
          (d_of_Z (_highRepeatCount this))
          (AdaptiveIndelErrorModelLogParams.logErrorRate (_highLogParams this)) ;;;
    Done (d_exp y).

(** [AdaptiveIndelErrorModel::noisyLocusRate] *)
Definition noisyLocusRate (this : t D) (repeatCount : Z) : outcome D :=
  if negb (1 <? repeatCount) then AssertionFailed
  else if _highRepeatCount this <=? repeatCount then
    Done (d_exp (AdaptiveIndelErrorModelLogParams.logNoisyLocusRate (_highLogParams this)))
  else
    y ← linearFit (d_of_Z repeatCount)
          (d_of_Z _lowRepeatCount)
          (AdaptiveIndelErrorModelLogParams.logNoisyLocusRate (_lowLogParams this))
          (d_of_Z (_highRepeatCount this))
          (AdaptiveIndelErrorModelLogParams.logNoisyLocusRate (_highLogParams this)) ;;;
    Done (d_exp y).
End WithDouble.

(** the line through [(x1, y1)] and [(x2, y2)], in two-point form *)
Definition lineThrough (x1 y1 x2 y2 x : R) : R :=
  (y1 + (y2 - y1) * ((x - x1) / (x2 - x1)))%R.

End AdaptiveIndelErrorModel.

(** ** [starling_continuous_variant_caller] *)

(** [N_BASE] of [blt_util/seq_util.hh]: the bases A, C, G and T have the ids 0 to 3 *)
Definition N_BASE : Z := 4.

Module starling_base_options.
(** the members the caller reads *)
Record t (D : Type) : Type := mk {
  min_het_vf : D;
  min_qscore : Z;       (* [int] *)
  noise_floor : D
}.
Arguments mk {D}.
Arguments min_het_vf {D}.
Arguments min_qscore {D}.
Arguments noise_floor {D}.
End starling_base_options.

Module base_call.
Record t : Type := mk {
  is_fwd_strand : bool;
  base_id : Z
}.
End base_call.

Module LocusSampleInfo.
(** the per-sample part of a locus; the caller writes [gq] *)
Record t : Type := mk { gq : Z }.
End LocusSampleInfo.

Module GermlineContinuousSiteAlleleInfo.
Record t (D : Type) : Type := mk {
  _totalDepth : Z;
  _alleleDepth : Z;
  _base : Z;
  gqx : Z;
  strand_bias : D
}.
Arguments mk {D}.
Arguments _totalDepth {D}.
Arguments _alleleDepth {D}.
Arguments _base {D}.
Arguments gqx {D}.
Arguments strand_bias {D}.
End GermlineContinuousSiteAlleleInfo.

Module GermlineContinuousSiteLocusInfo.
Record t (D : Type) : Type := mk {
  spanning_deletions : Z;
  alleleObservationCounts : Z → Z;
  (** the reference base by its id, [base_to_id(locusInfo.ref)] *)
  ref : Z;
  isForcedOutput : bool;
  _is_snp : bool;
  altAlleles : list (GermlineContinuousSiteAlleleInfo.t D);
  samples : list LocusSampleInfo.t;
  anyVariantAlleleQuality : Z
}.
Arguments mk {D}.
Arguments spanning_deletions {D}.
Arguments alleleObservationCounts {D}.
Arguments ref {D}.
Arguments isForcedOutput {D}.
Arguments _is_snp {D}.
Arguments altAlleles {D}.
Arguments samples {D}.
Arguments anyVariantAlleleQuality {D}.
End GermlineContinuousSiteLocusInfo.

Module starling_indel_sample_report_info.
Record t : Type := mk {
  n_confident_indel_reads : Z;
  (** the value of the method [total_confident_reads()] *)
  total_confident_reads : Z
}.
End starling_indel_sample_report_info.

Module GermlineContinuousIndelAlleleInfo.
(** the two depths the constructor receives, and [gqx]; the keys and
    reports it stores besides are not read by the caller *)
Record t : Type := mk {
  _totalDepth : Z;
  _indelDepth : Z;
  gqx : Z
}.
End GermlineContinuousIndelAlleleInfo.

Module GermlineContinuousIndelLocusInfo.
Record t : Type := mk {
  altAlleles : list GermlineContinuousIndelAlleleInfo.t;
  samples : list LocusSampleInfo.t;
  is_het : bool;
  anyVariantAlleleQuality : Z
}.
End GermlineContinuousIndelLocusInfo.

Module starling_continuous_variant_caller.

Section WithDouble.
Context {D : Type} `{DoubleOps D}.

(** Modelled from the spec: [safeFrac] of [blt_util/math_util.hh], the
    "allele count / total depth" of the variant fraction, zero when the
    depth is zero. *)
Definition safeFrac (num denom : Z) : D :=
  if denom =? 0 then d_of_Z 0 else d_div (d_of_Z num) (d_of_Z denom).

(** [Likelihood] *)
Definition Likelihood (coverage observedCallCount : Z) (expectedFrequency : D) : D :=
  if observedCallCount =? 0 then d_of_Z 0
  else binomial_pdf coverage expectedFrequency observedCallCount.

(** [AssignPValue] *)
Definition AssignPValue (observedCallCount coverage estimatedBaseCallQuality : Z) : D :=
  if observedCallCount =? 0 then d_of_Z 1
  else
    let errorRate := qphred_to_error_prob estimatedBaseCallQuality in
    gamma_p observedCallCount (d_mul (d_of_Z coverage) errorRate).

(** [starling_continuous_variant_caller::poisson_qscore] *)
Definition poisson_qscore (callCount coverage estimatedBaseCallQuality maxQScore : Z) : Z :=
  let pValue := AssignPValue callCount coverage estimatedBaseCallQuality in
  if d_leb pValue (d_of_Z 0) then maxQScore
  else Z.min maxQScore (error_prob_to_qphred pValue).

(** [starling_continuous_variant_caller::strand_bias] *)
Definition strand_bias (fwdAlt revAlt fwdOther revOther : Z) (noise : D) : D :=
  let expectedVf :=
    d_div (d_of_Z (add32 fwdAlt revAlt))
          (d_add (d_add (d_add (d_of_Z fwdOther) (d_of_Z revOther)) (d_of_Z fwdAlt))
                 (d_of_Z revAlt)) in
  let fwd := d_log (Likelihood (add32 fwdAlt fwdOther) fwdAlt expectedVf) in
  let rev := d_log (Likelihood (add32 revAlt revOther) revAlt expectedVf) in
  let both :=
    d_log (Likelihood (add32 (add32 (add32 fwdAlt fwdOther) revAlt) revOther)
                      (add32 fwdAlt revAlt) expectedVf) in
  d_sub (d_max fwd rev) both.

(** *** [position_snp_call_continuous] *)

(** [totalDepth]: the spanning deletions and the counts of the four bases *)
Definition siteTotalDepth (locusInfo : GermlineContinuousSiteLocusInfo.t D) : Z :=
  foldl (λ totalDepth base_id,
           add32 totalDepth (GermlineContinuousSiteLocusInfo.alleleObservationCounts locusInfo base_id))
        (GermlineContinuousSiteLocusInfo.spanning_deletions locusInfo)
        (seqZ 0 N_BASE).

(** the loop over [good_pi.calls]: [(fwdAlt, revAlt, fwdOther, revOther)] *)
Definition strandTally (calls : list base_call.t) (base_id : Z) : Z * Z * Z * Z :=
  foldl (λ '(fwdAlt, revAlt, fwdOther, revOther) bc,
           if base_call.is_fwd_strand bc then
             if base_call.base_id bc =? base_id
             then (add32 fwdAlt 1, revAlt, fwdOther, revOther)
             else (fwdAlt, revAlt, add32 fwdOther 1, revOther)
           else if base_call.base_id bc =? base_id
             then (fwdAlt, add32 revAlt 1, fwdOther, revOther)
             else (fwdAlt, revAlt, fwdOther, add32 revOther 1))
        (0, 0, 0, 0) calls.

(** what the loop over the samples of [generateAlleleInfo] carries along *)
Record alleleLoop : Type := mkAlleleLoop {
  samplesDone : list LocusSampleInfo.t;
  allele : GermlineContinuousSiteAlleleInfo.t D;
  isOutputAllele : bool;
  is_snp : bool;
  outAlleles : list (GermlineContinuousSiteAlleleInfo.t D)
}.

(** one turn of the loop over the samples in [generateAlleleInfo] *)
Definition sampleTurn (opt : starling_base_options.t D) (calls : list base_call.t)
    (locusInfo : GermlineContinuousSiteLocusInfo.t D) (totalDepth ref_base_id base_id : Z)
    (isForcedOutput : bool) (st : alleleLoop) (sampleInfo : LocusSampleInfo.t) : alleleLoop :=
  let count := GermlineContinuousSiteLocusInfo.alleleObservationCounts locusInfo base_id in
  let vf := safeFrac count totalDepth in
  let st1 :=
    if d_ltb (starling_base_options.min_het_vf opt) vf || isForcedOutput then
      let q := poisson_qscore count totalDepth
                 (starling_base_options.min_qscore opt mod UINT32_MOD) 40 in
      let a := allele st in
      let a1 := GermlineContinuousSiteAlleleInfo.mk
                  (GermlineContinuousSiteAlleleInfo._totalDepth a)
                  (GermlineContinuousSiteAlleleInfo._alleleDepth a)
                  (GermlineContinuousSiteAlleleInfo._base a) q
                  (GermlineContinuousSiteAlleleInfo.strand_bias a) in
      if negb (ref_base_id =? base_id) then
        let '(fwdAlt, revAlt, fwdOther, revOther) := strandTally calls base_id in
        let a2 := GermlineContinuousSiteAlleleInfo.mk
                    (GermlineContinuousSiteAlleleInfo._totalDepth a1)
                    (GermlineContinuousSiteAlleleInfo._alleleDepth a1)
                    (GermlineContinuousSiteAlleleInfo._base a1) q
                    (strand_bias fwdAlt revAlt fwdOther revOther
                                 (starling_base_options.noise_floor opt)) in
        mkAlleleLoop (samplesDone st ++ [LocusSampleInfo.mk q]) a2 true
          (is_snp st || d_ltb (starling_base_options.min_het_vf opt) vf) (outAlleles st)
      else
        mkAlleleLoop (samplesDone st ++ [LocusSampleInfo.mk q]) a1 true
          (is_snp st) (outAlleles st)
    else
      mkAlleleLoop (samplesDone st ++ [sampleInfo]) (allele st) (isOutputAllele st)
        (is_snp st) (outAlleles st) in
  if isOutputAllele st1 then
    mkAlleleLoop (samplesDone st1) (allele st1) (isOutputAllele st1) (is_snp st1)
      (outAlleles st1 ++ [allele st1])
  else st1.

(** the lambda [generateAlleleInfo]; a new allele record starts with
    [gqx] and [strand_bias] at zero *)
Definition generateAlleleInfo (opt : starling_base_options.t D) (calls : list base_call.t)
    (totalDepth ref_base_id : Z) (base_id : Z) (isForcedOutput : bool)
    (locusInfo : GermlineContinuousSiteLocusInfo.t D) : GermlineContinuousSiteLocusInfo.t D :=
  let allele0 :=
    GermlineContinuousSiteAlleleInfo.mk totalDepth
      (GermlineContinuousSiteLocusInfo.alleleObservationCounts locusInfo base_id)
      base_id 0 (d_of_Z 0) in
  let st :=
    foldl (sampleTurn opt calls locusInfo totalDepth ref_base_id base_id isForcedOutput)
          (mkAlleleLoop [] allele0 false (GermlineContinuousSiteLocusInfo._is_snp locusInfo)
             (GermlineContinuousSiteLocusInfo.altAlleles locusInfo))
          (GermlineContinuousSiteLocusInfo.samples locusInfo) in
  GermlineContinuousSiteLocusInfo.mk
    (GermlineContinuousSiteLocusInfo.spanning_deletions locusInfo)
    (GermlineContinuousSiteLocusInfo.alleleObservationCounts locusInfo)
    (GermlineContinuousSiteLocusInfo.ref locusInfo)
    (GermlineContinuousSiteLocusInfo.isForcedOutput locusInfo)
    (is_snp st) (outAlleles st) (samplesDone st)
    (GermlineContinuousSiteLocusInfo.anyVariantAlleleQuality locusInfo).

(** the loop [for (base_id < N_BASE) generateAlleleInfo(base_id, locusInfo.isForcedOutput)] *)
Definition callEveryBase (opt : starling_base_options.t D) (calls : list base_call.t)
    (locusInfo : GermlineContinuousSiteLocusInfo.t D) : GermlineContinuousSiteLocusInfo.t D :=
  let totalDepth := siteTotalDepth locusInfo in
  let ref_base_id := GermlineContinuousSiteLocusInfo.ref locusInfo in
  foldl (λ l base_id,
           generateAlleleInfo opt calls totalDepth ref_base_id base_id
             (GermlineContinuousSiteLocusInfo.isForcedOutput l) l)
        locusInfo (seqZ 0 N_BASE).

(** the test [locusInfo.altAlleles.empty()] that guards the forced call
    for the reference *)
Definition referenceCallIsForced (opt : starling_base_options.t D) (calls : list base_call.t)
    (locusInfo : GermlineContinuousSiteLocusInfo.t D) : bool :=
  bool_decide (length (GermlineContinuousSiteLocusInfo.altAlleles
                         (callEveryBase opt calls locusInfo)) = 0%nat).

(** the maximum of the [gq] of the samples, from zero *)
Definition maxSampleQuality (samples : list LocusSampleInfo.t) : Z :=
  foldl (λ q sampleInfo, Z.max q (LocusSampleInfo.gq sampleInfo)) 0 samples.

(** [starling_continuous_variant_caller::position_snp_call_continuous];
    [calls] is [good_pi.calls] *)
Definition position_snp_call_continuous (opt : starling_base_options.t D)
    (calls : list base_call.t) (locusInfo : GermlineContinuousSiteLocusInfo.t D)
  : GermlineContinuousSiteLocusInfo.t D :=
  let totalDepth := siteTotalDepth locusInfo in
  let ref_base_id := GermlineContinuousSiteLocusInfo.ref locusInfo in
  let l1 := callEveryBase opt calls locusInfo in
  let l2 :=
    if referenceCallIsForced opt calls locusInfo
    then generateAlleleInfo opt calls totalDepth ref_base_id ref_base_id true l1
    else l1 in
  GermlineContinuousSiteLocusInfo.mk
    (GermlineContinuousSiteLocusInfo.spanning_deletions l2)
    (GermlineContinuousSiteLocusInfo.alleleObservationCounts l2)
    (GermlineContinuousSiteLocusInfo.ref l2)
    (GermlineContinuousSiteLocusInfo.isForcedOutput l2)
    (GermlineContinuousSiteLocusInfo._is_snp l2)
    (GermlineContinuousSiteLocusInfo.altAlleles l2)
    (GermlineContinuousSiteLocusInfo.samples l2)
    (maxSampleQuality (GermlineContinuousSiteLocusInfo.samples l2)).

(** *** [add_indel_call] *)

(** Modelled from the spec: [variant_frequency()] of an indel allele
    record, "confident-indel-read count / total-confident-read count". *)
Definition variant_frequency (a : GermlineContinuousIndelAlleleInfo.t) : D :=
  safeFrac (GermlineContinuousIndelAlleleInfo._indelDepth a)
           (GermlineContinuousIndelAlleleInfo._totalDepth a).

(** the loop over the samples after [emplace_back]: every turn writes the
    score to the sample and to [altAlleles.back()] *)
Definition scoreSamples (q : Z) (samples : list LocusSampleInfo.t)
    (allele : GermlineContinuousIndelAlleleInfo.t)
  : list LocusSampleInfo.t * GermlineContinuousIndelAlleleInfo.t :=
  foldl (λ '(done, a) _,
           (done ++ [LocusSampleInfo.mk q],
            GermlineContinuousIndelAlleleInfo.mk
              (GermlineContinuousIndelAlleleInfo._totalDepth a)
              (GermlineContinuousIndelAlleleInfo._indelDepth a) q))
        ([], allele) samples.

(** [locusInfo.altAlleles.front().variant_frequency() < (1-opt.min_het_vf)],
    for a list that is not empty *)
Definition frontBelowComplement (opt : starling_base_options.t D)
    (altAlleles : list GermlineContinuousIndelAlleleInfo.t) : bool :=
  match altAlleles with
  | front :: _ =>
      d_ltb (variant_frequency front)
            (d_sub (d_of_Z 1) (starling_base_options.min_het_vf opt))
  | [] => false
  end.

(** [starling_continuous_variant_caller::add_indel_call]; [isForcedOutput]
    is [indelData.isForcedOutput] *)
Definition add_indel_call (opt : starling_base_options.t D) (isForcedOutput : bool)
    (indelSampleReportInfo : starling_indel_sample_report_info.t)
    (locusInfo : GermlineContinuousIndelLocusInfo.t) : GermlineContinuousIndelLocusInfo.t :=
  let n := starling_indel_sample_report_info.n_confident_indel_reads indelSampleReportInfo in
  let total := starling_indel_sample_report_info.total_confident_reads indelSampleReportInfo in
  let vf := d_div (d_of_Z n) (d_of_Z total) in
  let '(altAlleles, samples) :=
    if d_ltb (starling_base_options.min_het_vf opt) vf || isForcedOutput then
      let q := poisson_qscore n total
                 (starling_base_options.min_qscore opt mod UINT32_MOD) 40 in
      let '(samples, allele) :=
        scoreSamples q (GermlineContinuousIndelLocusInfo.samples locusInfo)
          (GermlineContinuousIndelAlleleInfo.mk total n 0) in
      (GermlineContinuousIndelLocusInfo.altAlleles locusInfo ++ [allele], samples)
    else
      (GermlineContinuousIndelLocusInfo.altAlleles locusInfo,
       GermlineContinuousIndelLocusInfo.samples locusInfo) in
  let is_het :=
    match altAlleles with
    | [] => GermlineContinuousIndelLocusInfo.is_het locusInfo
    | _ :: _ => (1 <? Z.of_nat (length altAlleles)) || frontBelowComplement opt altAlleles
    end in
  GermlineContinuousIndelLocusInfo.mk altAlleles samples is_het (maxSampleQuality samples).

End WithDouble.

End starling_continuous_variant_caller.

(** ** Instances of the parameters, and the scenarios of the design document *)

(** [compressInt] by truncation *)
Definition truncatingCompressor : IntegerLogCompressor := truncateToBits.

(** [operator<] by reference count, then by alt counts *)
Definition refThenAltOrder : StrandOrder := refThenAlt.

Module Scenario.

(** a site with forward calls at two quality levels and no alt call *)
Definition referenceOnlySite : BasecallErrorContextInputObservation.t :=
  BasecallErrorContextInputObservation.mk ({[30 := 20; 40 := 3]}, {[30 := 14]}) (∅, ∅).

(** a site with one alt call on the reverse strand *)
Definition altSite : BasecallErrorContextInputObservation.t :=
  BasecallErrorContextInputObservation.mk ({[30 := 20]}, {[30 := 33]}) (∅, {[20 := 1]}).

(** an aggregated pattern with an alt call at level 20 and reference calls
    at level 30 only *)
Definition altOnlyLevel : BasecallErrorContextObservationData.t :=
  BasecallErrorContextObservationData.mk
    {[ BasecallErrorContextObservation.mk
         (StrandBasecallCounts.mk 20 {[20 := 1]}) (StrandBasecallCounts.mk 14 ∅) := 1 ]}
    {[30 := 34]}.

(** the same pattern, with reference calls at the levels 20 and 30 *)
Definition sharedLevels : BasecallErrorContextObservationData.t :=
  BasecallErrorContextObservationData.mk
    {[ BasecallErrorContextObservation.mk
         (StrandBasecallCounts.mk 20 {[20 := 1]}) (StrandBasecallCounts.mk 14 ∅) := 1 ]}
    {[20 := 5; 30 := 34]}.

(** the caller's options with reporting threshold [min_het_vf] *)
Definition options (min_het_vf : R) (min_qscore : Z) (noise_floor : R)
  : starling_base_options.t R :=
  starling_base_options.mk min_het_vf min_qscore noise_floor.

(** reference base A (id 0) seen 90 times, base C (id 1) seen 10 times *)
Definition siteCounts (base_id : Z) : Z :=
  if base_id =? 0 then 90 else if base_id =? 1 then 10 else 0.

(** the single-sample locus of depth 100 *)
Definition siteLocus (gq0 : Z) : GermlineContinuousSiteLocusInfo.t R :=
  GermlineContinuousSiteLocusInfo.mk 0 siteCounts 0 false false [] [LocusSampleInfo.mk gq0] 0.

(** a single-sample indel locus without allele record *)
Definition indelLocus (gq0 : Z) : GermlineContinuousIndelLocusInfo.t :=
  GermlineContinuousIndelLocusInfo.mk [] [LocusSampleInfo.mk gq0] false 0.

(** [n] confident indel reads among 100 confident reads *)
Definition indelReads (n : Z) : starling_indel_sample_report_info.t :=
  starling_indel_sample_report_info.mk n 100.

(** an adaptive model of homopolymers with the high anchor at 16 repeats *)
Definition homopolymerModel : AdaptiveIndelErrorModel.t R :=
  AdaptiveIndelErrorModel.mk 1 16
    (AdaptiveIndelErrorModelLogParams.mk (ln (49 / 10000)) (ln (49 / 10000)))
    (AdaptiveIndelErrorModelLogParams.mk (ln (45 / 1000)) (ln (45 / 1000))).

(** an adaptive model whose high anchor is at repeat count 2, the repeat
    count of the low anchor *)
Definition equalAnchorsModel : AdaptiveIndelErrorModel.t R :=
  AdaptiveIndelErrorModel.mk 1 2
    (AdaptiveIndelErrorModelLogParams.mk (ln (49 / 10000)) (ln (49 / 10000)))
    (AdaptiveIndelErrorModelLogParams.mk (ln (45 / 1000)) (ln (45 / 1000))).

(** the single-sample locus of depth 100, for any reading of [double] *)
Definition siteLocusOf (D : Type) (gq0 : Z) : GermlineContinuousSiteLocusInfo.t D :=
  GermlineContinuousSiteLocusInfo.mk 0 siteCounts 0 false false []
    [LocusSampleInfo.mk gq0] 0.

End Scenario.

(** ** Sequences of calls on a [BasecallErrorCounts] *)

Global Instance BasecallErrorContextInputObservation_eq_dec :
  EqDecision BasecallErrorContextInputObservation.t.
Proof. solve_decision. Defined.

Module BasecallErrorCountsCall.

Section WithContext.
Context {BasecallErrorContext : Type} `{Countable BasecallErrorContext}.

(** a call of one of the five member functions that add to the counts *)
Inductive t : Type :=
  | AddSiteObservation (context : BasecallErrorContext)
      (siteObservation : BasecallErrorContextInputObservation.t)
  | AddExcludedRegionSkip (context : BasecallErrorContext)
  | AddDepthSkip (context : BasecallErrorContext)
  | AddEmptySkip (context : BasecallErrorContext)
  | AddNoiseSkip (context : BasecallErrorContext).

Global Instance eq_dec : EqDecision t.
Proof. solve_decision. Defined.

(** the context a call names *)
Definition context (c : t) : BasecallErrorContext :=
  match c with
  | AddSiteObservation context _ | AddExcludedRegionSkip context | AddDepthSkip context
  | AddEmptySkip context | AddNoiseSkip context => context
  end.

Context `{IntegerLogCompressor} `{StrandOrder}.

(** the object after the call *)
Definition run (c : t) (this : gmap BasecallErrorContext BasecallErrorData.t)
  : gmap BasecallErrorContext BasecallErrorData.t :=
  match c with
  | AddSiteObservation context siteObservation =>
      BasecallErrorCounts.addSiteObservation context siteObservation this
  | AddExcludedRegionSkip context => BasecallErrorCounts.addExcludedRegionSkip context this
  | AddDepthSkip context => BasecallErrorCounts.addDepthSkip context this
  | AddEmptySkip context => BasecallErrorCounts.addEmptySkip context this
  | AddNoiseSkip context => BasecallErrorCounts.addNoiseSkip context this
  end.

(** the object after the calls of a list, the first one first *)
Definition runAll (calls : list t) (this : gmap BasecallErrorContext BasecallErrorData.t)
  : gmap BasecallErrorContext BasecallErrorData.t :=
  foldl (λ this c, run c this) this calls.

(** how often a call occurs in a list, as a [uint64_t] *)
Definition occurrences (c : t) (calls : list t) : Z :=
  Z.of_nat (length (filter (λ c', c' = c) calls)) mod UINT64_MOD.

End WithContext.

End BasecallErrorCountsCall.

(** the four skip counters hold values of [uint64_t] *)
Definition countersInRange (d : BasecallErrorData.t) : Prop :=
  0 ≤ BasecallErrorData.excludedRegionSkipped d < UINT64_MOD
  ∧ 0 ≤ BasecallErrorData.depthSkipped d < UINT64_MOD
  ∧ 0 ≤ BasecallErrorData.emptySkipped d < UINT64_MOD
  ∧ 0 ≤ BasecallErrorData.noiseSkipped d < UINT64_MOD.

Section EntryUpdate.
Context {Ctx : Type} `{Countable Ctx}.
Context `{IntegerLogCompressor} `{StrandOrder}.

(** what a call does to the entry of its context *)
Definition entryUpdate (c : BasecallErrorCountsCall.t (BasecallErrorContext := Ctx))
    (d : BasecallErrorData.t) : BasecallErrorData.t :=
  match c with
  | BasecallErrorCountsCall.AddSiteObservation _ siteObservation =>
      BasecallErrorData.mk
        (BasecallErrorContextObservationData.addObservation siteObservation
           (BasecallErrorData.counts d))
        (BasecallErrorData.excludedRegionSkipped d) (BasecallErrorData.depthSkipped d)
        (BasecallErrorData.emptySkipped d) (BasecallErrorData.noiseSkipped d)
  | BasecallErrorCountsCall.AddExcludedRegionSkip _ =>
      BasecallErrorData.mk (BasecallErrorData.counts d)
        (add64 (BasecallErrorData.excludedRegionSkipped d) 1)
        (BasecallErrorData.depthSkipped d)
        (BasecallErrorData.emptySkipped d) (BasecallErrorData.noiseSkipped d)
  | BasecallErrorCountsCall.AddDepthSkip _ =>
      BasecallErrorData.mk (BasecallErrorData.counts d)
        (BasecallErrorData.excludedRegionSkipped d)
        (add64 (BasecallErrorData.depthSkipped d) 1)
        (BasecallErrorData.emptySkipped d) (BasecallErrorData.noiseSkipped d)
  | BasecallErrorCountsCall.AddEmptySkip _ =>
      BasecallErrorData.mk (BasecallErrorData.counts d)
        (BasecallErrorData.excludedRegionSkipped d) (BasecallErrorData.depthSkipped d)
        (add64 (BasecallErrorData.emptySkipped d) 1)
        (BasecallErrorData.noiseSkipped d)
  | BasecallErrorCountsCall.AddNoiseSkip _ =>
      BasecallErrorData.mk (BasecallErrorData.counts d)
        (BasecallErrorData.excludedRegionSkipped d) (BasecallErrorData.depthSkipped d)
        (BasecallErrorData.emptySkipped d)
        (add64 (BasecallErrorData.noiseSkipped d) 1)
  end.

End EntryUpdate.

(** ** What the export holds *)

(** the alt counts of a strand by position of quality level, zero for a
    level without alt call *)
Definition exportedStrand (levels : list Z) (si : StrandBasecallCounts.t)
  : BasecallErrorContextObservationExportStrandObservation.t :=
  BasecallErrorContextObservationExportStrandObservation.mk
    (StrandBasecallCounts.refAlleleCount si)
    ((λ qual, default 0 (StrandBasecallCounts.altAlleleCount si !! qual)) <$> levels).

(** both strands of a pattern by position of quality level *)
Definition exportedPattern (levels : list Z) (pattern : BasecallErrorContextObservation.t)
  : BasecallErrorContextObservationExportObservation.t :=
  BasecallErrorContextObservationExportObservation.mk
    (exportedStrand levels (BasecallErrorContextObservation.strand0 pattern))
    (exportedStrand levels (BasecallErrorContextObservation.strand1 pattern)).

(** the index of the levels gives every level its position *)
Definition indexOf (qualIndex : gmap Z nat) (levels : list Z) : Prop :=
  ∀ (q : Z) (i : nat), qualIndex !! q = Some i ↔ levels !! i = Some q.

(** every alt level of every aggregated pattern is a level of the reference
    counts *)
Definition exportable (this : BasecallErrorContextObservationData.t) : Prop :=
  ∀ pattern count,
    BasecallErrorContextObservationData.data this !! pattern = Some count →
    coveredPattern (BasecallErrorContextObservationData.refAlleleBasecallErrorPhredProbs this)
                   pattern.

(** every quality level with an alt call at a site has a reference call of
    the site as well, on one of the strands *)
Definition altLevelsHaveReferenceCalls (obs : BasecallErrorContextInputObservation.t) : Prop :=
  ∀ q : Z,
    is_Some ((BasecallErrorContextInputObservation.alt obs).1 !! q)
    ∨ is_Some ((BasecallErrorContextInputObservation.alt obs).2 !! q) →
    is_Some ((BasecallErrorContextInputObservation.ref obs).1 !! q)
    ∨ is_Some ((BasecallErrorContextInputObservation.ref obs).2 !! q).

(** ** What the continuous caller reports *)

Section CallerTerms.
Context {D : Type} `{DoubleOps D}.
Implicit Types (opt : starling_base_options.t D) (calls : list base_call.t)
  (locusInfo : GermlineContinuousSiteLocusInfo.t D).

(** the variant fraction of a base is above the threshold *)
Definition aboveThreshold opt (totalDepth : Z) locusInfo (base_id : Z) : bool :=
  d_ltb (starling_base_options.min_het_vf opt)
        (starling_continuous_variant_caller.safeFrac
           (GermlineContinuousSiteLocusInfo.alleleObservationCounts locusInfo base_id)
           totalDepth).

(** the score [generateAlleleInfo] gives to a base *)
Definition baseScore opt (totalDepth : Z) locusInfo (base_id : Z) : Z :=
  starling_continuous_variant_caller.poisson_qscore
    (GermlineContinuousSiteLocusInfo.alleleObservationCounts locusInfo base_id) totalDepth
    (starling_base_options.min_qscore opt mod UINT32_MOD) 40.

(** the record [generateAlleleInfo] pushes for a base *)
Definition baseRecord opt calls (totalDepth ref_base_id : Z) locusInfo (base_id : Z)
  : GermlineContinuousSiteAlleleInfo.t D :=
  GermlineContinuousSiteAlleleInfo.mk totalDepth
    (GermlineContinuousSiteLocusInfo.alleleObservationCounts locusInfo base_id) base_id
    (baseScore opt totalDepth locusInfo base_id)
    (if ref_base_id =? base_id then d_of_Z 0
     else let '(fwdAlt, revAlt, fwdOther, revOther) :=
            starling_continuous_variant_caller.strandTally calls base_id in
          starling_continuous_variant_caller.strand_bias fwdAlt revAlt fwdOther revOther
            (starling_base_options.noise_floor opt)).

(** the bases [generateAlleleInfo] reports in the loop over the bases *)
Definition reportedBases opt locusInfo : list Z :=
  List.filter
    (λ base_id, aboveThreshold opt (starling_continuous_variant_caller.siteTotalDepth locusInfo)
                  locusInfo base_id
                || GermlineContinuousSiteLocusInfo.isForcedOutput locusInfo)
    (seqZ 0 N_BASE).

(** the bases that flag the site as a SNP *)
Definition variantBases opt locusInfo : list Z :=
  List.filter
    (λ base_id, negb (GermlineContinuousSiteLocusInfo.ref locusInfo =? base_id)
                && aboveThreshold opt (starling_continuous_variant_caller.siteTotalDepth locusInfo)
                     locusInfo base_id)
    (seqZ 0 N_BASE).

(** the bases that get records: the reported ones, the reference base when
    the locus would stay without a record *)
Definition calledBases opt locusInfo : list Z :=
  if bool_decide (GermlineContinuousSiteLocusInfo.altAlleles locusInfo = [])
     && bool_decide (reportedBases opt locusInfo = [])
  then [GermlineContinuousSiteLocusInfo.ref locusInfo]
  else reportedBases opt locusInfo.

(** the score the samples carry after the call *)
Definition siteScore opt locusInfo : Z :=
  baseScore opt (starling_continuous_variant_caller.siteTotalDepth locusInfo) locusInfo
    (List.last (calledBases opt locusInfo) (GermlineContinuousSiteLocusInfo.ref locusInfo)).

(** the test of [add_indel_call] that gives the indel a record *)
Definition indelReported (opt : starling_base_options.t D) (isForcedOutput : bool)
    (indelSampleReportInfo : starling_indel_sample_report_info.t) : bool :=
  d_ltb (starling_base_options.min_het_vf opt)
        (d_div (d_of_Z (starling_indel_sample_report_info.n_confident_indel_reads
                          indelSampleReportInfo))
               (d_of_Z (starling_indel_sample_report_info.total_confident_reads
                          indelSampleReportInfo)))
  || isForcedOutput.

(** the score [add_indel_call] computes for the indel *)
Definition indelScore (opt : starling_base_options.t D)
    (indelSampleReportInfo : starling_indel_sample_report_info.t) : Z :=
  starling_continuous_variant_caller.poisson_qscore
    (starling_indel_sample_report_info.n_confident_indel_reads indelSampleReportInfo)
    (starling_indel_sample_report_info.total_confident_reads indelSampleReportInfo)
    (starling_base_options.min_qscore opt mod UINT32_MOD) 40.

End CallerTerms.

(** the number of the calls of a strand that show, or do not show, a base,
    as an [unsigned] *)
Definition countCalls (isFwdStrand showsBase : bool) (base_id : Z) (calls : list base_call.t)
  : Z :=
  Z.of_nat (length (List.filter
                      (λ bc, bool_decide (base_call.is_fwd_strand bc = isFwdStrand)
                             && bool_decide ((base_call.base_id bc =? base_id) = showsBase))
                      calls))
  mod UINT32_MOD.

(** ** The built-in tables of [IndelErrorModel.cpp] *)

(** a decimal literal [m e-n], the [double] nearest to [m / 10^n] *)
Definition d_decimal `{DoubleOps D} (m : Z) (n : Z) : D := d_div (d_of_Z m) (d_of_Z (10 ^ n)).

Module BuiltinIndelErrorRates.

Section WithRates.
Context {D : Type} `{DoubleOps D}.
(** [IndelErrorRateSet], its default constructor and [addRate] are declared
    in a header that is not embedded here: they are parameters.
    [addRate size count r1 r2 rates] is [rates] after
    [rates.addRate(size, count, r1, r2)]. *)
Context {IndelErrorRateSet : Type}.
Variable emptyRates : IndelErrorRateSet.
Variable addRate : Z → Z → D → D → IndelErrorRateSet → IndelErrorRateSet.

(** [errorRate] in the body of the loop of [getLogLinearIndelErrorModel] *)
Definition logLinearErrorRate (patternRepeatCount : Z) : D :=
  let logLowErrorRate := d_log (d_decimal 5 5) in
  let logHighErrorRate := d_log (d_decimal 3 4) in
  let repeatCountSwitchPoint := 15 in
  let repeatingPatternSize := 1 in
  let highErrorFrac :=
    d_div (d_of_Z (Z.min ((patternRepeatCount - 1) mod UINT32_MOD) repeatCountSwitchPoint))
          (d_of_Z repeatCountSwitchPoint) in
  let logErrorRate :=
    d_add (d_mul (d_sub (d_of_Z 1) highErrorFrac) logLowErrorRate)
          (d_mul highErrorFrac logHighErrorRate) in
  d_exp (if repeatingPatternSize =? 1 then logErrorRate else logLowErrorRate).

(** [getLogLinearIndelErrorModel] *)
Definition getLogLinearIndelErrorModel : IndelErrorRateSet :=
  let repeatCountSwitchPoint := 15 in
  let repeatingPatternSize := 1 in
  foldl (λ rates patternRepeatCount,
           let errorRate := logLinearErrorRate patternRepeatCount in
           addRate repeatingPatternSize patternRepeatCount errorRate errorRate rates)
        emptyRates (seqZ 1 (repeatCountSwitchPoint + 1)).

(** the value of [logNoisyLocusRate] in a default-constructed
    [AdaptiveIndelErrorModelLogParams]; [getSimplifiedAdaptiveParameters]
    leaves it as it is and no function it calls reads it *)
Variable defaultLogNoisyLocusRate : D.

(** the inner loop of [getSimplifiedAdaptiveParameters], over the repeat counts *)
Definition addAdaptiveRates (repeatingPatternSize : Z)
    (indelErrorModel : AdaptiveIndelErrorModel.t D) (counts : list Z)
    (rates : IndelErrorRateSet) : outcome IndelErrorRateSet :=
  foldl (λ acc patternRepeatCount,
           rates ← acc ;;;
           errorRate ← AdaptiveIndelErrorModel.errorRate indelErrorModel patternRepeatCount ;;;
           Done (addRate repeatingPatternSize patternRepeatCount errorRate errorRate rates))
        (Done rates) counts.

(** [getSimplifiedAdaptiveParameters] *)
Definition getSimplifiedAdaptiveParameters : outcome IndelErrorRateSet :=
  let nonStrRate := d_decimal 8 3 in
  let repeatingPatternSizeVector := [1; 2] in
  let logLowErrorRateVector := [d_log (d_decimal 49 4); d_log (d_decimal 10 3)] in
  let logHighErrorRateVector := [d_log (d_decimal 45 3); d_log (d_decimal 18 3)] in
  let repeatCountSwitchPointVector := [16; 9] in
  let numberOfPatternSizes := length repeatingPatternSizeVector in
  if negb (bool_decide (length logLowErrorRateVector = numberOfPatternSizes)
           && bool_decide (length logHighErrorRateVector = numberOfPatternSizes)
           && bool_decide (length repeatCountSwitchPointVector = numberOfPatternSizes))
  then AssertionFailed
  else
    foldl (λ acc repeatingPatternSizeIx,
             rates ← acc ;;;
             let repeatingPatternSize :=
               default 0 (repeatingPatternSizeVector !! repeatingPatternSizeIx) in
             let repeatCountSwitchPoint :=
               default 0 (repeatCountSwitchPointVector !! repeatingPatternSizeIx) in
             let lowLogParams :=
               AdaptiveIndelErrorModelLogParams.mk
                 (default (d_of_Z 0) (logLowErrorRateVector !! repeatingPatternSizeIx))
                 defaultLogNoisyLocusRate in
             let highLogParams :=
               AdaptiveIndelErrorModelLogParams.mk
                 (default (d_of_Z 0) (logHighErrorRateVector !! repeatingPatternSizeIx))
                 defaultLogNoisyLocusRate in
             let indelErrorModel :=
               AdaptiveIndelErrorModel.mk repeatingPatternSize repeatCountSwitchPoint
                 lowLogParams highLogParams in
             let rates1 := addRate repeatingPatternSize 1 nonStrRate nonStrRate rates in
             addAdaptiveRates repeatingPatternSize indelErrorModel
               (seqZ AdaptiveIndelErrorModel.lowRepeatCount
                     (repeatCountSwitchPoint + 1 - AdaptiveIndelErrorModel.lowRepeatCount))
               rates1)
          (Done emptyRates) (seq 0 numberOfPatternSizes).

End WithRates.

(** a call of [addRate]: pattern size, repeat count, and the two rates *)
Definition rateEntry (D : Type) : Type := Z * Z * D * D.

(** the table as the list of the calls of [addRate], in their order *)
Definition recordRate {D : Type} (size count : Z) (r1 r2 : D) (rates : list (rateEntry D))
  : list (rateEntry D) :=
  rates ++ [(size, count, r1, r2)].

End BuiltinIndelErrorRates.

(** the log rate behind [errorRate] and [noisyLocusRate] *)
Definition logRateAt (high : Z) (yLow yHigh : R) (repeatCount : Z) : R :=
  if high <=? repeatCount then yHigh
  else AdaptiveIndelErrorModel.lineThrough
         (IZR AdaptiveIndelErrorModel.lowRepeatCount) yLow (IZR high) yHigh (IZR repeatCount).

(** ** [strelka_filter_keeper] and the labels of the somatic VCF filters *)

Module SOMATIC_VARIANT_VCF_FILTERS.

(** [enum index_t]; [SIZE] is its last enumerator *)
Inductive index_t : Type :=
  | HighDepth | LowEVS
  | BCNoise | SpanDel | QSS_ref
  | Repeat | iHpol | IndelBCNoise | QSI_ref | Nonref
  | SIZE.

Global Instance eq_dec : EqDecision index_t.
Proof. solve_decision. Defined.

(** the value of an enumerator *)
Definition value (i : index_t) : Z :=
  match i with
  | HighDepth => 0 | LowEVS => 1
  | BCNoise => 2 | SpanDel => 3 | QSS_ref => 4
  | Repeat => 5 | iHpol => 6 | IndelBCNoise => 7 | QSI_ref => 8 | Nonref => 9
  | SIZE => 10
  end.

(** the filters, in the order of their values *)
Definition filters : list index_t :=
  [HighDepth; LowEVS; BCNoise; SpanDel; QSS_ref; Repeat; iHpol; IndelBCNoise; QSI_ref; Nonref].

(** [get_label]; [None] is the failing [assert(false && "Unknown vcf filter id")] *)
Definition get_label (idx : Z) : option string :=
  if idx =? value HighDepth then Some "HighDepth"
  else if idx =? value BCNoise then Some "BCNoise"
  else if idx =? value SpanDel then Some "SpanDel"
  else if idx =? value QSS_ref then Some "QSS_ref"
  else if idx =? value Repeat then Some "Repeat"
  else if idx =? value iHpol then Some "iHpol"
  else if idx =? value IndelBCNoise then Some "BCNoise"
  else if idx =? value QSI_ref then Some "QSI_ref"
  else if idx =? value LowEVS then Some "LowEVS"
  else if idx =? value Nonref then Some "Nonref"
  else None.

End SOMATIC_VARIANT_VCF_FILTERS.

Module strelka_filter_keeper.
Import SOMATIC_VARIANT_VCF_FILTERS.

(** how a member function can stop *)
Inductive failure : Type :=
  | SettingFilterTwice      (* [assert(false && "Setting filter twice")] *)
  | UnknownFilterId         (* the assertion of [get_label] *)
  | OutOfRange.             (* [std::out_of_range] of [std::bitset::test] *)

(** [_filters], a [std::bitset<SIZE>]: bit [i] of the integer is position [i] *)
Record t : Type := mk { _filters : Z }.

(** the values a [std::bitset<SIZE>] takes *)
Definition valid (k : t) : Prop := 0 ≤ _filters k < 2 ^ value SIZE.

(** [clear], which is also the constructor *)
Definition clear : t := mk 0.

(** [_filters.test(i)] for a position of the bitset *)
Definition test (k : t) (i : index_t) : bool := Z.testbit (_filters k) (value i).

(** [set] *)
Definition set (i : index_t) (k : t) : failure + t :=
  if value SIZE <=? value i then inl OutOfRange
  else if Z.testbit (_filters k) (value i) then inl SettingFilterTwice
  else inr (mk (Z.setbit (_filters k) (value i))).

(** one turn of the loop of [write]: the text so far and [is_sep] *)
Definition writeTurn (k : t) (st : failure + string * bool) (i : Z) : failure + string * bool :=
  match st with
  | inl f => inl f
  | inr (os, is_sep) =>
      if negb (Z.testbit (_filters k) i) then inr (os, is_sep)
      else
        let os1 := if is_sep then os +:+ ";" else os in
        match get_label i with
        | Some label => inr (os1 +:+ label, true)
        | None => inl UnknownFilterId
        end
  end.

(** [write]: the text sent to the stream *)
Definition write (k : t) : failure + string :=
  if _filters k =? 0 then inr "PASS"
  else
    match foldl (writeTurn k) (inr ("", false)) (seqZ 0 (value SIZE)) with
    | inl f => inl f
    | inr (os, _) => inr os
    end.

(** the calls [set(i)] for the filters of a list, one after the other *)
Definition setEach (l : list index_t) (k : t) : failure + t :=
  foldl (λ r i, match r with inl f => inl f | inr k => set i k end) (inr k) l.

(** the labels of the filters of a list that are set, joined by semicolons *)
Definition joinedLabels (k : t) : string :=
  String.concat ";"
    (omap (λ i, if test k i then get_label (value i) else None) filters).

End strelka_filter_keeper.

(** the labels after the first one, each behind its semicolon *)
Fixpoint behindSemicolons (labels : list string) : string :=
  match labels with
  | [] => ""
  | label :: rest => ";" +:+ label +:+ behindSemicolons rest
  end.

(** * Properties *)

(** ** Machine addition *)

Lemma add64_comm (a b : Z) : add64 a b = add64 b a.
Proof. unfold add64. by rewrite Z.add_comm. Qed.

Lemma add64_assoc (a b c : Z) : add64 (add64 a b) c = add64 a (add64 b c).
Proof.
  unfold add64.
  rewrite Zplus_mod_idemp_l, Zplus_mod_idemp_r. by rewrite Z.add_assoc.
Qed.

Lemma add32_comm (a b : Z) : add32 a b = add32 b a.
Proof. unfold add32. by rewrite Z.add_comm. Qed.

Lemma add32_range (a b : Z) : 0 ≤ add32 a b < UINT32_MOD.
Proof. unfold add32. apply Z.mod_pos_bound. by compute. Qed.

Lemma add32_0_l (a : Z) : 0 ≤ a < UINT32_MOD → add32 0 a = a.
Proof. intros Ha. unfold add32. rewrite Z.add_0_l. by apply Z.mod_small. Qed.

Lemma add32_0_r (a : Z) : 0 ≤ a < UINT32_MOD → add32 a 0 = a.
Proof. intros Ha. rewrite add32_comm. by apply add32_0_l. Qed.

(** ** Merging count maps *)

Section MergeMaps.
Context `{Countable K}.
Implicit Types m : gmap K Z.

Lemma lookup_mergeMapKeys add m1 m2 (k : K) :
  mergeMapKeys add m1 m2 !! k
  = union_with (λ v2 v1, Some (add v2 v1)) (m2 !! k) (m1 !! k).
Proof. unfold mergeMapKeys. apply lookup_union_with. Qed.

Lemma mergeMapKeys_comm m1 m2 :
  mergeMapKeys add64 m1 m2 = mergeMapKeys add64 m2 m1.
Proof.
  apply map_eq. intros k. rewrite !lookup_mergeMapKeys.
  destruct (m1 !! k), (m2 !! k); simpl; try done.
  by rewrite add64_comm.
Qed.

Lemma mergeMapKeys_assoc m1 m2 m3 :
  mergeMapKeys add64 m3 (mergeMapKeys add64 m2 m1)
  = mergeMapKeys add64 (mergeMapKeys add64 m3 m2) m1.
Proof.
  apply map_eq. intros k. rewrite !lookup_mergeMapKeys.
  destruct (m1 !! k), (m2 !! k), (m3 !! k); simpl; try done.
  by rewrite add64_assoc.
Qed.
End MergeMaps.

Lemma ObservationData_merge_comm (a b : BasecallErrorContextObservationData.t) :
  BasecallErrorContextObservationData.merge a b
  = BasecallErrorContextObservationData.merge b a.
Proof.
  unfold BasecallErrorContextObservationData.merge.
  f_equal; apply mergeMapKeys_comm.
Qed.

Lemma ObservationData_merge_assoc (a b c : BasecallErrorContextObservationData.t) :
  BasecallErrorContextObservationData.merge (BasecallErrorContextObservationData.merge a b) c
  = BasecallErrorContextObservationData.merge a (BasecallErrorContextObservationData.merge b c).
Proof.
  unfold BasecallErrorContextObservationData.merge. simpl.
  f_equal; apply mergeMapKeys_assoc.
Qed.

Lemma BasecallErrorData_merge_comm (a b : BasecallErrorData.t) :
  BasecallErrorData.merge a b = BasecallErrorData.merge b a.
Proof.
  unfold BasecallErrorData.merge.
  f_equal; auto using ObservationData_merge_comm, add64_comm.
Qed.

Lemma BasecallErrorData_merge_assoc (a b c : BasecallErrorData.t) :
  BasecallErrorData.merge (BasecallErrorData.merge a b) c
  = BasecallErrorData.merge a (BasecallErrorData.merge b c).
Proof.
  unfold BasecallErrorData.merge. simpl.
  f_equal; auto using ObservationData_merge_assoc, add64_assoc.
Qed.

Section MergeCounts.
Context {Ctx : Type} `{Countable Ctx}.
Implicit Types A B C : gmap Ctx BasecallErrorData.t.

Lemma lookup_mergeEntry (k k' : Ctx) (d : BasecallErrorData.t) A :
  BasecallErrorCounts.mergeEntry k d A !! k'
  = if decide (k = k') then BasecallErrorCounts.mergedEntry (A !! k) (Some d) else A !! k'.
Proof.
  unfold BasecallErrorCounts.mergeEntry, BasecallErrorCounts.mergedEntry.
  destruct (A !! k) as [x|] eqn:E; case_decide as Hk.
  all: try (subst k'; by rewrite lookup_insert_eq).
  all: by rewrite lookup_insert_ne.
Qed.

(** the loop of [merge] computes the union by context *)
Lemma lookup_merge A B (k : Ctx) :
  BasecallErrorCounts.merge A B !! k = BasecallErrorCounts.mergedEntry (A !! k) (B !! k).
Proof.
  unfold BasecallErrorCounts.merge. revert k.
  apply (map_fold_weak_ind
           (λ r m, ∀ k, r !! k = BasecallErrorCounts.mergedEntry (A !! k) (m !! k))).
  - intros k. rewrite lookup_empty. unfold BasecallErrorCounts.mergedEntry. by destruct (A !! k).
  - intros i x m r Hi IH k. rewrite lookup_mergeEntry.
    case_decide as Hk.
    + subst k. rewrite IH, Hi, lookup_insert_eq.
      unfold BasecallErrorCounts.mergedEntry. by destruct (A !! i).
    + by rewrite IH, lookup_insert_ne.
Qed.

Lemma mergedEntry_comm (a b : option BasecallErrorData.t) :
  BasecallErrorCounts.mergedEntry a b = BasecallErrorCounts.mergedEntry b a.
Proof.
  destruct a, b; simpl; try done. by rewrite BasecallErrorData_merge_comm.
Qed.

Lemma mergedEntry_assoc (a b c : option BasecallErrorData.t) :
  BasecallErrorCounts.mergedEntry (BasecallErrorCounts.mergedEntry a b) c = BasecallErrorCounts.mergedEntry a (BasecallErrorCounts.mergedEntry b c).
Proof.
  destruct a, b, c; simpl; try done. by rewrite BasecallErrorData_merge_assoc.
Qed.
End MergeCounts.

(** C1.  [merge] of the error-context aggregator is associative and
    commutative.  The merged table is the union by context key; where both
    sides have the context, the occurrence counts of the observation
    patterns, the reference counts of the quality levels and the four skip
    counters are added, a key that one side lacks counting as zero there.
    Equality is equality of all of these. *)
Theorem merge_associative_commutative {Ctx : Type} `{Countable Ctx}
    (A B C : gmap Ctx BasecallErrorData.t) :
  BasecallErrorCounts.merge (BasecallErrorCounts.merge A B) C
  = BasecallErrorCounts.merge A (BasecallErrorCounts.merge B C)
  ∧ BasecallErrorCounts.merge A B = BasecallErrorCounts.merge B A
  ∧ (∀ k : Ctx,
       BasecallErrorCounts.merge A B !! k
       = match A !! k, B !! k with
         | Some a, Some b => Some (BasecallErrorData.merge a b)
         | Some a, None => Some a
         | None, ob => ob
         end)
  ∧ (∀ (a b : BasecallErrorData.t),
       let ab := BasecallErrorData.merge a b in
       (∀ pattern,
          BasecallErrorContextObservationData.data (BasecallErrorData.counts ab) !! pattern
          = match BasecallErrorContextObservationData.data (BasecallErrorData.counts a) !! pattern,
                  BasecallErrorContextObservationData.data (BasecallErrorData.counts b) !! pattern with
            | Some x, Some y => Some (add64 x y)
            | Some x, None => Some x
            | None, oy => oy
            end)
       ∧ (∀ qual : Z,
          BasecallErrorContextObservationData.refAlleleBasecallErrorPhredProbs
            (BasecallErrorData.counts ab) !! qual
          = match BasecallErrorContextObservationData.refAlleleBasecallErrorPhredProbs
                    (BasecallErrorData.counts a) !! qual,
                  BasecallErrorContextObservationData.refAlleleBasecallErrorPhredProbs
                    (BasecallErrorData.counts b) !! qual with
            | Some x, Some y => Some (add64 x y)
            | Some x, None => Some x
            | None, oy => oy
            end)
       ∧ BasecallErrorData.excludedRegionSkipped ab
         = add64 (BasecallErrorData.excludedRegionSkipped a) (BasecallErrorData.excludedRegionSkipped b)
       ∧ BasecallErrorData.depthSkipped ab
         = add64 (BasecallErrorData.depthSkipped a) (BasecallErrorData.depthSkipped b)
       ∧ BasecallErrorData.emptySkipped ab
         = add64 (BasecallErrorData.emptySkipped a) (BasecallErrorData.emptySkipped b)
       ∧ BasecallErrorData.noiseSkipped ab
         = add64 (BasecallErrorData.noiseSkipped a) (BasecallErrorData.noiseSkipped b)).
Proof.
  split_and!.
  - apply map_eq. intros k. rewrite !lookup_merge. apply mergedEntry_assoc.
  - apply map_eq. intros k. rewrite !lookup_merge. apply mergedEntry_comm.
  - intros k. rewrite lookup_merge. unfold BasecallErrorCounts.mergedEntry.
    by destruct (A !! k), (B !! k).
  - intros a b ab. subst ab. simpl. split_and!; try done.
    + intros pattern. rewrite lookup_mergeMapKeys.
      by destruct (_ !! pattern), (_ !! pattern).
    + intros qual. rewrite lookup_mergeMapKeys.
      by destruct (_ !! qual), (_ !! qual).
Qed.

(** two partitions that both saw context 1, and one that saw context 2 *)
Example merge_two_partitions :
  let d (n skipped : Z) :=
    BasecallErrorData.mk
      (BasecallErrorContextObservationData.mk ∅ {[ 30 := 36 * n ]}) skipped 0 0 0 in
  BasecallErrorCounts.merge ({[ 1 := d 2 5 ]} : gmap Z BasecallErrorData.t)
                            {[ 1 := d 3 1; 2 := d 1 0 ]}
  = {[ 1 := d 5 6; 2 := d 1 0 ]}.
Proof. by vm_compute. Qed.

(** a pattern counted twice on one side and three times on the other *)
Example merge_pattern_counts (pattern : BasecallErrorContextObservation.t) :
  mergeMapKeys add64 ({[ pattern := 2 ]} : gmap BasecallErrorContextObservation.t Z)
                     {[ pattern := 3 ]} !! pattern
  = Some 5.
Proof. rewrite lookup_mergeMapKeys, !lookup_singleton_eq. reflexivity. Qed.

(** ** The truncating compressor and the order by reference count are instances *)

Lemma clearLow_eq (x s : Z) : 0 ≤ s → Z.shiftl (Z.shiftr x s) s = x - x mod 2 ^ s.
Proof.
  intros Hs. rewrite Z.shiftl_mul_pow2, Z.shiftr_div_pow2 by done.
  assert (0 < 2 ^ s) by (apply Z.pow_pos_nonneg; lia).
  pose proof (Z.div_mod x (2 ^ s)). lia.
Qed.

Lemma truncateToBits_zero b : truncateToBits 0 b = 0.
Proof.
  unfold truncateToBits. case_match; [done|].
  simpl. by rewrite Z.shiftr_0_l, Z.shiftl_0_l.
Qed.

Lemma truncate_shift_pos x b : ¬ (x < 2 ^ b) → 0 ≤ x → 0 < Z.log2 x + 1 - b.
Proof.
  intros Hx H0.
  destruct (decide (b < 0)) as [Hb|Hb].
  - pose proof (Z.log2_nonneg x). lia.
  - assert (2 ^ b ≤ x) by lia.
    assert (0 < x) by (pose proof (Z.pow_pos_nonneg 2 b); lia).
    assert (b ≤ Z.log2 x) by (apply Z.log2_le_pow2; lia). lia.
Qed.

Lemma truncateToBits_range x b : 0 ≤ x < UINT32_MOD → 0 ≤ truncateToBits x b < UINT32_MOD.
Proof.
  intros Hx. unfold truncateToBits. case_match eqn:E; [done|].
  apply Z.ltb_ge in E.
  assert (0 < Z.log2 x + 1 - b) by (apply truncate_shift_pos; lia).
  rewrite clearLow_eq by lia.
  pose proof (Z.mod_pos_bound x (2 ^ (Z.log2 x + 1 - b))
                ltac:(apply Z.pow_pos_nonneg; lia)).
  assert (x mod 2 ^ (Z.log2 x + 1 - b) ≤ x)
    by (apply Z.mod_le; [lia|apply Z.pow_pos_nonneg; lia]).
  lia.
Qed.

Lemma truncateToBits_idem x b : truncateToBits (truncateToBits x b) b = truncateToBits x b.
Proof.
  unfold truncateToBits at 2 3. case_match eqn:E.
  { unfold truncateToBits. by rewrite E. }
  apply Z.ltb_ge in E.
  destruct (decide (x < 0)) as [Hneg|Hnn].
  { pose proof (Z.pow_nonneg 2 b). lia. }
  set (s := Z.log2 x + 1 - b).
  assert (Hs : 0 < s) by (apply truncate_shift_pos; lia).
  rewrite clearLow_eq by lia.
  set (y := x - x mod 2 ^ s).
  assert (H2s : 0 < 2 ^ s) by (apply Z.pow_pos_nonneg; lia).
  assert (Hy0 : y mod 2 ^ s = 0).
  { unfold y. rewrite Zminus_mod, Z.mod_mod, Z.sub_diag by lia. apply Z.mod_0_l. lia. }
  destruct (decide (b ≤ 0)) as [Hb|Hb].
  - (* the shift exceeds the length of [x]: every bit is cleared *)
    assert (x < 2 ^ s).
    { destruct (decide (x = 0)) as [->|]; [lia|].
      pose proof (Z.log2_spec x ltac:(lia)) as [_ Hlt].
      eapply Z.lt_le_trans; [exact Hlt|]. apply Z.pow_le_mono_r; lia. }
    assert (y = 0) as -> by (unfold y; rewrite Z.mod_small; lia).
    apply truncateToBits_zero.
  - (* the highest bit stays, so the shift is the same the second time *)
    assert (0 < x) by (pose proof (Z.pow_pos_nonneg 2 b); lia).
    pose proof (Z.log2_spec x ltac:(lia)) as [Hlo Hhi].
    assert (Hb' : b ≤ Z.log2 x) by (apply Z.log2_le_pow2; lia).
    assert (Hmul : (2 ^ Z.log2 x) mod 2 ^ s = 0).
    { replace (Z.log2 x) with ((Z.log2 x - s) + s) at 1 by lia.
      rewrite Z.pow_add_r by (unfold s; lia). apply Z.mod_mul. lia. }
    assert (Hyx : y ≤ x).
    { unfold y. pose proof (Z.mod_pos_bound x (2 ^ s) H2s). lia. }
    assert (Hylo : 2 ^ Z.log2 x ≤ y).
    { unfold y.
      pose proof (Z.div_mod x (2 ^ s) ltac:(lia)).
      pose proof (Z.div_mod (2 ^ Z.log2 x) (2 ^ s) ltac:(lia)).
      assert (2 ^ Z.log2 x / 2 ^ s ≤ x / 2 ^ s) by (apply Z.div_le_mono; lia).
      nia. }
    assert (Hlog : Z.log2 y = Z.log2 x).
    { apply Z.log2_unique; [apply Z.log2_nonneg|]. split; [done|]. lia. }
    unfold truncateToBits.
    assert (2 ^ b ≤ y).
    { etrans; [|exact Hylo]. apply Z.pow_le_mono_r; lia. }
    destruct (y <? 2 ^ b) eqn:E2; [apply Z.ltb_lt in E2; lia|].
    rewrite Hlog. fold s. rewrite clearLow_eq by lia. rewrite Hy0. lia.
Qed.

Lemma truncatingCompressor_laws : @IntegerLogCompressorLaws truncatingCompressor.
Proof.
  split.
  - apply truncateToBits_idem.
  - apply truncateToBits_zero.
  - apply truncateToBits_range.
Qed.

Lemma lex_ltb_asym l1 l2 : lex_ltb l1 l2 = true → lex_ltb l2 l1 = false.
Proof.
  revert l2. induction l1 as [|[k1 v1] r1 IH]; intros [|[k2 v2] r2]; simpl; try done.
  repeat case_match; try done; try lia; auto.
Qed.

Lemma lex_ltb_total l1 l2 : lex_ltb l1 l2 = false → lex_ltb l2 l1 = false → l1 = l2.
Proof.
  revert l2. induction l1 as [|[k1 v1] r1 IH]; intros [|[k2 v2] r2]; simpl; try done.
  repeat case_match; try done; try lia.
  intros. assert (k1 = k2) by lia. assert (v1 = v2) by lia. subst. f_equal. auto.
Qed.

Lemma refThenAltOrder_laws : @StrandOrderLaws refThenAltOrder.
Proof.
  split.
  - intros [ra aa] [rb ab]. unfold strand_lt, refThenAltOrder, refThenAlt. simpl.
    repeat case_match; try done; try lia. apply lex_ltb_asym.
  - intros [ra aa] [rb ab]. unfold strand_lt, refThenAltOrder, refThenAlt. simpl.
    repeat case_match; try done; try lia.
    intros H1 H2. assert (ra = rb) as -> by lia.
    f_equal. apply map_to_list_inj. by rewrite (lex_ltb_total _ _ H1 H2).
Qed.

Lemma refThenAltOrder_ref_first : @StrandOrderRefFirst refThenAltOrder.
Proof.
  intros [ra aa] [rb ab] _. unfold strand_lt, refThenAltOrder, refThenAlt. simpl.
  repeat case_match; try done; lia.
Qed.

(** ** Canonical observation patterns *)

Section CompressCounts.
Context `{IntegerLogCompressor} `{StrandOrder}.
Implicit Types (s : StrandBasecallCounts.t) (o : BasecallErrorContextObservation.t).

Lemma strand_compressCounts_idem `{!IntegerLogCompressorLaws} s :
  StrandBasecallCounts.compressCounts (StrandBasecallCounts.compressCounts s)
  = StrandBasecallCounts.compressCounts s.
Proof.
  unfold StrandBasecallCounts.compressCounts. simpl. f_equal.
  - apply compressInt_idem.
  - rewrite <- map_fmap_compose. apply map_fmap_ext.
    intros k v _. simpl. apply compressInt_idem.
Qed.

Lemma strand_compressCounts_alt_empty s :
  StrandBasecallCounts.altAlleleCount (StrandBasecallCounts.compressCounts s) = ∅
  ↔ StrandBasecallCounts.altAlleleCount s = ∅.
Proof. simpl. apply fmap_empty_iff. Qed.

Lemma noAlts_spec o :
  BasecallErrorContextObservation.noAlts o = true
  ↔ StrandBasecallCounts.altAlleleCount (BasecallErrorContextObservation.strand0 o) = ∅
    ∧ StrandBasecallCounts.altAlleleCount (BasecallErrorContextObservation.strand1 o) = ∅.
Proof.
  unfold BasecallErrorContextObservation.noAlts.
  rewrite andb_true_iff, !bool_decide_eq_true. done.
Qed.

Lemma noAlts_mk s0 s1 :
  BasecallErrorContextObservation.noAlts (BasecallErrorContextObservation.mk s0 s1)
  = BasecallErrorContextObservation.noAlts (BasecallErrorContextObservation.mk s1 s0).
Proof. unfold BasecallErrorContextObservation.noAlts. simpl. apply andb_comm. Qed.

Lemma larger_first_swap `{!StrandOrderLaws} s0 s1 :
  larger_first s1 s0 = larger_first s0 s1.
Proof.
  unfold larger_first.
  destruct (strand_lt s0 s1) eqn:E01.
  - by rewrite (strand_lt_asym _ _ E01).
  - destruct (strand_lt s1 s0) eqn:E10; [done|].
    by rewrite (strand_lt_total _ _ E01 E10).
Qed.

Lemma larger_first_ordered `{!StrandOrderLaws} s0 s1 :
  strand_lt (BasecallErrorContextObservation.strand0 (larger_first s0 s1))
            (BasecallErrorContextObservation.strand1 (larger_first s0 s1)) = false.
Proof.
  unfold larger_first. destruct (strand_lt s0 s1) eqn:E; simpl; [|done].
  by apply strand_lt_asym.
Qed.

Lemma larger_first_again `{!StrandOrderLaws} s0 s1 :
  larger_first (BasecallErrorContextObservation.strand0 (larger_first s0 s1))
               (BasecallErrorContextObservation.strand1 (larger_first s0 s1))
  = larger_first s0 s1.
Proof.
  pose proof (larger_first_ordered s0 s1) as Hord.
  unfold larger_first at 1. rewrite Hord. by destruct (larger_first s0 s1).
Qed.

Lemma compressCounts_noAlts o :
  BasecallErrorContextObservation.noAlts o = true →
  BasecallErrorContextObservation.compressCounts o
  = larger_first
      (StrandBasecallCounts.mk
         (compressInt (add32 (StrandBasecallCounts.refAlleleCount
                                (BasecallErrorContextObservation.strand0 o))
                             (StrandBasecallCounts.refAlleleCount
                                (BasecallErrorContextObservation.strand1 o))) 4) ∅)
      (StrandBasecallCounts.mk (compressInt 0 4) ∅).
Proof.
  intros Hno. pose proof Hno as [Ha0 Ha1]%noAlts_spec.
  unfold BasecallErrorContextObservation.compressCounts,
    BasecallErrorContextObservation.sumToStrand0.
  rewrite Hno. unfold StrandBasecallCounts.compressCounts. simpl.
  rewrite Ha0, Ha1, !fmap_empty. done.
Qed.

Lemma compressCounts_alts o :
  BasecallErrorContextObservation.noAlts o = false →
  BasecallErrorContextObservation.compressCounts o
  = larger_first
      (StrandBasecallCounts.compressCounts (BasecallErrorContextObservation.strand0 o))
      (StrandBasecallCounts.compressCounts (BasecallErrorContextObservation.strand1 o)).
Proof.
  intros Hno.
  unfold BasecallErrorContextObservation.compressCounts,
    BasecallErrorContextObservation.sumToStrand0.
  by rewrite Hno.
Qed.

Lemma noAlts_larger_first s0 s1 :
  BasecallErrorContextObservation.noAlts (larger_first s0 s1)
  = BasecallErrorContextObservation.noAlts (BasecallErrorContextObservation.mk s0 s1).
Proof. unfold larger_first. destruct (strand_lt s0 s1); [apply noAlts_mk|done]. Qed.

Lemma noAlts_compressed s0 s1 :
  BasecallErrorContextObservation.noAlts
    (BasecallErrorContextObservation.mk (StrandBasecallCounts.compressCounts s0)
                                        (StrandBasecallCounts.compressCounts s1))
  = BasecallErrorContextObservation.noAlts (BasecallErrorContextObservation.mk s0 s1).
Proof.
  apply eq_true_iff_eq. rewrite !noAlts_spec. simpl.
  by rewrite !fmap_empty_iff.
Qed.

Lemma compressCounts_idem `{!IntegerLogCompressorLaws} `{!StrandOrderLaws} o :
  BasecallErrorContextObservation.compressCounts
    (BasecallErrorContextObservation.compressCounts o)
  = BasecallErrorContextObservation.compressCounts o.
Proof.
  destruct (BasecallErrorContextObservation.noAlts o) eqn:Hno.
  - rewrite (compressCounts_noAlts o Hno).
    set (total := add32 _ _).
    assert (Hrange : 0 ≤ compressInt total 4 < UINT32_MOD)
      by (apply compressInt_range, add32_range).
    rewrite compressInt_zero.
    set (a := StrandBasecallCounts.mk (compressInt total 4) ∅).
    set (z := StrandBasecallCounts.mk 0 ∅).
    assert (Hno' : BasecallErrorContextObservation.noAlts (larger_first a z) = true).
    { rewrite noAlts_larger_first. by apply noAlts_spec. }
    rewrite (compressCounts_noAlts _ Hno'), compressInt_zero.
    assert (add32 (StrandBasecallCounts.refAlleleCount
                     (BasecallErrorContextObservation.strand0 (larger_first a z)))
                  (StrandBasecallCounts.refAlleleCount
                     (BasecallErrorContextObservation.strand1 (larger_first a z)))
            = compressInt total 4) as ->.
    { unfold larger_first. destruct (strand_lt a z); simpl.
      - by apply add32_0_l.
      - by apply add32_0_r. }
    by rewrite compressInt_idem.
  - rewrite (compressCounts_alts o Hno).
    set (a := StrandBasecallCounts.compressCounts _).
    set (b := StrandBasecallCounts.compressCounts _).
    assert (Hno' : BasecallErrorContextObservation.noAlts (larger_first a b) = false).
    { rewrite noAlts_larger_first. unfold a, b. rewrite noAlts_compressed.
      by destruct o. }
    rewrite (compressCounts_alts _ Hno').
    assert (Hidem : ∀ x y,
              StrandBasecallCounts.compressCounts
                (BasecallErrorContextObservation.strand0 (larger_first
                   (StrandBasecallCounts.compressCounts x)
                   (StrandBasecallCounts.compressCounts y)))
              = BasecallErrorContextObservation.strand0 (larger_first
                   (StrandBasecallCounts.compressCounts x)
                   (StrandBasecallCounts.compressCounts y))
              ∧ StrandBasecallCounts.compressCounts
                (BasecallErrorContextObservation.strand1 (larger_first
                   (StrandBasecallCounts.compressCounts x)
                   (StrandBasecallCounts.compressCounts y)))
              = BasecallErrorContextObservation.strand1 (larger_first
                   (StrandBasecallCounts.compressCounts x)
                   (StrandBasecallCounts.compressCounts y))).
    { intros x y. unfold larger_first.
      destruct (strand_lt _ _); simpl; split; apply strand_compressCounts_idem. }
    unfold a, b. destruct (Hidem (BasecallErrorContextObservation.strand0 o)
                                 (BasecallErrorContextObservation.strand1 o)) as [-> ->].
    apply larger_first_again.
Qed.

Lemma compressCounts_swapStrands `{!StrandOrderLaws} o :
  BasecallErrorContextObservation.compressCounts
    (BasecallErrorContextObservation.swapStrands o)
  = BasecallErrorContextObservation.compressCounts o.
Proof.
  destruct o as [s0 s1]. unfold BasecallErrorContextObservation.swapStrands. simpl.
  destruct (BasecallErrorContextObservation.noAlts
              (BasecallErrorContextObservation.mk s0 s1)) eqn:Hno.
  - rewrite (compressCounts_noAlts _ Hno).
    rewrite noAlts_mk in Hno. rewrite (compressCounts_noAlts _ Hno). simpl.
    by rewrite add32_comm.
  - rewrite (compressCounts_alts _ Hno).
    rewrite noAlts_mk in Hno. rewrite (compressCounts_alts _ Hno). simpl.
    apply larger_first_swap.
Qed.

Lemma compressCounts_ordered `{!StrandOrderLaws} o :
  strand_lt
    (BasecallErrorContextObservation.strand0 (BasecallErrorContextObservation.compressCounts o))
    (BasecallErrorContextObservation.strand1 (BasecallErrorContextObservation.compressCounts o))
  = false.
Proof.
  destruct (BasecallErrorContextObservation.noAlts o) eqn:Hno.
  - rewrite (compressCounts_noAlts o Hno). apply larger_first_ordered.
  - rewrite (compressCounts_alts o Hno). apply larger_first_ordered.
Qed.

(** without alt calls the summed strand is never the smaller one *)
Lemma larger_first_sum_zero `{!IntegerLogCompressorLaws} `{!StrandOrderLaws}
    `{!StrandOrderRefFirst} (total : Z) :
  0 ≤ total < UINT32_MOD →
  larger_first (StrandBasecallCounts.mk (compressInt total 4) ∅)
               (StrandBasecallCounts.mk (compressInt 0 4) ∅)
  = BasecallErrorContextObservation.mk
      (StrandBasecallCounts.mk (compressInt total 4) ∅) (StrandBasecallCounts.mk 0 ∅).
Proof.
  intros Htotal. rewrite compressInt_zero. unfold larger_first.
  destruct (strand_lt _ _) eqn:E; [|done].
  apply strand_lt_ref in E as Hle; [|done]. simpl in Hle.
  pose proof (compressInt_range total 4 Htotal).
  assert (compressInt total 4 = 0) as Hz by lia.
  rewrite Hz in E. by rewrite (strand_lt_asym _ _ E) in E.
Qed.
End CompressCounts.

(** C6.  Canonicalization of an observation pattern ([compressCounts] on the
    pair of strands) is idempotent, it gives the same pattern when the two
    strands of the input are exchanged first, and in every canonical pattern
    [strand0] is not below [strand1] in the ordering of the strand counts.
    [compressInt] and the ordering are the parameters described by
    [IntegerLogCompressorLaws] and [StrandOrderLaws]. *)
Theorem compressCounts_canonical `{IntegerLogCompressor} `{StrandOrder}
    (compressorLaws : IntegerLogCompressorLaws) (orderLaws : StrandOrderLaws)
    (o : BasecallErrorContextObservation.t) :
  BasecallErrorContextObservation.compressCounts
    (BasecallErrorContextObservation.compressCounts o)
  = BasecallErrorContextObservation.compressCounts o
  ∧ BasecallErrorContextObservation.compressCounts
      (BasecallErrorContextObservation.swapStrands o)
    = BasecallErrorContextObservation.compressCounts o
  ∧ strand_lt
      (BasecallErrorContextObservation.strand0 (BasecallErrorContextObservation.compressCounts o))
      (BasecallErrorContextObservation.strand1 (BasecallErrorContextObservation.compressCounts o))
    = false.
Proof.
  split_and!.
  - apply compressCounts_idem.
  - apply compressCounts_swapStrands.
  - apply compressCounts_ordered.
Qed.

Lemma compressCounts_canonical_witness :
  @IntegerLogCompressorLaws truncatingCompressor
  ∧ @StrandOrderLaws refThenAltOrder
  ∧ (let o := BasecallErrorContextObservationData.rawObservation Scenario.altSite in
     @BasecallErrorContextObservation.compressCounts truncatingCompressor refThenAltOrder
       (@BasecallErrorContextObservation.compressCounts truncatingCompressor refThenAltOrder o)
     = @BasecallErrorContextObservation.compressCounts truncatingCompressor refThenAltOrder o
     ∧ @BasecallErrorContextObservation.compressCounts truncatingCompressor refThenAltOrder
         (BasecallErrorContextObservation.swapStrands o)
       = @BasecallErrorContextObservation.compressCounts truncatingCompressor refThenAltOrder o
     ∧ @strand_lt refThenAltOrder
         (BasecallErrorContextObservation.strand0
            (@BasecallErrorContextObservation.compressCounts truncatingCompressor refThenAltOrder o))
         (BasecallErrorContextObservation.strand1
            (@BasecallErrorContextObservation.compressCounts truncatingCompressor refThenAltOrder o))
       = false).
Proof.
  split; [exact truncatingCompressor_laws|].
  split; [exact refThenAltOrder_laws|].
  exact (@compressCounts_canonical truncatingCompressor refThenAltOrder
           truncatingCompressor_laws refThenAltOrder_laws
           (BasecallErrorContextObservationData.rawObservation Scenario.altSite)).
Defined.

(** C7.  [addSiteObservation] counts the pattern [compressedObservation obs].
    When no strand of the site has an alt entry, the reference counts of the
    two strands are added up into [strand0] and reduced to 4 significant bits,
    and [strand1] has the reference count zero.  When a strand has an alt
    entry, each strand keeps its own reference count, reduced to 4 significant
    bits, and the two strands are put in canonical order. *)
Theorem addObservation_reference_counts `{IntegerLogCompressor} `{StrandOrder}
    (compressorLaws : IntegerLogCompressorLaws) (orderLaws : StrandOrderLaws)
    (refFirst : StrandOrderRefFirst)
    (obs : BasecallErrorContextInputObservation.t)
    (this : BasecallErrorContextObservationData.t) :
  let ref := BasecallErrorContextInputObservation.ref obs in
  let alt := BasecallErrorContextInputObservation.alt obs in
  let ref0 := BasecallErrorContextObservationData.sumCounts ref.1 in
  let ref1 := BasecallErrorContextObservationData.sumCounts ref.2 in
  let pattern := BasecallErrorContextObservationData.compressedObservation obs in
  let s0 := StrandBasecallCounts.mk (compressInt ref0 4) ((λ v, compressInt v 4) <$> alt.1) in
  let s1 := StrandBasecallCounts.mk (compressInt ref1 4) ((λ v, compressInt v 4) <$> alt.2) in
  BasecallErrorContextObservationData.data
    (BasecallErrorContextObservationData.addObservation obs this)
  = iterateMapValue add64 (BasecallErrorContextObservationData.data this) pattern 1
  ∧ (alt.1 = ∅ ∧ alt.2 = ∅ →
       pattern = BasecallErrorContextObservation.mk
                   (StrandBasecallCounts.mk (compressInt (add32 ref0 ref1) 4) ∅)
                   (StrandBasecallCounts.mk 0 ∅))
  ∧ (¬ (alt.1 = ∅ ∧ alt.2 = ∅) →
       pattern = larger_first s0 s1
       ∧ (pattern = BasecallErrorContextObservation.mk s0 s1
          ∨ pattern = BasecallErrorContextObservation.mk s1 s0)).
Proof.
  intros ref alt ref0 ref1 pattern s0 s1. split_and!.
  - done.
  - intros [Ha0 Ha1].
    assert (Hno : BasecallErrorContextObservation.noAlts
                    (BasecallErrorContextObservationData.rawObservation obs) = true).
    { apply noAlts_spec. simpl. done. }
    unfold pattern, BasecallErrorContextObservationData.compressedObservation.
    rewrite (compressCounts_noAlts _ Hno). simpl.
    apply larger_first_sum_zero, add32_range.
  - intros Halt.
    assert (Hno : BasecallErrorContextObservation.noAlts
                    (BasecallErrorContextObservationData.rawObservation obs) = false).
    { apply not_true_is_false. intros Hno%noAlts_spec. simpl in Hno. done. }
    assert (Hp : pattern = larger_first s0 s1).
    { unfold pattern, BasecallErrorContextObservationData.compressedObservation.
      by rewrite (compressCounts_alts _ Hno). }
    split; [done|]. rewrite Hp. unfold larger_first.
    destruct (strand_lt s0 s1); auto.
Qed.

Lemma addObservation_reference_counts_witness :
  let obs := Scenario.referenceOnlySite in
  BasecallErrorContextInputObservation.alt obs = (∅, ∅)
  ∧ @BasecallErrorContextObservationData.compressedObservation
      truncatingCompressor refThenAltOrder obs
    = BasecallErrorContextObservation.mk
        (StrandBasecallCounts.mk
           (truncateToBits
              (add32 (BasecallErrorContextObservationData.sumCounts
                        (BasecallErrorContextInputObservation.ref obs).1)
                     (BasecallErrorContextObservationData.sumCounts
                        (BasecallErrorContextInputObservation.ref obs).2)) 4) ∅)
        (StrandBasecallCounts.mk 0 ∅).
Proof.
  split; [reflexivity|].
  apply (@addObservation_reference_counts truncatingCompressor refThenAltOrder
           truncatingCompressor_laws refThenAltOrder_laws refThenAltOrder_ref_first
           Scenario.referenceOnlySite BasecallErrorContextObservationData.empty).
  split; reflexivity.
Defined.

(** the two sites of [Scenario], with truncation and the order by reference
    count: 23 + 14 reference calls become 36, and the strand with 33 reference
    calls, reduced to 32, comes first *)
Example compressedObservation_reference_only_site :
  @BasecallErrorContextObservationData.compressedObservation
    truncatingCompressor refThenAltOrder Scenario.referenceOnlySite
  = BasecallErrorContextObservation.mk
      (StrandBasecallCounts.mk 36 ∅) (StrandBasecallCounts.mk 0 ∅).
Proof. by vm_compute. Qed.

Example compressedObservation_alt_site :
  @BasecallErrorContextObservationData.compressedObservation
    truncatingCompressor refThenAltOrder Scenario.altSite
  = BasecallErrorContextObservation.mk
      (StrandBasecallCounts.mk 32 {[20 := 1]}) (StrandBasecallCounts.mk 20 ∅).
Proof. by vm_compute. Qed.

(** ** Export of the counts *)

Section ExportData.
Implicit Types (qualIndex : gmap Z nat) (si : StrandBasecallCounts.t).

Lemma exportLevels_elem (this : BasecallErrorContextObservationData.t) (q : Z) :
  q ∈ BasecallErrorContextObservationData.exportLevels this
  ↔ is_Some (BasecallErrorContextObservationData.refAlleleBasecallErrorPhredProbs this !! q).
Proof.
  unfold BasecallErrorContextObservationData.exportLevels.
  rewrite merge_sort_Permutation, elem_of_elements. apply elem_of_dom.
Qed.

Lemma indexLevels_fold (l : list Z) qualIndex (out : list Z) :
  ∃ qualIndex',
    foldl (λ '(qualIndex, out) qual, (<[qual := length out]> qualIndex, out ++ [qual]))
          (qualIndex, out) l = (qualIndex', out ++ l)
    ∧ ∀ q, is_Some (qualIndex' !! q) ↔ is_Some (qualIndex !! q) ∨ q ∈ l.
Proof.
  revert qualIndex out. induction l as [|x l IH]; intros qualIndex out; simpl.
  - exists qualIndex. rewrite app_nil_r. split; [done|].
    intros q. rewrite elem_of_nil. tauto.
  - destruct (IH (<[x := length out]> qualIndex) (out ++ [x])) as (qi' & Hfold & Hdom).
    exists qi'. rewrite Hfold, <- app_assoc. split; [done|].
    intros q. rewrite Hdom, elem_of_cons, lookup_insert_is_Some.
    destruct (decide (x = q)) as [->|Hne]; intuition congruence.
Qed.

Lemma indexLevels_spec (l : list Z) :
  ∃ qualIndex,
    BasecallErrorContextObservationData.indexLevels l = (qualIndex, l)
    ∧ ∀ q, is_Some (qualIndex !! q) ↔ q ∈ l.
Proof.
  destruct (indexLevels_fold l ∅ []) as (qi & Hfold & Hdom).
  exists qi. split; [exact Hfold|].
  intros q. rewrite Hdom, lookup_empty, is_Some_alt. tauto.
Qed.

(** the loop of [strand2ExportStrand] ends well exactly when every alt
    level has an index; otherwise it dereferences [qualIndex.end()] *)
Lemma strand2ExportStrand_cases (levelCount : nat) qualIndex si :
  (covered qualIndex (StrandBasecallCounts.altAlleleCount si)
   ∧ ∃ se, BasecallErrorContextObservationData.strand2ExportStrand levelCount qualIndex si
           = Done se)
  ∨ (¬ covered qualIndex (StrandBasecallCounts.altAlleleCount si)
     ∧ BasecallErrorContextObservationData.strand2ExportStrand levelCount qualIndex si
       = EndIteratorDereferenced).
Proof.
  unfold BasecallErrorContextObservationData.strand2ExportStrand.
  match goal with |- context [map_fold ?f ?b _] =>
    assert (Hfold : (covered qualIndex (StrandBasecallCounts.altAlleleCount si)
                     ∧ ∃ l, map_fold f b (StrandBasecallCounts.altAlleleCount si) = Done l)
                    ∨ (¬ covered qualIndex (StrandBasecallCounts.altAlleleCount si)
                       ∧ map_fold f b (StrandBasecallCounts.altAlleleCount si)
                         = EndIteratorDereferenced));
    [ apply (map_fold_weak_ind
               (λ r m, (covered qualIndex m ∧ ∃ l, r = Done l)
                       ∨ (¬ covered qualIndex m ∧ r = EndIteratorDereferenced)) f b) | ]
  end.
  - left. split; [|eauto]. intros q. rewrite lookup_empty. by intros [? ?].
  - intros i x m r Hi [[Hcov [l ->]]|[Hncov ->]]; simpl.
    + destruct (qualIndex !! i) as [j|] eqn:Ei.
      * left. split; [|eauto]. intros q. rewrite lookup_insert_is_Some.
        intros [<-|[_ Hq]]; [by rewrite Ei|by apply Hcov].
      * right. split; [|done]. intros Hcov'.
        specialize (Hcov' i). rewrite lookup_insert_eq, Ei in Hcov'.
        by destruct Hcov' as [? ?]; [eauto|].
    + right. split; [|done]. intros Hcov'. apply Hncov.
      intros q Hq. apply Hcov'. rewrite lookup_insert_is_Some.
      destruct (decide (i = q)); [by left|by right].
  - destruct Hfold as [[Hcov [l ->]]|[Hncov ->]]; simpl; [left|right]; eauto.
Qed.

Lemma exportObservation_cases (levelCount : nat) qualIndex pattern count observations :
  (coveredPattern qualIndex pattern
   ∧ BasecallErrorContextObservationData.exportObservation
       levelCount qualIndex pattern count observations ≠ EndIteratorDereferenced)
  ∨ (¬ coveredPattern qualIndex pattern
     ∧ BasecallErrorContextObservationData.exportObservation
         levelCount qualIndex pattern count observations = EndIteratorDereferenced).
Proof.
  unfold BasecallErrorContextObservationData.exportObservation, coveredPattern,
    BasecallErrorContextObservation.getStrand0Counts,
    BasecallErrorContextObservation.getStrand1Counts.
  destruct (strand2ExportStrand_cases levelCount qualIndex
              (BasecallErrorContextObservation.strand0 pattern))
    as [[Hc0 [e0 ->]]|[Hn0 ->]]; simpl; [|right; split; [tauto|done]].
  destruct (strand2ExportStrand_cases levelCount qualIndex
              (BasecallErrorContextObservation.strand1 pattern))
    as [[Hc1 [e1 ->]]|[Hn1 ->]]; simpl; [|right; split; [tauto|done]].
  left. split; [done|]. by case_match.
Qed.

(** the loop over [data]: a result is only produced when every pattern is
    covered, and when every pattern is covered no end iterator is
    dereferenced *)
Lemma exportLoop_cases (levelCount : nat) qualIndex
    (data : gmap BasecallErrorContextObservation.t Z) :
  let r := map_fold
             (λ pattern count acc,
                obs ← acc ;;;
                BasecallErrorContextObservationData.exportObservation
                  levelCount qualIndex pattern count obs)
             (Done ∅) data in
  ((∃ obs, r = Done obs) →
     ∀ pattern count, data !! pattern = Some count → coveredPattern qualIndex pattern)
  ∧ ((∀ pattern count, data !! pattern = Some count → coveredPattern qualIndex pattern) →
       r ≠ EndIteratorDereferenced).
Proof.
  simpl.
  apply (map_fold_weak_ind
           (λ r m,
              ((∃ obs, r = Done obs) →
                 ∀ pattern count, m !! pattern = Some count → coveredPattern qualIndex pattern)
              ∧ ((∀ pattern count, m !! pattern = Some count →
                    coveredPattern qualIndex pattern) →
                   r ≠ EndIteratorDereferenced))).
  - split; [|done]. intros _ pattern count. by rewrite lookup_empty.
  - intros i x m r Hi [IH1 IH2]. split.
    + intros [obs Hobs] pattern count Hlook.
      destruct r as [obs0| |]; simpl in Hobs; try done.
      destruct (decide (i = pattern)) as [<-|Hne].
      * destruct (exportObservation_cases levelCount qualIndex i x obs0)
          as [[Hc _]|[_ Hend]]; [done|congruence].
      * rewrite lookup_insert_ne in Hlook by done. eapply IH1; eauto.
    + intros Hall.
      assert (r ≠ EndIteratorDereferenced) as Hr.
      { apply IH2. intros pattern count Hlook. apply (Hall pattern count).
        rewrite lookup_insert_ne; [done|]. intros ->. congruence. }
      destruct r as [obs0| |]; simpl; try done.
      destruct (exportObservation_cases levelCount qualIndex i x obs0)
        as [[_ Hok]|[Hnc _]]; [done|].
      exfalso. apply Hnc, (Hall i x). apply lookup_insert_eq.
Qed.
End ExportData.

(** C10.  [getExportData] builds the exported list of quality levels, and the
    index of the levels, from the reference-allele counts alone.  The
    conversion of the alt counts looks every alt level up in that index and
    dereferences the result without a test: a level without an index
    dereferences the end iterator.  Hence the export only produces a result
    when every quality level in the alt counts of every aggregated pattern is
    also a level of the reference-allele counts; under that condition no end
    iterator is dereferenced. *)
Theorem getExportData_needs_reference_levels (this : BasecallErrorContextObservationData.t) :
  let refLevels := BasecallErrorContextObservationData.refAlleleBasecallErrorPhredProbs this in
  let everyAltLevelIsReferenceLevel :=
    ∀ pattern count,
      BasecallErrorContextObservationData.data this !! pattern = Some count →
      coveredPattern refLevels pattern in
  (∀ q, q ∈ BasecallErrorContextObservationData.exportLevels this ↔ is_Some (refLevels !! q))
  ∧ (∀ exportData,
       BasecallErrorContextObservationData.getExportData this = Done exportData →
       BasecallErrorContextObservationExportData.altAlleleBasecallErrorPhredProbLevels exportData
       = BasecallErrorContextObservationData.exportLevels this
       ∧ everyAltLevelIsReferenceLevel)
  ∧ (everyAltLevelIsReferenceLevel →
       BasecallErrorContextObservationData.getExportData this ≠ EndIteratorDereferenced)
  ∧ (∀ (levelCount : nat) (qualIndex : gmap Z nat) (si : StrandBasecallCounts.t) (q : Z),
       is_Some (StrandBasecallCounts.altAlleleCount si !! q) →
       qualIndex !! q = None →
       BasecallErrorContextObservationData.strand2ExportStrand levelCount qualIndex si
       = EndIteratorDereferenced).
Proof.
  intros refLevels everyAlt.
  destruct (indexLevels_spec (BasecallErrorContextObservationData.exportLevels this))
    as (qualIndex & Hindex & Hdom).
  assert (Hcov : ∀ pattern, coveredPattern qualIndex pattern ↔ coveredPattern refLevels pattern).
  { intros pattern. unfold coveredPattern, covered.
    split; intros [H0 H1]; split; intros q Hq.
    - apply exportLevels_elem, Hdom. by apply H0.
    - apply exportLevels_elem, Hdom. by apply H1.
    - apply Hdom, exportLevels_elem. by apply H0.
    - apply Hdom, exportLevels_elem. by apply H1. }
  pose proof (exportLoop_cases
                (length (BasecallErrorContextObservationData.exportLevels this)) qualIndex
                (BasecallErrorContextObservationData.data this)) as [Hloop1 Hloop2].
  split_and!.
  - apply exportLevels_elem.
  - intros exportData Hdone.
    unfold BasecallErrorContextObservationData.getExportData in Hdone.
    rewrite Hindex in Hdone.
    destruct (map_fold _ _ _) as [obs| |] eqn:Efold; simpl in Hdone; try done.
    injection Hdone as <-. split; [done|].
    intros pattern count Hlook. apply Hcov. eapply Hloop1; eauto.
  - intros Hall.
    unfold BasecallErrorContextObservationData.getExportData. rewrite Hindex.
    destruct (map_fold _ _ _) as [obs| |] eqn:Efold; simpl; try done.
    exfalso. apply Hloop2; [|done].
    intros pattern count Hlook. apply Hcov. eapply Hall; eauto.
  - intros levelCount qi si q Hq Hnone.
    destruct (strand2ExportStrand_cases levelCount qi si) as [[Hc _]|[_ Hend]]; [|done].
    specialize (Hc q Hq). rewrite Hnone in Hc. by destruct Hc.
Qed.

Lemma getExportData_needs_reference_levels_witness :
  BasecallErrorContextObservationData.getExportData Scenario.sharedLevels
  ≠ EndIteratorDereferenced.
Proof.
  apply (getExportData_needs_reference_levels Scenario.sharedLevels).
  intros pattern count Hlook. simpl in Hlook.
  apply lookup_singleton_Some in Hlook as [<- _].
  split; intros q; simpl.
  - rewrite lookup_singleton_is_Some. intros <-. by exists 5.
  - rewrite lookup_empty. by intros [? ?].
Defined.

(** an alt call at a level without reference call: the export runs into the
    unguarded lookup *)
Example getExportData_alt_only_level :
  BasecallErrorContextObservationData.getExportData Scenario.altOnlyLevel
  = EndIteratorDereferenced.
Proof. by vm_compute. Qed.

Example getExportData_shared_levels :
  match BasecallErrorContextObservationData.getExportData Scenario.sharedLevels with
  | Done e =>
      BasecallErrorContextObservationExportData.altAlleleBasecallErrorPhredProbLevels e = [20; 30]
      ∧ BasecallErrorContextObservationExportData.refCount e = [5; 34]
      ∧ map_to_list (BasecallErrorContextObservationExportData.observations e)
        = [(BasecallErrorContextObservationExportObservation.mk
              (BasecallErrorContextObservationExportStrandObservation.mk 20 [1; 0])
              (BasecallErrorContextObservationExportStrandObservation.mk 14 [0; 0]), 1)]
  | _ => False
  end.
Proof. by vm_compute. Qed.

(** ** The continuous allele caller: scores *)




(** ** The indel error model *)

Lemma umax_max (a b : Z) : umax a b = Z.max a b.
Proof. unfold umax. destruct (Z.ltb_spec a b); lia. Qed.

Lemma RealDouble_max (a b : R) : @d_max R RealDouble a b = Rmax a b.
Proof.
  unfold d_max. simpl. case_bool_decide.
  - rewrite Rmax_right; [done|lra].
  - rewrite Rmax_left; [done|lra].
Qed.

(** C4.  For a complex indel [getIndelErrorRate] gives, in both directions,
    the larger of the insertion rate and the deletion rate of the table at
    pattern size 1 and repeat count 1.  For a simple indel, with
    [repeatUnitLength], [refRepeatCount] and [indelRepeatCount] each raised to
    1 at least, [refToIndelErrorProb] is the rate of the table at the
    reference repeat count for the direction of the indel, and
    [indelToRefErrorProb] the rate at the indel repeat count for the opposite
    direction. *)
Theorem getIndelErrorRate_cases {D : Type} `{DoubleOps D} {IndelKey IndelErrorRateSet : Type}
    (getRateType : IndelKey → IndelErrorRateType.index_t)
    (getRate : IndelErrorRateSet → Z → Z → IndelErrorRateType.index_t → D)
    (model : IndelErrorModel.t) (indelKey : IndelKey)
    (indelReportInfo : AlleleReportInfo.t) (isCandidateRates : bool) :
  let errorRates :=
    if isCandidateRates then IndelErrorModel._candidateErrorRates model
    else IndelErrorModel._errorRates model in
  let size := Z.max (AlleleReportInfo.repeatUnitLength indelReportInfo) 1 in
  let refCount := Z.max (AlleleReportInfo.refRepeatCount indelReportInfo) 1 in
  let indelCount := Z.max (AlleleReportInfo.indelRepeatCount indelReportInfo) 1 in
  let larger (a b : D) : D := if d_ltb a b then b else a in
  IndelErrorModel.getIndelErrorRate getRateType getRate model indelKey indelReportInfo
    isCandidateRates
  = match getRateType indelKey with
    | IndelErrorRateType.INSERT =>
        (getRate errorRates size refCount IndelErrorRateType.INSERT,
         getRate errorRates size indelCount IndelErrorRateType.DELETE)
    | IndelErrorRateType.DELETE =>
        (getRate errorRates size refCount IndelErrorRateType.DELETE,
         getRate errorRates size indelCount IndelErrorRateType.INSERT)
    | IndelErrorRateType.OTHER =>
        (larger (getRate errorRates 1 1 IndelErrorRateType.INSERT)
                (getRate errorRates 1 1 IndelErrorRateType.DELETE),
         larger (getRate errorRates 1 1 IndelErrorRateType.INSERT)
                (getRate errorRates 1 1 IndelErrorRateType.DELETE))
    end
  ∧ (∀ a b : R, @d_max R RealDouble a b = Rmax a b).
Proof.
  intros errorRates size refCount indelCount larger.
  split; [|apply RealDouble_max].
  unfold IndelErrorModel.getIndelErrorRate. fold errorRates.
  rewrite !umax_max. fold size refCount indelCount.
  by destruct (getRateType indelKey).
Qed.

(** ** The adaptive indel error model, read on the real numbers *)

Local Open Scope R_scope.

Lemma lineThrough_low (x1 y1 x2 y2 : R) :
  AdaptiveIndelErrorModel.lineThrough x1 y1 x2 y2 x1 = y1.
Proof. unfold AdaptiveIndelErrorModel.lineThrough. unfold Rdiv. ring. Qed.

Lemma lineThrough_high (x1 y1 x2 y2 : R) :
  x1 ≠ x2 → AdaptiveIndelErrorModel.lineThrough x1 y1 x2 y2 x2 = y2.
Proof. intros Hne. unfold AdaptiveIndelErrorModel.lineThrough. field. lra. Qed.

Lemma linearFit_line (x x1 y1 x2 y2 : R) :
  x1 ≠ x2 →
  @AdaptiveIndelErrorModel.linearFit R RealDouble x x1 y1 x2 y2
  = Done (AdaptiveIndelErrorModel.lineThrough x1 y1 x2 y2 x).
Proof.
  intros Hne. unfold AdaptiveIndelErrorModel.linearFit. simpl.
  rewrite bool_decide_eq_false_2 by done. f_equal.
  unfold AdaptiveIndelErrorModel.lineThrough. field. lra.
Qed.

Lemma linearFit_equal_anchors (x x1 y1 y2 : R) :
  @AdaptiveIndelErrorModel.linearFit R RealDouble x x1 y1 x1 y2 = AssertionFailed.
Proof.
  unfold AdaptiveIndelErrorModel.linearFit. simpl. by rewrite bool_decide_eq_true_2.
Qed.

Local Close Scope R_scope.

(** C5, as the code has it.  For every adaptive model and every repeat count
    of 2 at least: [errorRate] is [exp] of the high log rate from the high
    repeat count on; below, it is [exp] of the value at the repeat count of
    the straight line through the anchors [(2, low log rate)] and
    [(high repeat count, high log rate)], whose x-coordinates then differ.
    [noisyLocusRate] is the same on the log rates of noisy loci.  A model
    whose two anchors have the same x-coordinate does not stop [errorRate] or
    [noisyLocusRate]: they return the high rate for every repeat count of 2
    at least.  The assertion on equal x-coordinates is the one of
    [linearFit], which they only call below the high repeat count.  Here
    [double] is read as the real numbers. *)
Theorem errorRate_log_linear (model : AdaptiveIndelErrorModel.t R) (repeatCount : Z)
    (atLeastTwo : 2 ≤ repeatCount) :
  let high := AdaptiveIndelErrorModel._highRepeatCount model in
  let lowLog := AdaptiveIndelErrorModel._lowLogParams model in
  let highLog := AdaptiveIndelErrorModel._highLogParams model in
  let line (yLow yHigh : R) (x : R) : R :=
    AdaptiveIndelErrorModel.lineThrough
      (IZR AdaptiveIndelErrorModel.lowRepeatCount) yLow (IZR high) yHigh x in
  AdaptiveIndelErrorModel.errorRate model repeatCount
  = (if high <=? repeatCount
     then Done (exp (AdaptiveIndelErrorModelLogParams.logErrorRate highLog))
     else Done (exp (line (AdaptiveIndelErrorModelLogParams.logErrorRate lowLog)
                          (AdaptiveIndelErrorModelLogParams.logErrorRate highLog)
                          (IZR repeatCount))))
  ∧ AdaptiveIndelErrorModel.noisyLocusRate model repeatCount
    = (if high <=? repeatCount
       then Done (exp (AdaptiveIndelErrorModelLogParams.logNoisyLocusRate highLog))
       else Done (exp (line (AdaptiveIndelErrorModelLogParams.logNoisyLocusRate lowLog)
                            (AdaptiveIndelErrorModelLogParams.logNoisyLocusRate highLog)
                            (IZR repeatCount))))
  ∧ (high = AdaptiveIndelErrorModel.lowRepeatCount →
       AdaptiveIndelErrorModel.errorRate model repeatCount
       = Done (exp (AdaptiveIndelErrorModelLogParams.logErrorRate highLog))
       ∧ AdaptiveIndelErrorModel.noisyLocusRate model repeatCount
         = Done (exp (AdaptiveIndelErrorModelLogParams.logNoisyLocusRate highLog)))
  ∧ (high ≠ AdaptiveIndelErrorModel.lowRepeatCount →
       ∀ yLow yHigh : R,
         line yLow yHigh (IZR AdaptiveIndelErrorModel.lowRepeatCount) = yLow
         ∧ line yLow yHigh (IZR high) = yHigh
         ∧ ∀ x x' : R,
             (line yLow yHigh x' - line yLow yHigh x
              = (yHigh - yLow) / (IZR high - IZR AdaptiveIndelErrorModel.lowRepeatCount)
                * (x' - x))%R)
  ∧ (∀ x x1 y1 y2 : R,
       @AdaptiveIndelErrorModel.linearFit R RealDouble x x1 y1 x1 y2 = AssertionFailed).
Proof.
  intros high lowLog highLog line.
  assert (Hgt : (1 <? repeatCount) = true) by (apply Z.ltb_lt; lia).
  assert (Hrate :
    AdaptiveIndelErrorModel.errorRate model repeatCount
    = (if high <=? repeatCount
       then Done (exp (AdaptiveIndelErrorModelLogParams.logErrorRate highLog))
       else Done (exp (line (AdaptiveIndelErrorModelLogParams.logErrorRate lowLog)
                            (AdaptiveIndelErrorModelLogParams.logErrorRate highLog)
                            (IZR repeatCount))))).
  { unfold AdaptiveIndelErrorModel.errorRate. rewrite Hgt. simpl. fold high.
    destruct (Z.leb_spec high repeatCount) as [Hle|Hlt]; [done|].
    unfold AdaptiveIndelErrorModel._lowRepeatCount.
    change (@d_of_Z R RealDouble) with IZR.
    rewrite linearFit_line; [done|].
    intros Heq%eq_IZR. unfold AdaptiveIndelErrorModel.lowRepeatCount in Heq. lia. }
  assert (Hnoisy :
    AdaptiveIndelErrorModel.noisyLocusRate model repeatCount
    = (if high <=? repeatCount
       then Done (exp (AdaptiveIndelErrorModelLogParams.logNoisyLocusRate highLog))
       else Done (exp (line (AdaptiveIndelErrorModelLogParams.logNoisyLocusRate lowLog)
                            (AdaptiveIndelErrorModelLogParams.logNoisyLocusRate highLog)
                            (IZR repeatCount))))).
  { unfold AdaptiveIndelErrorModel.noisyLocusRate. rewrite Hgt. simpl. fold high.
    destruct (Z.leb_spec high repeatCount) as [Hle|Hlt]; [done|].
    unfold AdaptiveIndelErrorModel._lowRepeatCount.
    change (@d_of_Z R RealDouble) with IZR.
    rewrite linearFit_line; [done|].
    intros Heq%eq_IZR. unfold AdaptiveIndelErrorModel.lowRepeatCount in Heq. lia. }
  split_and!; [exact Hrate|exact Hnoisy| | |].
  - intros Hequal. rewrite Hrate, Hnoisy.
    assert ((high <=? repeatCount) = true) as ->; [|done].
    apply Z.leb_le. rewrite Hequal. unfold AdaptiveIndelErrorModel.lowRepeatCount. lia.
  - intros Hdistinct yLow yHigh.
    assert (Hne : IZR AdaptiveIndelErrorModel.lowRepeatCount ≠ IZR high).
    { intros Heq%eq_IZR. by apply Hdistinct. }
    split_and!.
    + apply lineThrough_low.
    + by apply lineThrough_high.
    + intros x x'. unfold line, AdaptiveIndelErrorModel.lineThrough. field. lra.
  - apply linearFit_equal_anchors.
Qed.

Lemma errorRate_log_linear_witness :
  2 ≤ 5
  ∧ AdaptiveIndelErrorModel.errorRate Scenario.homopolymerModel 5
    = Done (exp (AdaptiveIndelErrorModel.lineThrough
                   2 (ln (49 / 10000)) 16 (ln (45 / 1000)) 5)).
Proof.
  assert (H2 : 2 ≤ 5) by lia.
  split; [exact H2|].
  exact (proj1 (errorRate_log_linear Scenario.homopolymerModel 5 H2)).
Defined.

(** with both anchors at repeat count 2, [errorRate] and [noisyLocusRate]
    do not stop on an assertion: they return the high rate *)
Lemma equal_anchors_do_not_halt :
  ¬ (AdaptiveIndelErrorModel.errorRate Scenario.equalAnchorsModel 5 = AssertionFailed
     ∨ AdaptiveIndelErrorModel.noisyLocusRate Scenario.equalAnchorsModel 5 = AssertionFailed).
Proof.
  unfold AdaptiveIndelErrorModel.errorRate, AdaptiveIndelErrorModel.noisyLocusRate.
  cbn. intros [Hhalt|Hhalt]; discriminate Hhalt.
Qed.

(** [errorRate] itself only calls [linearFit] below the high repeat count:
    when the high anchor is at repeat count 2 as well, every repeat count of
    2 at least is answered with the high rate *)
Remark errorRate_equal_anchors (model : AdaptiveIndelErrorModel.t R) (repeatCount : Z) :
  AdaptiveIndelErrorModel._highRepeatCount model = AdaptiveIndelErrorModel.lowRepeatCount →
  2 ≤ repeatCount →
  AdaptiveIndelErrorModel.errorRate model repeatCount
  = Done (exp (AdaptiveIndelErrorModelLogParams.logErrorRate
                 (AdaptiveIndelErrorModel._highLogParams model))).
Proof.
  intros Hhigh Hrc. unfold AdaptiveIndelErrorModel.errorRate. rewrite Hhigh.
  assert ((1 <? repeatCount) = true) as -> by (apply Z.ltb_lt; lia).
  assert ((AdaptiveIndelErrorModel.lowRepeatCount <=? repeatCount) = true) as ->
    by (apply Z.leb_le; unfold AdaptiveIndelErrorModel.lowRepeatCount; lia).
  reflexivity.
Qed.

(** ** The significance score, read on the real numbers *)

Local Open Scope R_scope.

Lemma exp_INR_mult (n : nat) (y : R) : exp (INR n * y) = exp y ^ n.
Proof.
  induction n as [|n IH].
  - simpl. rewrite Rmult_0_l. apply exp_0.
  - rewrite S_INR, Rmult_plus_distr_r, Rmult_1_l, exp_plus, IH. simpl. ring.
Qed.

Lemma exp_lower (x : R) : 0 <= x <= 8 → (1 - x / 8) ^ 8 <= exp (- x).
Proof.
  intros Hx.
  replace (- x) with (INR 8 * (- x / 8)) by (simpl; field).
  rewrite exp_INR_mult.
  apply pow_incr. split; [lra|].
  pose proof (exp_ineq1_le (- x / 8)). lra.
Qed.

Lemma poissonHead_step (n : nat) (x : R) : 0 <= x → poissonHead n x <= poissonHead (S n) x.
Proof.
  intros Hx. simpl.
  assert (0 <= x ^ n / INR (fact n)).
  { apply Rmult_le_pos; [by apply pow_le|].
    apply Rlt_le, Rinv_0_lt_compat, INR_fact_lt_0. }
  lra.
Qed.

Lemma poissonHead_mono (n m : nat) (x : R) :
  (n ≤ m)%nat → 0 <= x → poissonHead n x <= poissonHead m x.
Proof.
  intros Hnm Hx. induction Hnm as [|m Hnm IH]; [lra|].
  etrans; [exact IH|]. by apply poissonHead_step.
Qed.

(** quality 30 is the error probability 1/1000 *)
Lemma qphred_30 : Rqphred_to_error_prob 30 = / 1000.
Proof.
  unfold Rqphred_to_error_prob.
  replace (IZR 30 / 10) with (INR 3) by (simpl; lra).
  rewrite Rpower_Ropp, Rpower_pow by lra. f_equal. lra.
Qed.

(** 30 calls at 30 * 1/1000 expected errors: the p-value is below 10^-4 *)
Lemma pvalue_30_small : Rgamma_p 30 (30 * / 1000) <= / 10000.
Proof.
  unfold Rgamma_p.
  set (x := 30 * / 1000).
  assert (Hx : x = 3 / 100) by (unfold x; lra).
  assert (Hhead : poissonHead 4 x <= poissonHead (Z.to_nat 30) x).
  { apply poissonHead_mono; [lia|lra]. }
  assert (Hexp : (1 - x / 8) ^ 8 <= exp (- x)) by (apply exp_lower; lra).
  assert (H4 : poissonHead 4 x = 1 + x + x * x / 2 + x * x * x / 6).
  { simpl. lra. }
  assert (Hpos : 0 <= poissonHead 4 x) by (rewrite H4, Hx; lra).
  assert (Hlow : (1 - x / 8) ^ 8 * poissonHead 4 x
                 <= exp (- x) * poissonHead (Z.to_nat 30) x).
  { apply Rmult_le_compat; try lra. apply pow_le. lra. }
  assert (Hnum : 1 - / 10000 <= (1 - x / 8) ^ 8 * poissonHead 4 x).
  { rewrite H4, Hx. simpl. lra. }
  lra.
Qed.

Lemma phred_of_small (p : R) : 0 < p → p <= / 10000 → (40 ≤ Rerror_prob_to_qphred p)%Z.
Proof.
  intros Hp Hsmall. unfold Rerror_prob_to_qphred, log10.
  apply Zfloor_lub.
  assert (Hln10 : 0 < ln 10).
  { rewrite <- ln_1. apply ln_increasing; lra. }
  assert (Hlnp : ln p <= - (4 * ln 10)).
  { replace (- (4 * ln 10)) with (ln (/ 10 ^ 4)).
    - destruct Hsmall as [Hlt| ->].
      + apply Rlt_le, ln_increasing; [done|]. simpl. lra.
      + apply Req_le. f_equal. simpl. lra.
    - rewrite ln_Rinv by (simpl; lra). rewrite ln_pow by lra. simpl. lra. }
  assert (ln p / ln 10 <= -4).
  { apply (Rmult_le_reg_r (ln 10)); [done|].
    unfold Rdiv. rewrite Rmult_assoc, Rinv_l by lra. lra. }
  lra.
Qed.

(** the p-value 1 has the phred score 0 *)
Lemma phred_of_one : Rerror_prob_to_qphred 1 = 0%Z.
Proof.
  unfold Rerror_prob_to_qphred, log10. rewrite ln_1.
  apply Zfloor_eq. unfold Rdiv. rewrite Rmult_0_l. simpl. lra.
Qed.

Local Close Scope R_scope.

(** C2.  [poisson_qscore(n, c, q, m)] takes as p-value the regularized lower
    incomplete gamma function at [(n, c * errorProb(q))] when [n] is not zero
    and exactly 1 when [n] is zero.  It returns [m] when the p-value is at
    most zero and the smaller of [m] and the phred score of the p-value
    otherwise, so the result never exceeds [m].  For [n = 0] the result is
    that of the p-value 1, whose phred score is 0, the lowest one; and
    [poisson_qscore(30, 30, 30, 40) = 40].  The first part holds for every
    implementation of [double]; the two values are computed on the real
    numbers. *)
Theorem poisson_qscore_cases :
  (∀ (D : Type) (ops : DoubleOps D)
     (callCount coverage estimatedBaseCallQuality maxQScore : Z),
     let pValue :=
       if callCount =? 0 then d_of_Z 1
       else gamma_p callCount
              (d_mul (d_of_Z coverage) (qphred_to_error_prob estimatedBaseCallQuality)) in
     starling_continuous_variant_caller.AssignPValue callCount coverage estimatedBaseCallQuality
     = pValue
     ∧ starling_continuous_variant_caller.poisson_qscore
         callCount coverage estimatedBaseCallQuality maxQScore
       = (if d_leb pValue (d_of_Z 0) then maxQScore
          else Z.min maxQScore (error_prob_to_qphred pValue))
     ∧ starling_continuous_variant_caller.poisson_qscore
         callCount coverage estimatedBaseCallQuality maxQScore ≤ maxQScore)
  ∧ (∀ coverage estimatedBaseCallQuality maxQScore : Z,
       @starling_continuous_variant_caller.poisson_qscore R RealDouble
         0 coverage estimatedBaseCallQuality maxQScore
       = Z.min maxQScore (Rerror_prob_to_qphred 1)
       ∧ Rerror_prob_to_qphred 1 = 0)
  ∧ @starling_continuous_variant_caller.poisson_qscore R RealDouble 30 30 30 40 = 40.
Proof.
  split_and!.
  - intros D ops n c q m pValue. split_and!; try reflexivity.
    unfold starling_continuous_variant_caller.poisson_qscore.
    destruct (d_leb _ _); lia.
  - intros c q m. split; [|apply phred_of_one].
    unfold starling_continuous_variant_caller.poisson_qscore,
      starling_continuous_variant_caller.AssignPValue. simpl.
    by rewrite bool_decide_eq_false_2 by lra.
  - unfold starling_continuous_variant_caller.poisson_qscore,
      starling_continuous_variant_caller.AssignPValue. simpl.
    rewrite qphred_30.
    case_bool_decide as Hp; [done|].
    pose proof pvalue_30_small.
    pose proof (phred_of_small (Rgamma_p 30 (30 * / 1000)) ltac:(lra) ltac:(done)).
    lia.
Qed.

(** ** The continuous allele caller: the scenarios *)

(** settles the comparisons of real constants in the goal *)
Ltac decide_reals :=
  repeat match goal with
  | |- context [bool_decide (?a < ?b)%R] =>
      first [ rewrite (bool_decide_eq_true_2 (a < b)%R) by lra
            | rewrite (bool_decide_eq_false_2 (a < b)%R) by lra ]
  end.


(** unfolds [add_indel_call] on a single-sample locus down to the comparisons *)
Ltac run_indel_caller :=
  unfold starling_continuous_variant_caller.add_indel_call,
    starling_continuous_variant_caller.frontBelowComplement,
    starling_continuous_variant_caller.variant_frequency,
    starling_continuous_variant_caller.safeFrac,
    starling_continuous_variant_caller.scoreSamples;
  cbn -[starling_continuous_variant_caller.poisson_qscore
        Rdiv Rminus Rlt IZR Rlt_decision Z.modulo];
  decide_reals;
  cbn -[starling_continuous_variant_caller.poisson_qscore
        Rdiv Rminus Rlt IZR Rlt_decision Z.modulo];
  decide_reals.

Lemma more_than_one {A : Type} (l : list A) :
  (1 <? Z.of_nat (length l)) = bool_decide (1 < length l)%nat.
Proof. case_bool_decide; [apply Z.ltb_lt | apply Z.ltb_ge]; lia. Qed.

(** C9, as the code has it.  Once the locus has an allele record,
    [add_indel_call] declares heterozygosity exactly when the locus has more
    than one allele record or the variant frequency of its first record is
    below [1 - threshold]; without a record [is_het] is left as it was.  With
    threshold 0.2, where [1 - threshold] is 0.8, a single allele of variant
    frequency 0.97 is not heterozygous and one of variant frequency 0.5 is.
    With threshold 0.8 a single allele of variant frequency 0.97 is not
    heterozygous; one of variant frequency 0.5 does not pass the threshold,
    has a record when its output is forced, and is then not heterozygous
    either, 0.5 not being below 0.2. *)
Theorem add_indel_call_heterozygosity :
  (∀ (D : Type) (ops : DoubleOps D) (opt : starling_base_options.t D) (isForcedOutput : bool)
     (indelSampleReportInfo : starling_indel_sample_report_info.t)
     (locusInfo : GermlineContinuousIndelLocusInfo.t),
     let r := starling_continuous_variant_caller.add_indel_call
                opt isForcedOutput indelSampleReportInfo locusInfo in
     GermlineContinuousIndelLocusInfo.is_het r
     = match GermlineContinuousIndelLocusInfo.altAlleles r with
       | [] => GermlineContinuousIndelLocusInfo.is_het locusInfo
       | front :: _ =>
           bool_decide (1 < length (GermlineContinuousIndelLocusInfo.altAlleles r))%nat
           || d_ltb (starling_continuous_variant_caller.variant_frequency front)
                    (d_sub (d_of_Z 1) (starling_base_options.min_het_vf opt))
       end)
  ∧ (∀ (min_qscore : Z) (noise_floor : R) (gq0 : Z),
       let call (min_het_vf : R) (isForcedOutput : bool) (indelReads : Z) :=
         @starling_continuous_variant_caller.add_indel_call R RealDouble
           (Scenario.options min_het_vf min_qscore noise_floor) isForcedOutput
           (Scenario.indelReads indelReads) (Scenario.indelLocus gq0) in
       let record (indelReads : Z) :=
         GermlineContinuousIndelAlleleInfo.mk 100 indelReads
           (@starling_continuous_variant_caller.poisson_qscore R RealDouble
              indelReads 100 (min_qscore mod UINT32_MOD) 40) in
       (∀ isForcedOutput,
          GermlineContinuousIndelLocusInfo.altAlleles (call (2 / 10)%R isForcedOutput 97)
          = [record 97]
          ∧ GermlineContinuousIndelLocusInfo.is_het (call (2 / 10)%R isForcedOutput 97) = false)
       ∧ (∀ isForcedOutput,
          GermlineContinuousIndelLocusInfo.altAlleles (call (2 / 10)%R isForcedOutput 50)
          = [record 50]
          ∧ GermlineContinuousIndelLocusInfo.is_het (call (2 / 10)%R isForcedOutput 50) = true)
       ∧ (∀ isForcedOutput,
          GermlineContinuousIndelLocusInfo.altAlleles (call (8 / 10)%R isForcedOutput 97)
          = [record 97]
          ∧ GermlineContinuousIndelLocusInfo.is_het (call (8 / 10)%R isForcedOutput 97) = false)
       ∧ (GermlineContinuousIndelLocusInfo.altAlleles (call (8 / 10)%R false 50) = []
          ∧ GermlineContinuousIndelLocusInfo.is_het (call (8 / 10)%R false 50) = false)
       ∧ (GermlineContinuousIndelLocusInfo.altAlleles (call (8 / 10)%R true 50) = [record 50]
          ∧ GermlineContinuousIndelLocusInfo.is_het (call (8 / 10)%R true 50) = false)).
Proof.
  split.
  - intros D ops opt isForcedOutput report locusInfo r. unfold r.
    unfold starling_continuous_variant_caller.add_indel_call.
    destruct (d_ltb _ _ || isForcedOutput).
    + destruct (starling_continuous_variant_caller.scoreSamples _ _ _) as [samples allele].
      cbn [GermlineContinuousIndelLocusInfo.is_het GermlineContinuousIndelLocusInfo.altAlleles].
      destruct (GermlineContinuousIndelLocusInfo.altAlleles locusInfo ++ [allele])
        as [|front rest]; [done|].
      by rewrite more_than_one.
    + cbn [GermlineContinuousIndelLocusInfo.is_het GermlineContinuousIndelLocusInfo.altAlleles].
      destruct (GermlineContinuousIndelLocusInfo.altAlleles locusInfo)
        as [|front rest]; [done|].
      by rewrite more_than_one.
  - intros min_qscore noise_floor gq0 call record. unfold call, record.
    split_and!; try intros isForcedOutput; try split; run_indel_caller; reflexivity.
Qed.

(** threshold 0.8, a single allele of variant frequency 0.5 with forced
    output: the locus is not heterozygous *)
Lemma indel_scenario_half_not_heterozygous :
  ¬ (GermlineContinuousIndelLocusInfo.is_het
       (@starling_continuous_variant_caller.add_indel_call R RealDouble
          (Scenario.options (8 / 10)%R 20 0%R) true
          (Scenario.indelReads 50) (Scenario.indelLocus 0)) = true).
Proof. run_indel_caller. done. Qed.

(** ** Sequences of calls on the aggregator *)

Lemma add64_range (a b : Z) : 0 ≤ add64 a b < UINT64_MOD.
Proof. unfold add64. apply Z.mod_pos_bound. by compute. Qed.

Lemma add64_0_l (a : Z) : 0 ≤ a < UINT64_MOD → add64 0 a = a.
Proof. intros Ha. unfold add64. rewrite Z.add_0_l. by apply Z.mod_small. Qed.

Lemma add64_swap (a b c : Z) : add64 (add64 a b) c = add64 (add64 a c) b.
Proof. by rewrite add64_assoc, (add64_comm b c), <- add64_assoc. Qed.

Section IterateMap.
Context `{Countable K}.
Implicit Types m : gmap K Z.

Lemma lookup_iterateMapValue add m (key k : K) (increment : Z) :
  iterateMapValue add m key increment !! k
  = if decide (key = k)
    then Some (match m !! key with Some v => add v increment | None => increment end)
    else m !! k.
Proof.
  unfold iterateMapValue.
  destruct (m !! key) eqn:E; case_decide as Hk.
  all: try (subst k; by rewrite lookup_insert_eq).
  all: by rewrite lookup_insert_ne.
Qed.

Lemma iterateMapValue_comm m (k1 k2 : K) :
  iterateMapValue add64 (iterateMapValue add64 m k1 1) k2 1
  = iterateMapValue add64 (iterateMapValue add64 m k2 1) k1 1.
Proof.
  destruct (decide (k1 = k2)) as [->|Hne]; [done|].
  apply map_eq. intros k. rewrite !lookup_iterateMapValue.
  rewrite (decide_False (P := k1 = k2)), (decide_False (P := k2 = k1)) by done.
  repeat case_decide; try done; congruence.
Qed.

(** counting a key into a merged map, or merging after counting *)
Lemma mergeMapKeys_iterateMapValue m1 m2 (key : K) :
  mergeMapKeys add64 m1 (iterateMapValue add64 m2 key 1)
  = iterateMapValue add64 (mergeMapKeys add64 m1 m2) key 1.
Proof.
  apply map_eq. intros k.
  rewrite lookup_mergeMapKeys, !lookup_iterateMapValue, !lookup_mergeMapKeys.
  case_decide as Hk; [subst k|done].
  destruct (m2 !! key), (m1 !! key); simpl; try done.
  - by rewrite add64_swap.
  - by rewrite add64_comm.
Qed.

Lemma mergeMapKeys_empty_l m : mergeMapKeys add64 ∅ m = m.
Proof.
  apply map_eq. intros k. rewrite lookup_mergeMapKeys, lookup_empty. by destruct (m !! k).
Qed.

Lemma mergeMapKeys_empty_r m : mergeMapKeys add64 m ∅ = m.
Proof.
  apply map_eq. intros k. rewrite lookup_mergeMapKeys, lookup_empty. by destruct (m !! k).
Qed.

Lemma mergeMapKeys_swap m1 m2 m3 :
  mergeMapKeys add64 m1 (mergeMapKeys add64 m2 m3)
  = mergeMapKeys add64 m2 (mergeMapKeys add64 m1 m3).
Proof.
  apply map_eq. intros k. rewrite !lookup_mergeMapKeys.
  destruct (m1 !! k), (m2 !! k), (m3 !! k); simpl; try done.
  - by rewrite add64_swap.
  - by rewrite add64_comm.
Qed.
End IterateMap.

Section Observations.
Context `{IntegerLogCompressor} `{StrandOrder}.

Lemma addObservation_comm (o1 o2 : BasecallErrorContextInputObservation.t)
    (d : BasecallErrorContextObservationData.t) :
  BasecallErrorContextObservationData.addObservation o1
    (BasecallErrorContextObservationData.addObservation o2 d)
  = BasecallErrorContextObservationData.addObservation o2
      (BasecallErrorContextObservationData.addObservation o1 d).
Proof.
  unfold BasecallErrorContextObservationData.addObservation.
  cbn [BasecallErrorContextObservationData.data
       BasecallErrorContextObservationData.refAlleleBasecallErrorPhredProbs].
  f_equal.
  - apply iterateMapValue_comm.
  - set (a := (BasecallErrorContextInputObservation.ref o1).1).
    set (b := (BasecallErrorContextInputObservation.ref o1).2).
    set (c := (BasecallErrorContextInputObservation.ref o2).1).
    set (e := (BasecallErrorContextInputObservation.ref o2).2).
    set (m := BasecallErrorContextObservationData.refAlleleBasecallErrorPhredProbs d).
    rewrite (mergeMapKeys_swap a e), (mergeMapKeys_swap b e).
    by rewrite (mergeMapKeys_swap a c), (mergeMapKeys_swap b c).
Qed.

(** adding an observation to merged counts, or merging after adding it *)
Lemma merge_addObservation (o : BasecallErrorContextInputObservation.t)
    (a b : BasecallErrorContextObservationData.t) :
  BasecallErrorContextObservationData.merge
    (BasecallErrorContextObservationData.addObservation o a) b
  = BasecallErrorContextObservationData.addObservation o
      (BasecallErrorContextObservationData.merge a b).
Proof.
  unfold BasecallErrorContextObservationData.merge,
    BasecallErrorContextObservationData.addObservation.
  cbn [BasecallErrorContextObservationData.data
       BasecallErrorContextObservationData.refAlleleBasecallErrorPhredProbs].
  f_equal.
  - apply mergeMapKeys_iterateMapValue.
  - rewrite (mergeMapKeys_swap
               (BasecallErrorContextObservationData.refAlleleBasecallErrorPhredProbs b)).
    f_equal. apply mergeMapKeys_swap.
Qed.

Lemma ObservationData_merge_empty_l (b : BasecallErrorContextObservationData.t) :
  BasecallErrorContextObservationData.merge BasecallErrorContextObservationData.empty b = b.
Proof.
  unfold BasecallErrorContextObservationData.merge, BasecallErrorContextObservationData.empty.
  cbn [BasecallErrorContextObservationData.data
       BasecallErrorContextObservationData.refAlleleBasecallErrorPhredProbs].
  rewrite !mergeMapKeys_empty_r. by destruct b.
Qed.
End Observations.

Lemma BasecallErrorData_merge_empty_l (b : BasecallErrorData.t) :
  countersInRange b → BasecallErrorData.merge BasecallErrorData.empty b = b.
Proof.
  intros (He & Hd & Hm & Hn).
  unfold BasecallErrorData.merge, BasecallErrorData.empty.
  cbn [BasecallErrorData.counts BasecallErrorData.excludedRegionSkipped
       BasecallErrorData.depthSkipped BasecallErrorData.emptySkipped
       BasecallErrorData.noiseSkipped].
  rewrite ObservationData_merge_empty_l, !add64_0_l by done. by destruct b.
Qed.

Section Calls.
Context {Ctx : Type} `{Countable Ctx}.
Context `{IntegerLogCompressor} `{StrandOrder}.
Implicit Types (A B : gmap Ctx BasecallErrorData.t) (c : BasecallErrorCountsCall.t (BasecallErrorContext := Ctx)).

Lemma run_updateContext c A :
  BasecallErrorCountsCall.run c A
  = BasecallErrorCounts.updateContext (BasecallErrorCountsCall.context c) (entryUpdate c) A.
Proof. by destruct c. Qed.

Lemma lookup_updateContext (context k : Ctx) f A :
  BasecallErrorCounts.updateContext context f A !! k
  = if decide (context = k)
    then Some (f (default BasecallErrorData.empty (A !! context)))
    else A !! k.
Proof.
  unfold BasecallErrorCounts.updateContext, BasecallErrorCounts.getContextIterator.
  destruct (A !! context) eqn:E; case_decide as Hk; cbn [default].
  all: try (subst k; by rewrite lookup_insert_eq).
  all: by rewrite !lookup_insert_ne.
Qed.

Lemma lookup_run c A (k : Ctx) :
  BasecallErrorCountsCall.run c A !! k
  = if decide (BasecallErrorCountsCall.context c = k)
    then Some (entryUpdate c (default BasecallErrorData.empty
                                (A !! BasecallErrorCountsCall.context c)))
    else A !! k.
Proof. rewrite run_updateContext. apply lookup_updateContext. Qed.

Lemma entryUpdate_comm c1 c2 (d : BasecallErrorData.t) :
  entryUpdate c1 (entryUpdate c2 d) = entryUpdate c2 (entryUpdate c1 d).
Proof.
  destruct c1, c2; cbn; try reflexivity.
  by rewrite addObservation_comm.
Qed.

Lemma run_comm c1 c2 A :
  BasecallErrorCountsCall.run c1 (BasecallErrorCountsCall.run c2 A)
  = BasecallErrorCountsCall.run c2 (BasecallErrorCountsCall.run c1 A).
Proof.
  apply map_eq. intros k. rewrite !lookup_run.
  destruct (decide (BasecallErrorCountsCall.context c1 = BasecallErrorCountsCall.context c2))
    as [Heq|Hne].
  - rewrite Heq.
    destruct (decide (BasecallErrorCountsCall.context c2 = k)) as [Hk|Hk]; [|done].
    rewrite !decide_True by done. cbn [default from_option].
    unfold Datatypes.id. by rewrite entryUpdate_comm.
  - repeat case_decide; simplify_eq; done.
Qed.

Lemma runAll_snoc (calls : list BasecallErrorCountsCall.t) c A :
  BasecallErrorCountsCall.runAll (calls ++ [c]) A
  = BasecallErrorCountsCall.run c (BasecallErrorCountsCall.runAll calls A).
Proof. unfold BasecallErrorCountsCall.runAll. by rewrite foldl_app. Qed.

Lemma runAll_cons (calls : list BasecallErrorCountsCall.t) c A :
  BasecallErrorCountsCall.runAll (c :: calls) A
  = BasecallErrorCountsCall.runAll calls (BasecallErrorCountsCall.run c A).
Proof. done. Qed.

Lemma runAll_run (calls : list BasecallErrorCountsCall.t) c A :
  BasecallErrorCountsCall.runAll calls (BasecallErrorCountsCall.run c A)
  = BasecallErrorCountsCall.run c (BasecallErrorCountsCall.runAll calls A).
Proof.
  revert A. induction calls as [|c' calls IH]; intros A; [done|].
  rewrite !runAll_cons, <- IH. by rewrite run_comm.
Qed.

(** the order of the calls does not matter *)
Lemma runAll_Permutation (calls1 calls2 : list BasecallErrorCountsCall.t) A :
  calls1 ≡ₚ calls2 →
  BasecallErrorCountsCall.runAll calls1 A = BasecallErrorCountsCall.runAll calls2 A.
Proof.
  intros Hperm. revert A.
  induction Hperm as [|c l1 l2 Hperm IH|c1 c2 l|l1 l2 l3 _ IH1 _ IH2]; intros A.
  - done.
  - rewrite !runAll_cons. apply IH.
  - rewrite !runAll_cons. by rewrite run_comm.
  - by rewrite IH1.
Qed.

Lemma entryUpdate_range c (d : BasecallErrorData.t) :
  countersInRange d → countersInRange (entryUpdate c d).
Proof.
  intros (He & Hd & Hm & Hn). unfold countersInRange.
  destruct c;
    cbn [entryUpdate BasecallErrorData.excludedRegionSkipped BasecallErrorData.depthSkipped
         BasecallErrorData.emptySkipped BasecallErrorData.noiseSkipped];
    refine (conj _ (conj _ (conj _ _))); first [assumption | apply add64_range].
Qed.

Lemma empty_range : countersInRange BasecallErrorData.empty.
Proof. unfold countersInRange. cbn. by compute. Qed.

Lemma run_range c A :
  (∀ k d, A !! k = Some d → countersInRange d) →
  ∀ k d, BasecallErrorCountsCall.run c A !! k = Some d → countersInRange d.
Proof.
  intros HA k d. rewrite lookup_run. case_decide; [|apply HA].
  intros [= <-]. apply entryUpdate_range.
  destruct (A !! _) eqn:E; cbn [default]; [by eapply HA|apply empty_range].
Qed.

Lemma runAll_range (calls : list BasecallErrorCountsCall.t) A :
  (∀ k d, A !! k = Some d → countersInRange d) →
  ∀ k d, BasecallErrorCountsCall.runAll calls A !! k = Some d → countersInRange d.
Proof.
  revert A. induction calls as [|c calls IH]; intros A HA; [done|].
  rewrite runAll_cons. apply IH. by apply run_range.
Qed.

Lemma merge_entryUpdate c (d b : BasecallErrorData.t) :
  BasecallErrorData.merge (entryUpdate c d) b = entryUpdate c (BasecallErrorData.merge d b).
Proof.
  unfold BasecallErrorData.merge.
  destruct c; cbn; f_equal; try apply add64_swap.
  apply merge_addObservation.
Qed.

Lemma merge_run c A B :
  (∀ k d, B !! k = Some d → countersInRange d) →
  BasecallErrorCounts.merge (BasecallErrorCountsCall.run c A) B
  = BasecallErrorCountsCall.run c (BasecallErrorCounts.merge A B).
Proof.
  intros HB. apply map_eq. intros k.
  rewrite lookup_merge, !lookup_run, !lookup_merge.
  case_decide as Hk; [subst k|done].
  unfold BasecallErrorCounts.mergedEntry.
  destruct (A !! _) as [d|] eqn:EA, (B !! _) as [b|] eqn:EB; cbn; try done.
  - by rewrite merge_entryUpdate.
  - rewrite merge_entryUpdate, BasecallErrorData_merge_empty_l; [done|by eapply HB].
Qed.

Lemma merge_empty_l A : BasecallErrorCounts.merge ∅ A = A.
Proof.
  apply map_eq. intros k. rewrite lookup_merge, lookup_empty.
  unfold BasecallErrorCounts.mergedEntry. by destruct (A !! k).
Qed.

Lemma merge_empty_r A : BasecallErrorCounts.merge A ∅ = A.
Proof. unfold BasecallErrorCounts.merge. apply map_fold_empty. Qed.

End Calls.


Section CallTheorems.
Context {Ctx : Type} `{Countable Ctx}.
Context `{IntegerLogCompressor} `{StrandOrder}.
Implicit Types (A B : gmap Ctx BasecallErrorData.t)
  (c : BasecallErrorCountsCall.t (BasecallErrorContext := Ctx)).

Lemma occurrences_snoc c c' (calls : list BasecallErrorCountsCall.t) :
  BasecallErrorCountsCall.occurrences c (calls ++ [c'])
  = if decide (c' = c) then add64 (BasecallErrorCountsCall.occurrences c calls) 1
    else BasecallErrorCountsCall.occurrences c calls.
Proof.
  unfold BasecallErrorCountsCall.occurrences. rewrite filter_app, length_app.
  rewrite filter_cons, filter_nil. case_decide as Hc; cbn [length].
  - unfold add64. rewrite Zplus_mod_idemp_l. f_equal. lia.
  - f_equal. lia.
Qed.

Lemma runAll_counters (calls : list BasecallErrorCountsCall.t) (context : Ctx) :
  let d := default BasecallErrorData.empty
             (BasecallErrorCountsCall.runAll calls ∅ !! context) in
  (is_Some (BasecallErrorCountsCall.runAll calls ∅ !! context)
   ↔ ∃ c, c ∈ calls ∧ BasecallErrorCountsCall.context c = context)
  ∧ BasecallErrorData.excludedRegionSkipped d
    = BasecallErrorCountsCall.occurrences
        (BasecallErrorCountsCall.AddExcludedRegionSkip context) calls
  ∧ BasecallErrorData.depthSkipped d
    = BasecallErrorCountsCall.occurrences (BasecallErrorCountsCall.AddDepthSkip context) calls
  ∧ BasecallErrorData.emptySkipped d
    = BasecallErrorCountsCall.occurrences (BasecallErrorCountsCall.AddEmptySkip context) calls
  ∧ BasecallErrorData.noiseSkipped d
    = BasecallErrorCountsCall.occurrences (BasecallErrorCountsCall.AddNoiseSkip context) calls.
Proof.
  induction calls as [|c' calls IH] using rev_ind.
  - cbn. rewrite lookup_empty. split_and!; try done.
    split; [by intros [? ?]|]. intros (c & Hc & _). by apply elem_of_nil in Hc.
  - cbv zeta in *. rewrite runAll_snoc, lookup_run, !occurrences_snoc.
    destruct IH as (Hsome & He & Hd & Hm & Hn).
    case_decide as Hctx.
    + cbn [default from_option]. unfold Datatypes.id.
      split.
      { split; [|by eauto]. intros _. exists c'. split; [|done].
        apply elem_of_app. right. by apply list_elem_of_singleton. }
      rewrite <- He, <- Hd, <- Hm, <- Hn. rewrite Hctx.
      destruct c' as [ctx' o|ctx'|ctx'|ctx'|ctx']; cbn in Hctx; subst ctx';
        cbn [entryUpdate BasecallErrorData.excludedRegionSkipped
             BasecallErrorData.depthSkipped BasecallErrorData.emptySkipped
             BasecallErrorData.noiseSkipped];
        repeat case_decide; try done.
    + rewrite !decide_False by (intros ->; done).
      split; [|done]. rewrite Hsome. split.
      * intros (c & Hc & <-). exists c. split; [|done]. apply elem_of_app. by left.
      * intros (c & Hc & <-). exists c. split; [|done].
        apply elem_of_app in Hc as [Hc|Hc]; [done|].
        apply list_elem_of_singleton in Hc. by subst.
Qed.

End CallTheorems.

(** X1.  The object that a sequence of calls of [addSiteObservation] and of
    the four skip functions leaves does not depend on the order of the
    calls. *)
Theorem runAll_order_irrelevant {Ctx : Type} `{Countable Ctx}
    `{IntegerLogCompressor} `{StrandOrder}
    (calls1 calls2 : list (BasecallErrorCountsCall.t (BasecallErrorContext := Ctx)))
    (this : gmap Ctx BasecallErrorData.t)
    (sameCalls : calls1 ≡ₚ calls2) :
  BasecallErrorCountsCall.runAll calls1 this = BasecallErrorCountsCall.runAll calls2 this.
Proof.
  by apply runAll_Permutation.
Qed.

Lemma runAll_order_irrelevant_witness :
  BasecallErrorCountsCall.runAll (H0 := truncatingCompressor) (H1 := refThenAltOrder)
    [BasecallErrorCountsCall.AddDepthSkip 1;
     BasecallErrorCountsCall.AddSiteObservation 1 Scenario.altSite] ∅
  = BasecallErrorCountsCall.runAll (H0 := truncatingCompressor) (H1 := refThenAltOrder)
      [BasecallErrorCountsCall.AddSiteObservation 1 Scenario.altSite;
       BasecallErrorCountsCall.AddDepthSkip 1] (∅ : gmap Z BasecallErrorData.t).
Proof.
  apply (runAll_order_irrelevant (H0 := truncatingCompressor) (H1 := refThenAltOrder)).
  apply perm_swap.
Defined.

(** X2.  Merging the objects of two partitions of the input gives the object
    of the whole input: the merge of what two sequences of calls leave, each
    from an object without context, is what the calls of both sequences
    leave. *)
Theorem merge_of_partitions {Ctx : Type} `{Countable Ctx}
    `{IntegerLogCompressor} `{StrandOrder}
    (calls1 calls2 : list (BasecallErrorCountsCall.t (BasecallErrorContext := Ctx))) :
  BasecallErrorCounts.merge (BasecallErrorCountsCall.runAll calls1 ∅)
                            (BasecallErrorCountsCall.runAll calls2 ∅)
  = BasecallErrorCountsCall.runAll (calls1 ++ calls2) ∅.
Proof.
  assert (Hrange : ∀ k d, BasecallErrorCountsCall.runAll calls2 ∅ !! k = Some d →
                          countersInRange d).
  { apply runAll_range. intros k d. by rewrite lookup_empty. }
  transitivity (BasecallErrorCountsCall.runAll (calls2 ++ calls1) ∅).
  - induction calls1 as [|c calls1 IH] using rev_ind.
    + rewrite app_nil_r. apply merge_empty_l.
    + rewrite app_assoc, !runAll_snoc, merge_run by done. by rewrite IH.
  - apply runAll_Permutation, Permutation_app_comm.
Qed.

(** X3.  Merging with an object without context changes nothing, on either
    side. *)
Theorem merge_without_context {Ctx : Type} `{Countable Ctx}
    (this : gmap Ctx BasecallErrorData.t) :
  BasecallErrorCounts.merge this ∅ = this ∧ BasecallErrorCounts.merge ∅ this = this.
Proof. split; [apply merge_empty_r|apply merge_empty_l]. Qed.

(** X4.  After a sequence of calls on an object without context, the object
    has an entry for exactly the contexts the calls name, and each of the
    four skip counters of a context holds the number of calls of its skip
    function for that context, as a [uint64_t]. *)
Theorem runAll_skip_counters {Ctx : Type} `{Countable Ctx}
    `{IntegerLogCompressor} `{StrandOrder}
    (calls : list (BasecallErrorCountsCall.t (BasecallErrorContext := Ctx)))
    (context : Ctx) :
  let d := default BasecallErrorData.empty
             (BasecallErrorCountsCall.runAll calls ∅ !! context) in
  (is_Some (BasecallErrorCountsCall.runAll calls ∅ !! context)
   ↔ ∃ c, c ∈ calls ∧ BasecallErrorCountsCall.context c = context)
  ∧ BasecallErrorData.excludedRegionSkipped d
    = BasecallErrorCountsCall.occurrences
        (BasecallErrorCountsCall.AddExcludedRegionSkip context) calls
  ∧ BasecallErrorData.depthSkipped d
    = BasecallErrorCountsCall.occurrences (BasecallErrorCountsCall.AddDepthSkip context) calls
  ∧ BasecallErrorData.emptySkipped d
    = BasecallErrorCountsCall.occurrences (BasecallErrorCountsCall.AddEmptySkip context) calls
  ∧ BasecallErrorData.noiseSkipped d
    = BasecallErrorCountsCall.occurrences (BasecallErrorCountsCall.AddNoiseSkip context) calls.
Proof. apply runAll_counters. Qed.


(** ** The content of the export *)

Section ExportContent.
Implicit Types (qualIndex : gmap Z nat) (si : StrandBasecallCounts.t) (levels : list Z).

Lemma indexLevels_positions_fold (l : list Z) qualIndex (out : list Z) :
  NoDup (out ++ l) → indexOf qualIndex out →
  ∃ qualIndex',
    foldl (λ '(qualIndex, out) qual, (<[qual := length out]> qualIndex, out ++ [qual]))
          (qualIndex, out) l = (qualIndex', out ++ l)
    ∧ indexOf qualIndex' (out ++ l).
Proof.
  revert qualIndex out. induction l as [|x l IH]; intros qualIndex out Hnodup Hindex.
  - exists qualIndex. by rewrite app_nil_r.
  - cbn [foldl].
    destruct (IH (<[x := length out]> qualIndex) (out ++ [x])) as (qi' & Hfold & Hindex').
    + by rewrite <- app_assoc.
    + intros q i.
      assert (x ∉ out) as Hx.
      { apply NoDup_app in Hnodup as (_ & Hdisj & _). intros Hin.
        apply (Hdisj x Hin). by left. }
      destruct (decide (q = x)) as [->|Hq].
      * rewrite lookup_insert_eq. split.
        -- intros [= <-]. by rewrite lookup_app_r, Nat.sub_diag.
        -- intros Hlook. f_equal.
           destruct (decide (i < length out)%nat) as [Hlt|Hge].
           ++ rewrite lookup_app_l in Hlook by done.
              exfalso. apply Hx. by eapply list_elem_of_lookup_2.
           ++ apply lookup_lt_Some in Hlook. rewrite length_app in Hlook.
              cbn [length] in Hlook. lia.
      * rewrite lookup_insert_ne by done. rewrite (Hindex q i). split.
        -- intros Hlook. rewrite lookup_app_l; [done|]. by eapply lookup_lt_Some.
        -- intros Hlook.
           destruct (decide (i < length out)%nat) as [Hlt|Hge].
           ++ by rewrite lookup_app_l in Hlook.
           ++ rewrite lookup_app_r in Hlook by lia.
              apply list_lookup_singleton_Some in Hlook as [_ ?]. congruence.
    + exists qi'. by rewrite Hfold, <- app_assoc in *.
Qed.

Lemma indexLevels_positions (l : list Z) :
  NoDup l →
  ∃ qualIndex,
    BasecallErrorContextObservationData.indexLevels l = (qualIndex, l)
    ∧ indexOf qualIndex l.
Proof.
  intros Hnodup.
  destruct (indexLevels_positions_fold l ∅ []) as (qi & Hfold & Hindex); [done| |].
  - intros q i. by rewrite lookup_empty, lookup_nil.
  - by exists qi.
Qed.

Lemma exportLevels_NoDup (this : BasecallErrorContextObservationData.t) :
  NoDup (BasecallErrorContextObservationData.exportLevels this).
Proof.
  unfold BasecallErrorContextObservationData.exportLevels.
  rewrite merge_sort_Permutation. apply NoDup_elements.
Qed.

Lemma StronglySorted_strict (l : list Z) :
  StronglySorted Z.le l → NoDup l → StronglySorted Z.lt l.
Proof.
  induction 1 as [|x l Hsorted IH Hall]; intros Hnodup; [constructor|].
  apply NoDup_cons in Hnodup as [Hx Hnodup].
  constructor; [by apply IH|].
  rewrite Forall_forall in Hall |- *. intros y Hy.
  specialize (Hall y Hy). assert (x ≠ y) by (intros ->; done). lia.
Qed.

Lemma exportLevels_sorted (this : BasecallErrorContextObservationData.t) :
  StronglySorted Z.lt (BasecallErrorContextObservationData.exportLevels this).
Proof.
  apply StronglySorted_strict; [|apply exportLevels_NoDup].
  unfold BasecallErrorContextObservationData.exportLevels.
  apply StronglySorted_merge_sort; apply _.
Qed.

(** the conversion of a strand, when it ends well *)
Lemma strand2ExportStrand_content levels qualIndex si se :
  indexOf qualIndex levels →
  BasecallErrorContextObservationData.strand2ExportStrand (length levels) qualIndex si
  = Done se →
  se = exportedStrand levels si.
Proof.
  intros Hindex.
  unfold BasecallErrorContextObservationData.strand2ExportStrand.
  match goal with |- context [map_fold ?f ?b _] =>
    assert (Hfold : ∀ alt,
              map_fold f b (StrandBasecallCounts.altAlleleCount si) = Done alt →
              alt = (λ qual, default 0 (StrandBasecallCounts.altAlleleCount si !! qual))
                      <$> levels);
    [ apply (map_fold_weak_ind
               (λ r m, ∀ alt, r = Done alt →
                              alt = (λ qual, default 0 (m !! qual)) <$> levels) f b) | ]
  end.
  - intros alt [= <-]. apply list_eq. intros i.
    rewrite list_lookup_fmap.
    destruct (levels !! i) as [q|] eqn:Ei; cbn.
    + rewrite lookup_empty. cbn. apply lookup_replicate_2. by eapply lookup_lt_Some.
    + apply lookup_replicate_None. by apply lookup_ge_None.
  - intros k x m r Hk IH alt Halt.
    destruct r as [se0| |]; cbn in Halt; try done.
    destruct (qualIndex !! k) as [j|] eqn:Ej; [|done].
    injection Halt as <-. rewrite (IH se0 eq_refl). clear IH.
    apply Hindex in Ej. apply list_eq. intros i. rewrite !list_lookup_fmap.
    destruct (decide (i = j)) as [->|Hij].
    + rewrite list_lookup_insert_eq
        by (rewrite length_fmap; by eapply lookup_lt_Some).
      rewrite Ej. cbn. by rewrite lookup_insert_eq.
    + rewrite list_lookup_insert_ne by done. rewrite list_lookup_fmap.
      destruct (levels !! i) as [q|] eqn:Ei; cbn; [|done].
      rewrite lookup_insert_ne; [done|]. intros <-.
      apply Hindex in Ei. apply Hindex in Ej. congruence.
  - destruct (map_fold _ _ _) as [alt| |] eqn:Efold; cbn; try done.
    intros [= <-]. unfold exportedStrand. f_equal. by apply Hfold.
Qed.

(** the conversion of a pattern, when it ends well *)
Lemma exportObservation_content levels qualIndex pattern count observations observations' :
  indexOf qualIndex levels →
  BasecallErrorContextObservationData.exportObservation
    (length levels) qualIndex pattern count observations = Done observations' →
  observations !! exportedPattern levels pattern = None
  ∧ observations' = <[exportedPattern levels pattern := count]> observations.
Proof.
  intros Hindex.
  unfold BasecallErrorContextObservationData.exportObservation,
    BasecallErrorContextObservation.getStrand0Counts,
    BasecallErrorContextObservation.getStrand1Counts.
  destruct (BasecallErrorContextObservationData.strand2ExportStrand _ _
              (BasecallErrorContextObservation.strand0 pattern)) as [e0| |] eqn:E0;
    cbn; try done.
  destruct (BasecallErrorContextObservationData.strand2ExportStrand _ _
              (BasecallErrorContextObservation.strand1 pattern)) as [e1| |] eqn:E1;
    cbn; try done.
  apply (strand2ExportStrand_content levels) in E0; [|done].
  apply (strand2ExportStrand_content levels) in E1; [|done].
  subst e0 e1. fold (exportedPattern levels pattern).
  destruct (observations !! exportedPattern levels pattern) eqn:Eobs; [done|].
  by intros [= <-].
Qed.

(** the loop over [data], when it ends well *)
Lemma exportLoop_content levels qualIndex
    (data : gmap BasecallErrorContextObservation.t Z) observations :
  indexOf qualIndex levels →
  map_fold
    (λ pattern count acc,
       obs ← acc ;;;
       BasecallErrorContextObservationData.exportObservation
         (length levels) qualIndex pattern count obs)
    (Done ∅) data = Done observations →
  (∀ obs count,
     observations !! obs = Some count
     ↔ ∃ pattern, data !! pattern = Some count ∧ obs = exportedPattern levels pattern)
  ∧ size observations = size data.
Proof.
  intros Hindex. revert observations.
  apply (map_fold_weak_ind
           (λ r m, ∀ observations, r = Done observations →
              (∀ obs count,
                 observations !! obs = Some count
                 ↔ ∃ pattern, m !! pattern = Some count
                              ∧ obs = exportedPattern levels pattern)
              ∧ size observations = size m)).
  - intros observations [= <-]. split; [|by rewrite !map_size_empty].
    intros obs count. rewrite lookup_empty. split; [done|].
    intros (pattern & Hlook & _). by rewrite lookup_empty in Hlook.
  - intros pattern x m r Hfresh IH observations Hdone.
    destruct r as [obs0| |]; cbn in Hdone; try done.
    destruct (IH obs0 eq_refl) as [IHobs IHsize]. clear IH.
    apply (exportObservation_content levels) in Hdone as [Hnew ->]; [|done].
    split.
    + intros obs count.
      destruct (decide (exportedPattern levels pattern = obs)) as [<-|Hobs].
      * rewrite lookup_insert_eq. split.
        -- intros [= <-]. exists pattern. by rewrite lookup_insert_eq.
        -- intros (p & Hlook & Hp).
           destruct (decide (pattern = p)) as [<-|Hne].
           ++ rewrite lookup_insert_eq in Hlook. congruence.
           ++ rewrite lookup_insert_ne in Hlook by done.
              assert (obs0 !! exportedPattern levels pattern = Some count) as Hold
                by (apply IHobs; eauto).
              congruence.
      * rewrite lookup_insert_ne by done. rewrite IHobs. split.
        -- intros (p & Hlook & Hp). exists p. split; [|done].
           rewrite lookup_insert_ne; [done|]. intros <-. congruence.
        -- intros (p & Hlook & Hp). exists p. split; [|done].
           rewrite lookup_insert_ne in Hlook; [done|]. intros <-. congruence.
    + rewrite !map_size_insert_None by done. by rewrite IHsize.
Qed.

End ExportContent.

(** X5.  When [getExportData] produces a result, the exported quality levels
    are exactly the levels of the reference counts, in strictly increasing
    order,
    [refCount] holds the reference count of each level at the position of
    the level, and the exported observations are the aggregated patterns
    with their instance counts, each strand with its reference count and
    with the alt counts laid out by position of level, zero for a level
    without alt call; no two patterns share an exported form. *)
Theorem getExportData_content (this : BasecallErrorContextObservationData.t)
    (exportData : BasecallErrorContextObservationExportData.t) :
  BasecallErrorContextObservationData.getExportData this = Done exportData →
  let levels :=
    BasecallErrorContextObservationExportData.altAlleleBasecallErrorPhredProbLevels
      exportData in
  (∀ qual : Z,
     qual ∈ levels
     ↔ is_Some (BasecallErrorContextObservationData.refAlleleBasecallErrorPhredProbs this
                  !! qual))
  ∧ StronglySorted Z.lt levels
  ∧ BasecallErrorContextObservationExportData.refCount exportData
    = (λ qual, default 0
                 (BasecallErrorContextObservationData.refAlleleBasecallErrorPhredProbs this
                    !! qual)) <$> levels
  ∧ (∀ obs count,
       BasecallErrorContextObservationExportData.observations exportData !! obs = Some count
       ↔ ∃ pattern,
           BasecallErrorContextObservationData.data this !! pattern = Some count
           ∧ obs = exportedPattern levels pattern)
  ∧ size (BasecallErrorContextObservationExportData.observations exportData)
    = size (BasecallErrorContextObservationData.data this).
Proof.
  intros Hdone levels.
  destruct (indexLevels_positions (BasecallErrorContextObservationData.exportLevels this)
              (exportLevels_NoDup this)) as (qualIndex & Hindex & Hpos).
  unfold BasecallErrorContextObservationData.getExportData in Hdone.
  rewrite Hindex in Hdone.
  destruct (map_fold _ _ _) as [obs| |] eqn:Efold; cbn in Hdone; try done.
  injection Hdone as <-. unfold levels.
  cbn [BasecallErrorContextObservationExportData.altAlleleBasecallErrorPhredProbLevels
       BasecallErrorContextObservationExportData.refCount
       BasecallErrorContextObservationExportData.observations].
  destruct (exportLoop_content _ _ _ _ Hpos Efold) as [Hobs Hsize].
  split_and!; [apply exportLevels_elem|apply exportLevels_sorted| |done|done].
  unfold BasecallErrorContextObservationData.exportRefCount.
  apply list_fmap_ext. intros _ q _. by destruct (_ !! q).
Qed.

Lemma getExportData_content_witness :
  let levels := [20; 30] in
  let exportData :=
    BasecallErrorContextObservationExportData.mk [20; 30] [5; 34]
      {[ BasecallErrorContextObservationExportObservation.mk
           (BasecallErrorContextObservationExportStrandObservation.mk 20 [1; 0])
           (BasecallErrorContextObservationExportStrandObservation.mk 14 [0; 0]) := 1 ]} in
  (∀ qual : Z,
     qual ∈ levels
     ↔ is_Some (BasecallErrorContextObservationData.refAlleleBasecallErrorPhredProbs
                  Scenario.sharedLevels !! qual))
  ∧ StronglySorted Z.lt levels
  ∧ BasecallErrorContextObservationExportData.refCount exportData
    = (λ qual, default 0
                 (BasecallErrorContextObservationData.refAlleleBasecallErrorPhredProbs
                    Scenario.sharedLevels !! qual)) <$> levels
  ∧ (∀ obs count,
       BasecallErrorContextObservationExportData.observations exportData !! obs = Some count
       ↔ ∃ pattern,
           BasecallErrorContextObservationData.data Scenario.sharedLevels !! pattern
           = Some count
           ∧ obs = exportedPattern levels pattern)
  ∧ size (BasecallErrorContextObservationExportData.observations exportData)
    = size (BasecallErrorContextObservationData.data Scenario.sharedLevels).
Proof.
  apply (getExportData_content Scenario.sharedLevels
           (BasecallErrorContextObservationExportData.mk [20; 30] [5; 34]
              {[ BasecallErrorContextObservationExportObservation.mk
                   (BasecallErrorContextObservationExportStrandObservation.mk 20 [1; 0])
                   (BasecallErrorContextObservationExportStrandObservation.mk 14 [0; 0])
                 := 1 ]})).
  by vm_compute.
Defined.


Lemma mergeMapKeys_is_Some `{Countable K} (m1 m2 : gmap K Z) (k : K) :
  is_Some (mergeMapKeys add64 m1 m2 !! k) ↔ is_Some (m1 !! k) ∨ is_Some (m2 !! k).
Proof.
  rewrite lookup_mergeMapKeys.
  destruct (m1 !! k), (m2 !! k); cbn; split; eauto.
  intros [[? [=]]|[? [=]]].
Qed.

Lemma coveredPattern_mono {I J : Type} (index1 : gmap Z I) (index2 : gmap Z J)
    (pattern : BasecallErrorContextObservation.t) :
  (∀ q, is_Some (index1 !! q) → is_Some (index2 !! q)) →
  coveredPattern index1 pattern → coveredPattern index2 pattern.
Proof.
  intros Hsub [H0 H1]. split; intros q Hq; apply Hsub; [by apply H0|by apply H1].
Qed.

(** [compressCounts] keeps the quality levels of the alt counts *)
Lemma compressCounts_alt_levels `{IntegerLogCompressor} `{StrandOrder}
    (o : BasecallErrorContextObservation.t) (q : Z) :
  let c := BasecallErrorContextObservation.compressCounts o in
  is_Some (StrandBasecallCounts.altAlleleCount (BasecallErrorContextObservation.strand0 c)
             !! q)
  ∨ is_Some (StrandBasecallCounts.altAlleleCount (BasecallErrorContextObservation.strand1 c)
               !! q)
  ↔ is_Some (StrandBasecallCounts.altAlleleCount (BasecallErrorContextObservation.strand0 o)
               !! q)
    ∨ is_Some (StrandBasecallCounts.altAlleleCount (BasecallErrorContextObservation.strand1 o)
                 !! q).
Proof.
  unfold BasecallErrorContextObservation.compressCounts,
    BasecallErrorContextObservation.sumToStrand0, StrandBasecallCounts.compressCounts.
  destruct (BasecallErrorContextObservation.noAlts o); cbn;
    destruct (strand_lt _ _); cbn; rewrite !lookup_fmap, !fmap_is_Some; tauto.
Qed.

(** X6.  The condition under which [getExportData] dereferences no end
    iterator, every alt level of every aggregated pattern being a level of
    the reference counts, holds for counts without observation, is kept by
    [merge], and is kept by [addObservation] for a site whose alt levels all
    have a reference call of the site. *)
Theorem exportable_preserved `{IntegerLogCompressor} `{StrandOrder} :
  exportable BasecallErrorContextObservationData.empty
  ∧ (∀ (obs : BasecallErrorContextInputObservation.t)
       (this : BasecallErrorContextObservationData.t),
       exportable this → altLevelsHaveReferenceCalls obs →
       exportable (BasecallErrorContextObservationData.addObservation obs this))
  ∧ (∀ this inp : BasecallErrorContextObservationData.t,
       exportable this → exportable inp →
       exportable (BasecallErrorContextObservationData.merge this inp)).
Proof.
  split_and!.
  - intros pattern count. cbn. by rewrite lookup_empty.
  - intros obs this Hthis Hobs pattern count.
    unfold BasecallErrorContextObservationData.addObservation.
    cbn [BasecallErrorContextObservationData.data
         BasecallErrorContextObservationData.refAlleleBasecallErrorPhredProbs].
    rewrite lookup_iterateMapValue. case_decide as Hp.
    + intros _. subst pattern.
      unfold BasecallErrorContextObservationData.compressedObservation.
      set (o := BasecallErrorContextObservationData.rawObservation obs).
      pose proof (compressCounts_alt_levels o) as Hlevels. cbv zeta in Hlevels.
      assert (∀ q,
                is_Some (StrandBasecallCounts.altAlleleCount
                           (BasecallErrorContextObservation.strand0 o) !! q)
                ∨ is_Some (StrandBasecallCounts.altAlleleCount
                             (BasecallErrorContextObservation.strand1 o) !! q) →
                is_Some (mergeMapKeys add64 (BasecallErrorContextInputObservation.ref obs).2
                           (mergeMapKeys add64 (BasecallErrorContextInputObservation.ref obs).1
                              (BasecallErrorContextObservationData.refAlleleBasecallErrorPhredProbs
                                 this)) !! q)) as Hcov.
      { intros q Hq. rewrite !mergeMapKeys_is_Some.
        destruct (Hobs q Hq); tauto. }
      split; intros q Hq; apply Hcov, Hlevels; tauto.
    + intros Hlook. eapply coveredPattern_mono; [|by eapply Hthis].
      intros q Hq. rewrite !mergeMapKeys_is_Some. tauto.
  - intros this inp Hthis Hinp pattern count.
    unfold BasecallErrorContextObservationData.merge.
    cbn [BasecallErrorContextObservationData.data
         BasecallErrorContextObservationData.refAlleleBasecallErrorPhredProbs].
    intros Hlook.
    assert (is_Some (BasecallErrorContextObservationData.data inp !! pattern)
            ∨ is_Some (BasecallErrorContextObservationData.data this !! pattern))
      as [[c Hc]|[c Hc]] by (apply mergeMapKeys_is_Some; eauto).
    + eapply coveredPattern_mono; [|by eapply Hinp].
      intros q Hq. rewrite mergeMapKeys_is_Some. tauto.
    + eapply coveredPattern_mono; [|by eapply Hthis].
      intros q Hq. rewrite mergeMapKeys_is_Some. tauto.
Qed.


(** ** The counts of a site *)

Lemma add32_swap (a b c : Z) : add32 (add32 a b) c = add32 (add32 a c) b.
Proof.
  unfold add32. rewrite !Zplus_mod_idemp_l. f_equal. lia.
Qed.

Lemma sumCounts_insert (m : gmap Z Z) (k v : Z) :
  m !! k = None →
  BasecallErrorContextObservationData.sumCounts (<[k := v]> m)
  = add32 (BasecallErrorContextObservationData.sumCounts m) v.
Proof.
  intros Hk. unfold BasecallErrorContextObservationData.sumCounts.
  rewrite map_fold_insert_L; [done| |done].
  intros j1 j2 z1 z2 y _ _ _. apply add32_swap.
Qed.

Lemma sumCounts_delete (m : gmap Z Z) (k v : Z) :
  m !! k = Some v →
  BasecallErrorContextObservationData.sumCounts m
  = add32 (BasecallErrorContextObservationData.sumCounts (delete k m)) v.
Proof.
  intros Hk. unfold BasecallErrorContextObservationData.sumCounts.
  rewrite (map_fold_delete_L _ _ k v m); [done| |done].
  intros j1 j2 z1 z2 y _ _ _. apply add32_swap.
Qed.

(** one more call at a level raises the total of the calls by one *)
Lemma sumCounts_iterateMapValue (m : gmap Z Z) (k : Z) :
  BasecallErrorContextObservationData.sumCounts (iterateMapValue add32 m k 1)
  = add32 (BasecallErrorContextObservationData.sumCounts m) 1.
Proof.
  unfold iterateMapValue. destruct (m !! k) as [v|] eqn:Ek.
  - rewrite <- (insert_delete_eq m k (add32 v 1)).
    rewrite sumCounts_insert by apply lookup_delete_eq.
    rewrite (sumCounts_delete m k v Ek).
    unfold add32. rewrite !Zplus_mod_idemp_l, !Zplus_mod_idemp_r. f_equal. lia.
  - by apply sumCounts_insert.
Qed.

(** X7.  A call of [addRefCount] raises by one, as an [unsigned], the total
    of the reference calls that [addObservation] computes for the strand of
    the call, whatever the quality level; the other strand and the alt
    counts stay as they are.  A call of [addAltCount] raises by one the alt
    count of its strand at its quality level, a level without count counting
    as zero, and changes nothing else. *)
Theorem addRefCount_addAltCount_counts (isFwdStrand : bool) (basecallErrorPhredProb : Z)
    (obs : BasecallErrorContextInputObservation.t) :
  let withRef :=
    BasecallErrorContextInputObservation.addRefCount isFwdStrand basecallErrorPhredProb obs in
  let withAlt :=
    BasecallErrorContextInputObservation.addAltCount isFwdStrand basecallErrorPhredProb obs in
  let strand {A} (isFwd : bool) (a : A * A) :=
    BasecallErrorContextInputObservation.strand isFwd a in
  (BasecallErrorContextObservationData.sumCounts
     (strand isFwdStrand (BasecallErrorContextInputObservation.ref withRef))
   = add32 (BasecallErrorContextObservationData.sumCounts
              (strand isFwdStrand (BasecallErrorContextInputObservation.ref obs))) 1
   ∧ strand (negb isFwdStrand) (BasecallErrorContextInputObservation.ref withRef)
     = strand (negb isFwdStrand) (BasecallErrorContextInputObservation.ref obs)
   ∧ BasecallErrorContextInputObservation.alt withRef
     = BasecallErrorContextInputObservation.alt obs)
  ∧ ((∀ q : Z,
        strand isFwdStrand (BasecallErrorContextInputObservation.alt withAlt) !! q
        = if decide (basecallErrorPhredProb = q)
          then Some (add32 (default 0
                              (strand isFwdStrand
                                 (BasecallErrorContextInputObservation.alt obs) !! q)) 1)
          else strand isFwdStrand (BasecallErrorContextInputObservation.alt obs) !! q)
     ∧ strand (negb isFwdStrand) (BasecallErrorContextInputObservation.alt withAlt)
       = strand (negb isFwdStrand) (BasecallErrorContextInputObservation.alt obs)
     ∧ BasecallErrorContextInputObservation.ref withAlt
       = BasecallErrorContextInputObservation.ref obs).
Proof.
  intros withRef withAlt strand.
  unfold withRef, withAlt, strand, BasecallErrorContextInputObservation.addRefCount,
    BasecallErrorContextInputObservation.addAltCount,
    BasecallErrorContextInputObservation.strand,
    BasecallErrorContextInputObservation.setStrand.
  cbn [BasecallErrorContextInputObservation.ref BasecallErrorContextInputObservation.alt].
  split_and!; try (by destruct isFwdStrand).
  - destruct isFwdStrand; cbn [fst snd negb]; apply sumCounts_iterateMapValue.
  - intros q.
    destruct isFwdStrand; cbn [fst snd negb]; rewrite lookup_iterateMapValue;
      case_decide as Hq; try done; subst q;
      by destruct (_ !! basecallErrorPhredProb).
Qed.


(** ** The site caller on any number of samples *)

Section SiteCaller.
Context {D : Type} `{DoubleOps D}.
Implicit Types (opt : starling_base_options.t D) (calls : list base_call.t)
  (locusInfo : GermlineContinuousSiteLocusInfo.t D).

Lemma poisson_qscore_le_cap (callCount coverage quality maxQScore : Z) :
  starling_continuous_variant_caller.poisson_qscore callCount coverage quality maxQScore
  ≤ maxQScore.
Proof.
  unfold starling_continuous_variant_caller.poisson_qscore.
  destruct (d_leb _ _); lia.
Qed.

(** a turn of the loop over the samples when the allele is reported *)
Lemma sampleTurn_reported_once opt calls locusInfo (totalDepth ref_base_id base_id : Z)
    (isForcedOutput : bool) (s : LocusSampleInfo.t)
    done (a : GermlineContinuousSiteAlleleInfo.t D) (b snp : bool) out :
  aboveThreshold opt totalDepth locusInfo base_id || isForcedOutput = true →
  let record := baseRecord opt calls totalDepth ref_base_id locusInfo base_id in
  (a = record ∨ a = GermlineContinuousSiteAlleleInfo.mk totalDepth
                      (GermlineContinuousSiteLocusInfo.alleleObservationCounts
                         locusInfo base_id) base_id 0 (d_of_Z 0)) →
  starling_continuous_variant_caller.sampleTurn opt calls locusInfo totalDepth
    ref_base_id base_id isForcedOutput
    (starling_continuous_variant_caller.mkAlleleLoop done a b snp out) s
  = starling_continuous_variant_caller.mkAlleleLoop
      (done ++ [LocusSampleInfo.mk (baseScore opt totalDepth locusInfo base_id)])
      record true
      (if ref_base_id =? base_id then snp
       else snp || aboveThreshold opt totalDepth locusInfo base_id)
      (out ++ [record]).
Proof.
  intros Hcond record Ha.
  unfold starling_continuous_variant_caller.sampleTurn.
  fold (aboveThreshold opt totalDepth locusInfo base_id). rewrite Hcond.
  unfold record, baseRecord, baseScore in *.
  destruct (ref_base_id =? base_id) eqn:Eref; cbn [negb].
  - by destruct Ha as [->| ->].
  - destruct (starling_continuous_variant_caller.strandTally calls base_id)
      as [[[fwdAlt revAlt] fwdOther] revOther].
    by destruct Ha as [->| ->].
Qed.

(** the loop over the samples when the allele is reported: every turn
    writes the same score and pushes the same record *)
Lemma sampleTurn_reported opt calls locusInfo (totalDepth ref_base_id base_id : Z)
    (isForcedOutput : bool) (samples : list LocusSampleInfo.t) :
  aboveThreshold opt totalDepth locusInfo base_id || isForcedOutput = true →
  let record := baseRecord opt calls totalDepth ref_base_id locusInfo base_id in
  let q := baseScore opt totalDepth locusInfo base_id in
  ∀ done (a : GermlineContinuousSiteAlleleInfo.t D) (b snp : bool) out,
    (a = record ∨ a = GermlineContinuousSiteAlleleInfo.mk totalDepth
                        (GermlineContinuousSiteLocusInfo.alleleObservationCounts
                           locusInfo base_id) base_id 0 (d_of_Z 0)) →
    foldl (starling_continuous_variant_caller.sampleTurn opt calls locusInfo totalDepth
             ref_base_id base_id isForcedOutput)
          (starling_continuous_variant_caller.mkAlleleLoop done a b snp out) samples
    = starling_continuous_variant_caller.mkAlleleLoop
        (done ++ ((λ _, LocusSampleInfo.mk q) <$> samples))
        (if samples is [] then a else record)
        (b || negb (bool_decide (samples = [])))
        (if (ref_base_id =? base_id) || bool_decide (samples = []) then snp
         else snp || aboveThreshold opt totalDepth locusInfo base_id)
        (out ++ replicate (length samples) record).
Proof.
  intros Hcond record q. induction samples as [|s samples IH]; intros done a b snp out Ha.
  - cbn [foldl fmap list_fmap length replicate]. rewrite !app_nil_r.
    rewrite bool_decide_eq_true_2 by done. cbn [negb]. by rewrite !orb_true_r, orb_false_r.
  - cbn [foldl]. rewrite sampleTurn_reported_once by done.
    fold record. fold q. rewrite IH by (by left).
    rewrite (bool_decide_eq_false_2 (s :: samples = [])) by done. cbn [negb orb].
    rewrite orb_true_r, orb_false_r. cbn [fmap list_fmap length replicate].
    rewrite <- !app_assoc. cbn [app].
    f_equal.
    + by destruct samples.
    + destruct (ref_base_id =? base_id); cbn [orb]; [by destruct (bool_decide _)|].
      destruct (bool_decide (samples = [])); [done|].
      by rewrite <- orb_assoc, orb_diag.
Qed.

(** the loop over the samples when the allele is not reported *)
Lemma sampleTurn_skipped opt calls locusInfo (totalDepth ref_base_id base_id : Z)
    (isForcedOutput : bool) (samples : list LocusSampleInfo.t) :
  aboveThreshold opt totalDepth locusInfo base_id || isForcedOutput = false →
  ∀ done (a : GermlineContinuousSiteAlleleInfo.t D) (snp : bool) out,
    foldl (starling_continuous_variant_caller.sampleTurn opt calls locusInfo totalDepth
             ref_base_id base_id isForcedOutput)
          (starling_continuous_variant_caller.mkAlleleLoop done a false snp out) samples
    = starling_continuous_variant_caller.mkAlleleLoop (done ++ samples) a false snp out.
Proof.
  intros Hcond. induction samples as [|s samples IH]; intros done a snp out.
  - cbn [foldl]. by rewrite app_nil_r.
  - cbn [foldl]. unfold starling_continuous_variant_caller.sampleTurn at 2.
    fold (aboveThreshold opt totalDepth locusInfo base_id). rewrite Hcond.
    cbn [starling_continuous_variant_caller.isOutputAllele
         starling_continuous_variant_caller.allele
         starling_continuous_variant_caller.samplesDone
         starling_continuous_variant_caller.is_snp
         starling_continuous_variant_caller.outAlleles].
    rewrite IH. by rewrite <- app_assoc.
Qed.

(** [generateAlleleInfo] on any number of samples: a base that is reported
    gets its record once for each sample, and every sample gets its score *)
Lemma generateAlleleInfo_cases opt calls (totalDepth ref_base_id base_id : Z)
    (isForcedOutput : bool) locusInfo :
  let samples := GermlineContinuousSiteLocusInfo.samples locusInfo in
  starling_continuous_variant_caller.generateAlleleInfo
    opt calls totalDepth ref_base_id base_id isForcedOutput locusInfo
  = if aboveThreshold opt totalDepth locusInfo base_id || isForcedOutput then
      GermlineContinuousSiteLocusInfo.mk
        (GermlineContinuousSiteLocusInfo.spanning_deletions locusInfo)
        (GermlineContinuousSiteLocusInfo.alleleObservationCounts locusInfo)
        (GermlineContinuousSiteLocusInfo.ref locusInfo)
        (GermlineContinuousSiteLocusInfo.isForcedOutput locusInfo)
        (if (ref_base_id =? base_id) || bool_decide (samples = [])
         then GermlineContinuousSiteLocusInfo._is_snp locusInfo
         else GermlineContinuousSiteLocusInfo._is_snp locusInfo
              || aboveThreshold opt totalDepth locusInfo base_id)
        (GermlineContinuousSiteLocusInfo.altAlleles locusInfo
           ++ replicate (length samples)
                (baseRecord opt calls totalDepth ref_base_id locusInfo base_id))
        ((λ _, LocusSampleInfo.mk (baseScore opt totalDepth locusInfo base_id)) <$> samples)
        (GermlineContinuousSiteLocusInfo.anyVariantAlleleQuality locusInfo)
    else locusInfo.
Proof.
  intros samples. unfold starling_continuous_variant_caller.generateAlleleInfo.
  fold samples.
  destruct (aboveThreshold opt totalDepth locusInfo base_id || isForcedOutput) eqn:Hcond.
  - rewrite sampleTurn_reported by (done || by right). reflexivity.
  - rewrite sampleTurn_skipped by done. cbn. by destruct locusInfo.
Qed.
End SiteCaller.


Section SiteCaller2.
Context {D : Type} `{DoubleOps D}.
Implicit Types (opt : starling_base_options.t D) (calls : list base_call.t)
  (locusInfo : GermlineContinuousSiteLocusInfo.t D).

Lemma aboveThreshold_counts opt (totalDepth : Z) locusInfo l' base_id :
  GermlineContinuousSiteLocusInfo.alleleObservationCounts l'
  = GermlineContinuousSiteLocusInfo.alleleObservationCounts locusInfo →
  aboveThreshold opt totalDepth l' base_id = aboveThreshold opt totalDepth locusInfo base_id.
Proof. unfold aboveThreshold. by intros ->. Qed.

Lemma baseScore_counts opt (totalDepth : Z) locusInfo l' base_id :
  GermlineContinuousSiteLocusInfo.alleleObservationCounts l'
  = GermlineContinuousSiteLocusInfo.alleleObservationCounts locusInfo →
  baseScore opt totalDepth l' base_id = baseScore opt totalDepth locusInfo base_id.
Proof. unfold baseScore. by intros ->. Qed.

Lemma baseRecord_counts opt calls (totalDepth ref_base_id : Z) locusInfo l' base_id :
  GermlineContinuousSiteLocusInfo.alleleObservationCounts l'
  = GermlineContinuousSiteLocusInfo.alleleObservationCounts locusInfo →
  baseRecord opt calls totalDepth ref_base_id l' base_id
  = baseRecord opt calls totalDepth ref_base_id locusInfo base_id.
Proof. unfold baseRecord, baseScore. by intros ->. Qed.

Lemma baseScore_le_cap opt (totalDepth : Z) locusInfo base_id :
  baseScore opt totalDepth locusInfo base_id ≤ 40.
Proof. apply poisson_qscore_le_cap. Qed.

Lemma last_cons_default {A : Type} (l : list A) (a d : A) :
  List.last (a :: l) d = List.last l a.
Proof.
  revert a d. induction l as [|x l IH]; intros a d; [done|].
  change (List.last (a :: x :: l) d) with (List.last (x :: l) d).
  by rewrite !IH.
Qed.

Lemma fmap_const_twice {A B C : Type} (b : B) (c : C) (l : list A) :
  (λ _, c) <$> ((λ _, b) <$> l) = (λ _, c) <$> l.
Proof. induction l; [done|]. cbn. by f_equal. Qed.

(** the fields [generateAlleleInfo] leaves alone *)
Lemma generateAlleleInfo_frame opt calls (totalDepth ref_base_id base_id : Z)
    (isForcedOutput : bool) locusInfo :
  let l' := starling_continuous_variant_caller.generateAlleleInfo
              opt calls totalDepth ref_base_id base_id isForcedOutput locusInfo in
  GermlineContinuousSiteLocusInfo.spanning_deletions l'
  = GermlineContinuousSiteLocusInfo.spanning_deletions locusInfo
  ∧ GermlineContinuousSiteLocusInfo.alleleObservationCounts l'
    = GermlineContinuousSiteLocusInfo.alleleObservationCounts locusInfo
  ∧ GermlineContinuousSiteLocusInfo.ref l' = GermlineContinuousSiteLocusInfo.ref locusInfo
  ∧ GermlineContinuousSiteLocusInfo.isForcedOutput l'
    = GermlineContinuousSiteLocusInfo.isForcedOutput locusInfo
  ∧ GermlineContinuousSiteLocusInfo.anyVariantAlleleQuality l'
    = GermlineContinuousSiteLocusInfo.anyVariantAlleleQuality locusInfo.
Proof. done. Qed.

(** the loop over a list of bases *)
Lemma callBases_cases opt calls (totalDepth ref_base_id : Z) (bases : list Z) :
  ∀ locusInfo,
    let forced := GermlineContinuousSiteLocusInfo.isForcedOutput locusInfo in
    let samples := GermlineContinuousSiteLocusInfo.samples locusInfo in
    let reported :=
      List.filter (λ base_id, aboveThreshold opt totalDepth locusInfo base_id || forced) bases in
    let variants :=
      List.filter (λ base_id, negb (ref_base_id =? base_id)
                              && aboveThreshold opt totalDepth locusInfo base_id) bases in
    foldl (λ l base_id,
             starling_continuous_variant_caller.generateAlleleInfo opt calls totalDepth
               ref_base_id base_id (GermlineContinuousSiteLocusInfo.isForcedOutput l) l)
          locusInfo bases
    = GermlineContinuousSiteLocusInfo.mk
        (GermlineContinuousSiteLocusInfo.spanning_deletions locusInfo)
        (GermlineContinuousSiteLocusInfo.alleleObservationCounts locusInfo)
        (GermlineContinuousSiteLocusInfo.ref locusInfo)
        forced
        (GermlineContinuousSiteLocusInfo._is_snp locusInfo
         || negb (bool_decide (samples = [])) && negb (bool_decide (variants = [])))
        (GermlineContinuousSiteLocusInfo.altAlleles locusInfo
           ++ (reported ≫= λ base_id,
                 replicate (length samples)
                   (baseRecord opt calls totalDepth ref_base_id locusInfo base_id)))
        (match reported with
         | [] => samples
         | base_id :: rest =>
             (λ _, LocusSampleInfo.mk
                     (baseScore opt totalDepth locusInfo (List.last rest base_id)))
               <$> samples
         end)
        (GermlineContinuousSiteLocusInfo.anyVariantAlleleQuality locusInfo).
Proof.
  induction bases as [|b bases IH]; intros locusInfo forced samples reported variants.
  - cbn [foldl]. unfold reported, variants. cbn [List.filter mbind list_bind].
    rewrite app_nil_r, (bool_decide_eq_true_2 ([] = [])) by done.
    cbn [negb]. rewrite andb_false_r, orb_false_r. by destruct locusInfo.
  - cbn [foldl].
    pose proof (generateAlleleInfo_cases opt calls totalDepth ref_base_id b forced locusInfo)
      as Hl1.
    destruct (generateAlleleInfo_frame opt calls totalDepth ref_base_id b forced locusInfo)
      as (Hsp & Hcnt & Href & Hfo & Hq).
    fold forced. cbv zeta in Hl1. fold samples in Hl1.
    set (l1 := starling_continuous_variant_caller.generateAlleleInfo opt calls totalDepth
                 ref_base_id b forced locusInfo) in *.
    assert (∀ base_id, aboveThreshold opt totalDepth l1 base_id
                       = aboveThreshold opt totalDepth locusInfo base_id) as Habove
      by (intros; by apply aboveThreshold_counts).
    assert (∀ base_id, baseScore opt totalDepth l1 base_id
                       = baseScore opt totalDepth locusInfo base_id) as Hscore
      by (intros; by apply baseScore_counts).
    assert (∀ base_id, baseRecord opt calls totalDepth ref_base_id l1 base_id
                       = baseRecord opt calls totalDepth ref_base_id locusInfo base_id)
      as Hrecord by (intros; by apply baseRecord_counts).
    rewrite IH. clear IH. rewrite Hsp, Hcnt, Href, Hfo, Hq. fold forced.
    rewrite (List.filter_ext
               (λ base_id, aboveThreshold opt totalDepth l1 base_id || forced)
               (λ base_id, aboveThreshold opt totalDepth locusInfo base_id || forced))
      by (intros; by rewrite Habove).
    rewrite (List.filter_ext
               (λ base_id, negb (ref_base_id =? base_id)
                           && aboveThreshold opt totalDepth l1 base_id)
               (λ base_id, negb (ref_base_id =? base_id)
                           && aboveThreshold opt totalDepth locusInfo base_id))
      by (intros; by rewrite Habove).
    unfold reported, variants. cbn [List.filter].
    set (rep := List.filter (λ base_id, aboveThreshold opt totalDepth locusInfo base_id
                                        || forced) bases).
    set (var := List.filter (λ base_id, negb (ref_base_id =? base_id)
                                        && aboveThreshold opt totalDepth locusInfo base_id)
                            bases).
    assert ((rep ≫= λ base_id, replicate
               (length (GermlineContinuousSiteLocusInfo.samples l1))
               (baseRecord opt calls totalDepth ref_base_id l1 base_id))
            = rep ≫= λ base_id, replicate
               (length (GermlineContinuousSiteLocusInfo.samples l1))
               (baseRecord opt calls totalDepth ref_base_id locusInfo base_id)) as ->.
    { induction rep as [|r rep IHr]; [done|].
      rewrite !bind_cons. by rewrite Hrecord, IHr. }
    destruct (aboveThreshold opt totalDepth locusInfo b || forced) eqn:Hrep.
    + assert (GermlineContinuousSiteLocusInfo.samples l1
              = (λ _, LocusSampleInfo.mk (baseScore opt totalDepth locusInfo b)) <$> samples)
        as Hs by (by rewrite Hl1).
      assert (GermlineContinuousSiteLocusInfo.altAlleles l1
              = GermlineContinuousSiteLocusInfo.altAlleles locusInfo
                  ++ replicate (length samples)
                       (baseRecord opt calls totalDepth ref_base_id locusInfo b))
        as Ha by (by rewrite Hl1).
      assert (GermlineContinuousSiteLocusInfo._is_snp l1
              = if (ref_base_id =? b) || bool_decide (samples = [])
                then GermlineContinuousSiteLocusInfo._is_snp locusInfo
                else GermlineContinuousSiteLocusInfo._is_snp locusInfo
                     || aboveThreshold opt totalDepth locusInfo b)
        as Hsnp by (by rewrite Hl1).
      rewrite Hs, Ha, Hsnp. clear Hl1 Hs Ha Hsnp.
      rewrite length_fmap, bind_cons.
      rewrite <- app_assoc.
      f_equal.
      * destruct samples as [|s samples']; cbn [fmap list_fmap].
        -- rewrite !(bool_decide_eq_true_2 ([] = [])) by done. cbn [negb andb orb].
           by rewrite orb_true_r, !orb_false_r.
        -- rewrite !(bool_decide_eq_false_2 (_ :: _ = [])) by done.
           cbn [negb andb]. rewrite orb_false_r.
           destruct (ref_base_id =? b) eqn:Eref; cbn [negb andb orb]; [done|].
           destruct (aboveThreshold opt totalDepth locusInfo b) eqn:Eab.
           ++ rewrite (bool_decide_eq_false_2 (b :: var = [])) by done.
              cbn [negb]. by rewrite orb_true_r.
           ++ by rewrite orb_false_r.
      * destruct rep as [|r rep]; [done|].
        by rewrite fmap_const_twice, Hscore, last_cons_default.
    + assert (l1 = locusInfo) as -> by done.
      assert (aboveThreshold opt totalDepth locusInfo b = false) as ->
        by (by destruct (aboveThreshold _ _ _ _)).
      by rewrite andb_false_r.
Qed.

End SiteCaller2.


Section SiteCaller3.
Context {D : Type} `{DoubleOps D}.
Implicit Types (opt : starling_base_options.t D) (calls : list base_call.t)
  (locusInfo : GermlineContinuousSiteLocusInfo.t D).

Lemma callEveryBase_cases opt calls locusInfo :
  let totalDepth := starling_continuous_variant_caller.siteTotalDepth locusInfo in
  let ref_base_id := GermlineContinuousSiteLocusInfo.ref locusInfo in
  let samples := GermlineContinuousSiteLocusInfo.samples locusInfo in
  starling_continuous_variant_caller.callEveryBase opt calls locusInfo
  = GermlineContinuousSiteLocusInfo.mk
      (GermlineContinuousSiteLocusInfo.spanning_deletions locusInfo)
      (GermlineContinuousSiteLocusInfo.alleleObservationCounts locusInfo)
      ref_base_id
      (GermlineContinuousSiteLocusInfo.isForcedOutput locusInfo)
      (GermlineContinuousSiteLocusInfo._is_snp locusInfo
       || negb (bool_decide (samples = []))
          && negb (bool_decide (variantBases opt locusInfo = [])))
      (GermlineContinuousSiteLocusInfo.altAlleles locusInfo
         ++ (reportedBases opt locusInfo ≫= λ base_id,
               replicate (length samples)
                 (baseRecord opt calls totalDepth ref_base_id locusInfo base_id)))
      (match reportedBases opt locusInfo with
       | [] => samples
       | base_id :: rest =>
           (λ _, LocusSampleInfo.mk
                   (baseScore opt totalDepth locusInfo (List.last rest base_id)))
             <$> samples
       end)
      (GermlineContinuousSiteLocusInfo.anyVariantAlleleQuality locusInfo).
Proof.
  intros totalDepth ref_base_id samples.
  unfold starling_continuous_variant_caller.callEveryBase.
  fold totalDepth. fold ref_base_id.
  by rewrite callBases_cases.
Qed.

Lemma maxSampleQuality_const (q : Z) (samples : list LocusSampleInfo.t) :
  starling_continuous_variant_caller.maxSampleQuality
    ((λ _, LocusSampleInfo.mk q) <$> samples)
  = if bool_decide (samples = []) then 0 else Z.max 0 q.
Proof.
  unfold starling_continuous_variant_caller.maxSampleQuality.
  destruct samples as [|s samples]; [done|].
  rewrite (bool_decide_eq_false_2 (s :: samples = [])) by done.
  cbn [fmap list_fmap foldl LocusSampleInfo.gq].
  generalize (Z.le_max_r 0 q). generalize (Z.max 0 q). intros m Hm.
  induction samples as [|s' samples IH]; [done|].
  cbn [fmap list_fmap foldl LocusSampleInfo.gq].
  by rewrite Z.max_l.
Qed.

Lemma maxSampleQuality_nonneg (samples : list LocusSampleInfo.t) :
  0 ≤ starling_continuous_variant_caller.maxSampleQuality samples.
Proof.
  unfold starling_continuous_variant_caller.maxSampleQuality.
  assert (∀ m, 0 ≤ m →
            0 ≤ foldl (λ q sampleInfo, Z.max q (LocusSampleInfo.gq sampleInfo)) m samples)
    as Hfold; [|by apply Hfold].
  induction samples as [|s samples IH]; intros m Hm; [done|].
  cbn [foldl]. apply IH. lia.
Qed.

Lemma list_bind_nil {A B : Type} (f : A → list B) : [] ≫= f = [].
Proof. reflexivity. Qed.

Lemma bind_replicate_nil {A : Type} (bases : list Z) (f : Z → A) :
  (bases ≫= λ base_id, replicate 0 (f base_id)) = [].
Proof. induction bases as [|b bases IH]; [done|]. by rewrite bind_cons, IH. Qed.

(** [position_snp_call_continuous] on any locus *)
Lemma position_snp_call_continuous_cases opt calls locusInfo :
  let totalDepth := starling_continuous_variant_caller.siteTotalDepth locusInfo in
  let ref_base_id := GermlineContinuousSiteLocusInfo.ref locusInfo in
  let samples := GermlineContinuousSiteLocusInfo.samples locusInfo in
  let samples' :=
    if bool_decide (calledBases opt locusInfo = []) then samples
    else (λ _, LocusSampleInfo.mk (siteScore opt locusInfo)) <$> samples in
  starling_continuous_variant_caller.position_snp_call_continuous opt calls locusInfo
  = GermlineContinuousSiteLocusInfo.mk
      (GermlineContinuousSiteLocusInfo.spanning_deletions locusInfo)
      (GermlineContinuousSiteLocusInfo.alleleObservationCounts locusInfo)
      ref_base_id
      (GermlineContinuousSiteLocusInfo.isForcedOutput locusInfo)
      (GermlineContinuousSiteLocusInfo._is_snp locusInfo
       || negb (bool_decide (samples = []))
          && negb (bool_decide (variantBases opt locusInfo = [])))
      (GermlineContinuousSiteLocusInfo.altAlleles locusInfo
         ++ (calledBases opt locusInfo ≫= λ base_id,
               replicate (length samples)
                 (baseRecord opt calls totalDepth ref_base_id locusInfo base_id)))
      samples'
      (starling_continuous_variant_caller.maxSampleQuality samples').
Proof.
  intros totalDepth ref_base_id samples samples'.
  unfold starling_continuous_variant_caller.position_snp_call_continuous,
    starling_continuous_variant_caller.referenceCallIsForced.
  fold totalDepth. fold ref_base_id.
  remember (starling_continuous_variant_caller.callEveryBase opt calls locusInfo) as l1
    eqn:Hl1.
  rewrite callEveryBase_cases in Hl1.
  cbv zeta in Hl1. fold totalDepth ref_base_id samples in Hl1.
  unfold samples', siteScore, calledBases. fold totalDepth. fold ref_base_id.
  destruct (reportedBases opt locusInfo) as [|r rep] eqn:Erep.
  - (* no base is reported *)
    rewrite list_bind_nil, app_nil_r in Hl1.
    destruct (GermlineContinuousSiteLocusInfo.altAlleles locusInfo) as [|a0 alts] eqn:Ealts.
    + rewrite !(bool_decide_eq_true_2 ([] = [])) by done. cbn [andb].
      rewrite (bool_decide_eq_false_2 ([ref_base_id] = [])) by done.
      rewrite generateAlleleInfo_cases. rewrite orb_true_r.
      rewrite Z.eqb_refl. cbn [orb].
      rewrite (baseScore_counts _ _ locusInfo), (baseRecord_counts _ _ _ _ locusInfo)
        by (by rewrite Hl1).
      subst l1.
      cbn [GermlineContinuousSiteLocusInfo.spanning_deletions
           GermlineContinuousSiteLocusInfo.alleleObservationCounts
           GermlineContinuousSiteLocusInfo.ref
           GermlineContinuousSiteLocusInfo.isForcedOutput
           GermlineContinuousSiteLocusInfo._is_snp
           GermlineContinuousSiteLocusInfo.altAlleles
           GermlineContinuousSiteLocusInfo.samples
           GermlineContinuousSiteLocusInfo.anyVariantAlleleQuality length].
      rewrite (bool_decide_eq_true_2 (0%nat = 0%nat)) by done.
      cbn [GermlineContinuousSiteLocusInfo.spanning_deletions
           GermlineContinuousSiteLocusInfo.alleleObservationCounts
           GermlineContinuousSiteLocusInfo.ref
           GermlineContinuousSiteLocusInfo.isForcedOutput
           GermlineContinuousSiteLocusInfo._is_snp
           GermlineContinuousSiteLocusInfo.altAlleles
           GermlineContinuousSiteLocusInfo.samples
           GermlineContinuousSiteLocusInfo.anyVariantAlleleQuality length].
      rewrite bind_cons, list_bind_nil, app_nil_r. cbn [List.last app]. reflexivity.
    + subst l1.
      cbn [GermlineContinuousSiteLocusInfo.altAlleles length].
      rewrite (bool_decide_eq_false_2 (S _ = 0%nat)) by done.
      rewrite (bool_decide_eq_false_2 (a0 :: alts = [])) by done. cbn [andb].
      rewrite (bool_decide_eq_true_2 ([] = [])) by done.
      by rewrite list_bind_nil, app_nil_r.
  - (* some base is reported *)
    rewrite andb_false_r.
    rewrite (bool_decide_eq_false_2 (r :: rep = [])) by done.
    rewrite last_cons_default.
    destruct (bool_decide (length (GermlineContinuousSiteLocusInfo.altAlleles l1) = 0%nat))
      eqn:Eforced.
    + (* the forced call finds no sample *)
      apply bool_decide_eq_true in Eforced.
      assert (samples = []) as Hs.
      { rewrite Hl1 in Eforced. cbn [GermlineContinuousSiteLocusInfo.altAlleles] in Eforced.
        rewrite length_app, bind_cons, length_app, length_replicate in Eforced.
        destruct samples; [done|]. cbn [length] in Eforced. lia. }
      rewrite generateAlleleInfo_cases. rewrite orb_true_r.
      subst l1.
      cbn [GermlineContinuousSiteLocusInfo.spanning_deletions
           GermlineContinuousSiteLocusInfo.alleleObservationCounts
           GermlineContinuousSiteLocusInfo.ref
           GermlineContinuousSiteLocusInfo.isForcedOutput
           GermlineContinuousSiteLocusInfo._is_snp
           GermlineContinuousSiteLocusInfo.altAlleles
           GermlineContinuousSiteLocusInfo.samples
           GermlineContinuousSiteLocusInfo.anyVariantAlleleQuality].
      rewrite Hs. cbn [fmap list_fmap length replicate]. rewrite ?app_nil_r, Z.eqb_refl. reflexivity.
    + by subst l1.
Qed.

End SiteCaller3.

(** ** The scenario of the design document *)

Section SiteScenario.
Context {D : Type} `{DoubleOps D}.

(** the bases of the scenario's locus that a threshold lets through *)
Lemma scenario_aboveThreshold (min_het_vf : D) (min_qscore : Z) (noise_floor : D) (gq0 : Z)
    (base_id : Z) :
  aboveThreshold (starling_base_options.mk min_het_vf min_qscore noise_floor)
    (starling_continuous_variant_caller.siteTotalDepth (Scenario.siteLocusOf D gq0))
    (Scenario.siteLocusOf D gq0) base_id
  = d_ltb min_het_vf
      (starling_continuous_variant_caller.safeFrac (Scenario.siteCounts base_id) 100).
Proof. reflexivity. Qed.

Lemma scenario_bases (min_het_vf : D) (min_qscore : Z) (noise_floor : D) (gq0 : Z)
    (aboveRef aboveAlt aboveNone : bool) :
  d_ltb min_het_vf (starling_continuous_variant_caller.safeFrac 90 100) = aboveRef →
  d_ltb min_het_vf (starling_continuous_variant_caller.safeFrac 10 100) = aboveAlt →
  d_ltb min_het_vf (starling_continuous_variant_caller.safeFrac 0 100) = aboveNone →
  let opt := starling_base_options.mk min_het_vf min_qscore noise_floor in
  reportedBases opt (Scenario.siteLocusOf D gq0)
  = (if aboveRef then [0] else []) ++ (if aboveAlt then [1] else [])
    ++ (if aboveNone then [2; 3] else [])
  ∧ variantBases opt (Scenario.siteLocusOf D gq0)
    = (if aboveAlt then [1] else []) ++ (if aboveNone then [2; 3] else []).
Proof.
  intros Href Halt Hnone opt.
  unfold reportedBases, variantBases.
  change (seqZ 0 N_BASE) with [0; 1; 2; 3].
  cbn [List.filter GermlineContinuousSiteLocusInfo.isForcedOutput
       GermlineContinuousSiteLocusInfo.ref Scenario.siteLocusOf].
  unfold opt. rewrite !scenario_aboveThreshold.
  change (Scenario.siteCounts 0) with 90. change (Scenario.siteCounts 1) with 10.
  change (Scenario.siteCounts 2) with 0. change (Scenario.siteCounts 3) with 0.
  rewrite Href, Halt, Hnone.
  by destruct aboveRef, aboveAlt, aboveNone.
Qed.

End SiteScenario.

(** C8.  On the single-sample locus with depth 100, reference base count 90
    and one alternate base count 10: with a threshold that the fraction 0.1
    exceeds, as 0.05, the alternate allele is reported behind the reference
    allele, the locus is flagged as a SNP and the record of the alternate
    allele, like the sample, carries its quality score.  With a threshold
    that the fraction 0.9 exceeds and the fraction 0.1 does not, as 0.2, the
    alternate allele is not reported, the locus is not flagged, and the only
    record is the reference-only record with its score, so that the locus has
    a quality: record, flag, sample and quality are those that the forced
    call of the reference base gives, which is made for a threshold that no
    fraction exceeds, as 0.95.  The scores are those of [poisson_qscore],
    the strand bias is the one of [strand_bias], in any reading of
    [double]. *)
Theorem position_snp_call_continuous_scenario {D : Type} `{DoubleOps D}
    (calls : list base_call.t) (min_qscore : Z) (noise_floor : D) (gq0 : Z)
    (low mid top : D)
    (lowBelowRef :
       d_ltb low (starling_continuous_variant_caller.safeFrac 90 100) = true)
    (lowBelowAlt :
       d_ltb low (starling_continuous_variant_caller.safeFrac 10 100) = true)
    (lowNotBelowNone :
       d_ltb low (starling_continuous_variant_caller.safeFrac 0 100) = false)
    (midBelowRef :
       d_ltb mid (starling_continuous_variant_caller.safeFrac 90 100) = true)
    (midNotBelowAlt :
       d_ltb mid (starling_continuous_variant_caller.safeFrac 10 100) = false)
    (midNotBelowNone :
       d_ltb mid (starling_continuous_variant_caller.safeFrac 0 100) = false)
    (topNotBelowRef :
       d_ltb top (starling_continuous_variant_caller.safeFrac 90 100) = false)
    (topNotBelowAlt :
       d_ltb top (starling_continuous_variant_caller.safeFrac 10 100) = false)
    (topNotBelowNone :
       d_ltb top (starling_continuous_variant_caller.safeFrac 0 100) = false) :
  let q := min_qscore mod UINT32_MOD in
  let refScore := starling_continuous_variant_caller.poisson_qscore 90 100 q 40 in
  let altScore := starling_continuous_variant_caller.poisson_qscore 10 100 q 40 in
  let refRecord := GermlineContinuousSiteAlleleInfo.mk 100 90 0 refScore (d_of_Z 0) in
  let altRecord :=
    GermlineContinuousSiteAlleleInfo.mk 100 10 1 altScore
      (let '(fwdAlt, revAlt, fwdOther, revOther) :=
         starling_continuous_variant_caller.strandTally calls 1 in
       starling_continuous_variant_caller.strand_bias fwdAlt revAlt fwdOther revOther
         noise_floor) in
  let call (min_het_vf : D) :=
    starling_continuous_variant_caller.position_snp_call_continuous
      (starling_base_options.mk min_het_vf min_qscore noise_floor) calls
      (Scenario.siteLocusOf D gq0) in
  (GermlineContinuousSiteLocusInfo.altAlleles (call low) = [refRecord; altRecord]
   ∧ GermlineContinuousSiteLocusInfo._is_snp (call low) = true
   ∧ GermlineContinuousSiteLocusInfo.samples (call low) = [LocusSampleInfo.mk altScore]
   ∧ GermlineContinuousSiteLocusInfo.anyVariantAlleleQuality (call low)
     = Z.max 0 altScore)
  ∧ (GermlineContinuousSiteLocusInfo.altAlleles (call mid) = [refRecord]
     ∧ GermlineContinuousSiteLocusInfo._is_snp (call mid) = false
     ∧ GermlineContinuousSiteLocusInfo.samples (call mid) = [LocusSampleInfo.mk refScore]
     ∧ GermlineContinuousSiteLocusInfo.anyVariantAlleleQuality (call mid)
       = Z.max 0 refScore)
  ∧ (starling_continuous_variant_caller.referenceCallIsForced
       (starling_base_options.mk top min_qscore noise_floor) calls (Scenario.siteLocusOf D gq0)
     = true
     ∧ call mid = call top).
Proof.
  intros q refScore altScore refRecord altRecord call.
  destruct (scenario_bases low min_qscore noise_floor gq0 _ _ _
              lowBelowRef lowBelowAlt lowNotBelowNone) as [Hrl Hvl].
  destruct (scenario_bases mid min_qscore noise_floor gq0 _ _ _
              midBelowRef midNotBelowAlt midNotBelowNone) as [Hrm Hvm].
  destruct (scenario_bases top min_qscore noise_floor gq0 _ _ _
              topNotBelowRef topNotBelowAlt topNotBelowNone) as [Hrt Hvt].
  cbn [app] in Hrl, Hvl, Hrm, Hvm, Hrt, Hvt.
  assert (Hcall : ∀ (min_het_vf : D) (called : list Z) (variants : list Z),
            reportedBases (starling_base_options.mk min_het_vf min_qscore noise_floor)
              (Scenario.siteLocusOf D gq0) = called →
            variantBases (starling_base_options.mk min_het_vf min_qscore noise_floor)
              (Scenario.siteLocusOf D gq0) = variants →
            let opt := starling_base_options.mk min_het_vf min_qscore noise_floor in
            let bases := if bool_decide (called = []) then [0] else called in
            call min_het_vf
            = GermlineContinuousSiteLocusInfo.mk 0 Scenario.siteCounts 0 false
                (negb (bool_decide (variants = [])))
                (bases ≫= λ base_id, [baseRecord opt calls 100 0 (Scenario.siteLocusOf D gq0) base_id])
                [LocusSampleInfo.mk (baseScore opt 100 (Scenario.siteLocusOf D gq0)
                                       (List.last bases 0))]
                (Z.max 0 (baseScore opt 100 (Scenario.siteLocusOf D gq0) (List.last bases 0)))).
  { intros min_het_vf called variants Hcalled Hvariants opt bases.
    unfold call. rewrite position_snp_call_continuous_cases.
    unfold siteScore, calledBases. rewrite Hcalled, Hvariants. fold opt.
    change (starling_continuous_variant_caller.siteTotalDepth (Scenario.siteLocusOf D gq0)) with 100.
    cbn [GermlineContinuousSiteLocusInfo.altAlleles
         GermlineContinuousSiteLocusInfo.spanning_deletions
         GermlineContinuousSiteLocusInfo.alleleObservationCounts
         GermlineContinuousSiteLocusInfo.ref
         GermlineContinuousSiteLocusInfo.isForcedOutput
         GermlineContinuousSiteLocusInfo._is_snp
         GermlineContinuousSiteLocusInfo.samples Scenario.siteLocusOf length replicate
         fmap list_fmap app orb andb negb].
    rewrite (bool_decide_eq_true_2 ([] = [])) by done.
    rewrite (bool_decide_eq_false_2 ([LocusSampleInfo.mk gq0] = [])) by done.
    cbn [andb negb].
    fold bases.
    assert (bases ≠ []) as Hbases by (unfold bases; by case_bool_decide).
    rewrite (bool_decide_eq_false_2 _ Hbases).
    cbn [fmap list_fmap].
    reflexivity. }
  split_and!.
  - rewrite (Hcall low _ _ Hrl Hvl). reflexivity.
  - by rewrite (Hcall low _ _ Hrl Hvl).
  - by rewrite (Hcall low _ _ Hrl Hvl).
  - by rewrite (Hcall low _ _ Hrl Hvl).
  - rewrite (Hcall mid _ _ Hrm Hvm). reflexivity.
  - by rewrite (Hcall mid _ _ Hrm Hvm).
  - by rewrite (Hcall mid _ _ Hrm Hvm).
  - by rewrite (Hcall mid _ _ Hrm Hvm).
  - unfold starling_continuous_variant_caller.referenceCallIsForced.
    rewrite callEveryBase_cases. fold (Scenario.siteLocusOf D gq0).
    rewrite Hrt. reflexivity.
  - rewrite (Hcall mid _ _ Hrm Hvm), (Hcall top _ _ Hrt Hvt). reflexivity.
Qed.

Lemma position_snp_call_continuous_scenario_witness :
  let fraction (count : Z) : R := starling_continuous_variant_caller.safeFrac count 100 in
  let call (min_het_vf : R) :=
    starling_continuous_variant_caller.position_snp_call_continuous
      (starling_base_options.mk min_het_vf 20 0%R) [] (Scenario.siteLocusOf R 0) in
  (d_ltb (5 / 100)%R (fraction 90) = true ∧ d_ltb (5 / 100)%R (fraction 10) = true
   ∧ d_ltb (5 / 100)%R (fraction 0) = false)
  ∧ (d_ltb (2 / 10)%R (fraction 90) = true ∧ d_ltb (2 / 10)%R (fraction 10) = false
     ∧ d_ltb (2 / 10)%R (fraction 0) = false)
  ∧ (d_ltb (95 / 100)%R (fraction 90) = false ∧ d_ltb (95 / 100)%R (fraction 10) = false
     ∧ d_ltb (95 / 100)%R (fraction 0) = false)
  ∧ GermlineContinuousSiteAlleleInfo._base
      <$> GermlineContinuousSiteLocusInfo.altAlleles (call (5 / 100)%R) = [0; 1]
  ∧ GermlineContinuousSiteLocusInfo._is_snp (call (5 / 100)%R) = true
  ∧ GermlineContinuousSiteAlleleInfo._base
      <$> GermlineContinuousSiteLocusInfo.altAlleles (call (2 / 10)%R) = [0]
  ∧ GermlineContinuousSiteLocusInfo._is_snp (call (2 / 10)%R) = false
  ∧ call (2 / 10)%R = call (95 / 100)%R.
Proof.
  intros fraction call.
  assert (Hbelow : ∀ (t : R) (count : Z),
            (t < IZR count / 100)%R → d_ltb t (fraction count) = true).
  { intros t count Hlt. by apply bool_decide_eq_true_2. }
  assert (Hnot : ∀ (t : R) (count : Z),
            ¬ (t < IZR count / 100)%R → d_ltb t (fraction count) = false).
  { intros t count Hlt. by apply bool_decide_eq_false_2. }
  assert (Hl90 : d_ltb (5 / 100)%R (fraction 90) = true) by (apply Hbelow; lra).
  assert (Hl10 : d_ltb (5 / 100)%R (fraction 10) = true) by (apply Hbelow; lra).
  assert (Hl0 : d_ltb (5 / 100)%R (fraction 0) = false) by (apply Hnot; lra).
  assert (Hm90 : d_ltb (2 / 10)%R (fraction 90) = true) by (apply Hbelow; lra).
  assert (Hm10 : d_ltb (2 / 10)%R (fraction 10) = false) by (apply Hnot; lra).
  assert (Hm0 : d_ltb (2 / 10)%R (fraction 0) = false) by (apply Hnot; lra).
  assert (Ht90 : d_ltb (95 / 100)%R (fraction 90) = false) by (apply Hnot; lra).
  assert (Ht10 : d_ltb (95 / 100)%R (fraction 10) = false) by (apply Hnot; lra).
  assert (Ht0 : d_ltb (95 / 100)%R (fraction 0) = false) by (apply Hnot; lra).
  destruct (position_snp_call_continuous_scenario [] 20 0%R 0
              (5 / 100)%R (2 / 10)%R (95 / 100)%R
              Hl90 Hl10 Hl0 Hm90 Hm10 Hm0 Ht90 Ht10 Ht0)
    as ((Halleles & Hsnp & _) & (Halleles' & Hsnp' & _) & _ & Hforced).
  split_and!; try assumption.
  - unfold call. by rewrite Halleles.
  - unfold call. by rewrite Halleles'.
Defined.



(** X8.  The records of a site after [position_snp_call_continuous] are the
    records it had before, followed for each called base, in the order of the
    base ids, by one copy of the record of the base for every sample of the
    locus.  The called bases are the bases whose fraction of the depth
    exceeds [min_het_vf], all four bases when the output of the locus is
    forced, and the reference base alone when no base is reported and the
    locus had no record. *)
Theorem position_snp_call_continuous_records {D : Type} `{DoubleOps D}
    (opt : starling_base_options.t D) (calls : list base_call.t)
    (locusInfo : GermlineContinuousSiteLocusInfo.t D) :
  GermlineContinuousSiteLocusInfo.altAlleles
    (starling_continuous_variant_caller.position_snp_call_continuous opt calls locusInfo)
  = GermlineContinuousSiteLocusInfo.altAlleles locusInfo
      ++ (calledBases opt locusInfo ≫= λ base_id,
            replicate (length (GermlineContinuousSiteLocusInfo.samples locusInfo))
              (baseRecord opt calls
                 (starling_continuous_variant_caller.siteTotalDepth locusInfo)
                 (GermlineContinuousSiteLocusInfo.ref locusInfo) locusInfo base_id)).
Proof. by rewrite position_snp_call_continuous_cases. Qed.

(** X9.  [position_snp_call_continuous] never clears the SNP flag of a site,
    and raises it exactly when the locus has a sample and some base other
    than the reference base has a fraction of the depth above [min_het_vf]:
    neither forced output nor the forced call of the reference base raises
    it. *)
Theorem position_snp_call_continuous_flag {D : Type} `{DoubleOps D}
    (opt : starling_base_options.t D) (calls : list base_call.t)
    (locusInfo : GermlineContinuousSiteLocusInfo.t D) :
  GermlineContinuousSiteLocusInfo._is_snp
    (starling_continuous_variant_caller.position_snp_call_continuous opt calls locusInfo)
  = GermlineContinuousSiteLocusInfo._is_snp locusInfo
    || negb (bool_decide (GermlineContinuousSiteLocusInfo.samples locusInfo = []))
       && negb (bool_decide (variantBases opt locusInfo = [])).
Proof. by rewrite position_snp_call_continuous_cases. Qed.

(** X10.  On a locus without record, [position_snp_call_continuous] leaves
    every sample with the same [gq], the score of the called base with the
    highest id (not the best score among the called bases); that score is at
    most 40, and the quality of the locus is zero without sample and
    otherwise the larger of zero and that score. *)
Theorem position_snp_call_continuous_quality {D : Type} `{DoubleOps D}
    (opt : starling_base_options.t D) (calls : list base_call.t)
    (locusInfo : GermlineContinuousSiteLocusInfo.t D) :
  GermlineContinuousSiteLocusInfo.altAlleles locusInfo = [] →
  let called :=
    starling_continuous_variant_caller.position_snp_call_continuous opt calls locusInfo in
  GermlineContinuousSiteLocusInfo.samples called
  = (λ _, LocusSampleInfo.mk (siteScore opt locusInfo))
      <$> GermlineContinuousSiteLocusInfo.samples locusInfo
  ∧ siteScore opt locusInfo ≤ 40
  ∧ GermlineContinuousSiteLocusInfo.anyVariantAlleleQuality called
    = (if bool_decide (GermlineContinuousSiteLocusInfo.samples locusInfo = []) then 0
       else Z.max 0 (siteScore opt locusInfo))
  ∧ 0 ≤ GermlineContinuousSiteLocusInfo.anyVariantAlleleQuality called ≤ 40.
Proof.
  intros Halts called. unfold called.
  rewrite position_snp_call_continuous_cases.
  cbn [GermlineContinuousSiteLocusInfo.samples
       GermlineContinuousSiteLocusInfo.anyVariantAlleleQuality].
  assert (calledBases opt locusInfo ≠ []) as Hcalled.
  { unfold calledBases. rewrite Halts, (bool_decide_eq_true_2 ([] = [])) by done.
    cbn [andb]. by case_bool_decide. }
  rewrite (bool_decide_eq_false_2 _ Hcalled), maxSampleQuality_const.
  pose proof (baseScore_le_cap opt
                (starling_continuous_variant_caller.siteTotalDepth locusInfo) locusInfo
                (List.last (calledBases opt locusInfo)
                   (GermlineContinuousSiteLocusInfo.ref locusInfo))) as Hcap.
  fold (siteScore opt locusInfo) in Hcap.
  split_and!; [done|done|done| |]; case_bool_decide; lia.
Qed.

Lemma position_snp_call_continuous_quality_witness :
  let opt := Scenario.options (2 / 10)%R 20 0%R in
  let called :=
    starling_continuous_variant_caller.position_snp_call_continuous opt []
      (Scenario.siteLocus 7) in
  GermlineContinuousSiteLocusInfo.samples called
  = (λ _, LocusSampleInfo.mk (siteScore opt (Scenario.siteLocus 7)))
      <$> GermlineContinuousSiteLocusInfo.samples (Scenario.siteLocus 7)
  ∧ siteScore opt (Scenario.siteLocus 7) ≤ 40
  ∧ GermlineContinuousSiteLocusInfo.anyVariantAlleleQuality called
    = (if bool_decide (GermlineContinuousSiteLocusInfo.samples (Scenario.siteLocus 7) = [])
       then 0 else Z.max 0 (siteScore opt (Scenario.siteLocus 7)))
  ∧ 0 ≤ GermlineContinuousSiteLocusInfo.anyVariantAlleleQuality called ≤ 40.
Proof.
  apply (position_snp_call_continuous_quality (Scenario.options (2 / 10)%R 20 0%R) []
           (Scenario.siteLocus 7)).
  reflexivity.
Defined.

(** X11.  On a locus without sample [position_snp_call_continuous] adds no
    record, not even through the forced call of the reference base, keeps
    the SNP flag, and sets the quality of the locus to zero. *)
Theorem position_snp_call_continuous_no_sample {D : Type} `{DoubleOps D}
    (opt : starling_base_options.t D) (calls : list base_call.t)
    (locusInfo : GermlineContinuousSiteLocusInfo.t D) :
  GermlineContinuousSiteLocusInfo.samples locusInfo = [] →
  starling_continuous_variant_caller.position_snp_call_continuous opt calls locusInfo
  = GermlineContinuousSiteLocusInfo.mk
      (GermlineContinuousSiteLocusInfo.spanning_deletions locusInfo)
      (GermlineContinuousSiteLocusInfo.alleleObservationCounts locusInfo)
      (GermlineContinuousSiteLocusInfo.ref locusInfo)
      (GermlineContinuousSiteLocusInfo.isForcedOutput locusInfo)
      (GermlineContinuousSiteLocusInfo._is_snp locusInfo)
      (GermlineContinuousSiteLocusInfo.altAlleles locusInfo)
      [] 0.
Proof.
  intros Hs. rewrite position_snp_call_continuous_cases. rewrite Hs.
  rewrite (bool_decide_eq_true_2 ([] = [])) by done.
  cbn [negb andb length]. rewrite orb_false_r, bind_replicate_nil, app_nil_r.
  by case_bool_decide.
Qed.

Lemma position_snp_call_continuous_no_sample_witness :
  starling_continuous_variant_caller.position_snp_call_continuous
    (Scenario.options (2 / 10)%R 20 0%R) []
    (GermlineContinuousSiteLocusInfo.mk 0 Scenario.siteCounts 0 true false [] [] 5)
  = GermlineContinuousSiteLocusInfo.mk 0 Scenario.siteCounts 0 true false [] [] 0.
Proof.
  apply (position_snp_call_continuous_no_sample (Scenario.options (2 / 10)%R 20 0%R) []
           (GermlineContinuousSiteLocusInfo.mk 0 Scenario.siteCounts 0 true false [] [] 5)).
  reflexivity.
Defined.

(** X12.  When the output of a locus is forced, [position_snp_call_continuous]
    gives every one of the four bases its record, once for each sample. *)
Theorem position_snp_call_continuous_forced_output {D : Type} `{DoubleOps D}
    (opt : starling_base_options.t D) (calls : list base_call.t)
    (locusInfo : GermlineContinuousSiteLocusInfo.t D) :
  GermlineContinuousSiteLocusInfo.isForcedOutput locusInfo = true →
  calledBases opt locusInfo = seqZ 0 N_BASE
  ∧ length (GermlineContinuousSiteLocusInfo.altAlleles
              (starling_continuous_variant_caller.position_snp_call_continuous
                 opt calls locusInfo))
    = (length (GermlineContinuousSiteLocusInfo.altAlleles locusInfo)
       + 4 * length (GermlineContinuousSiteLocusInfo.samples locusInfo))%nat.
Proof.
  intros Hforced.
  assert (calledBases opt locusInfo = seqZ 0 N_BASE) as Hcalled.
  { unfold calledBases, reportedBases. rewrite Hforced.
    rewrite (List.filter_ext _ (λ _, true)) by (intros; apply orb_true_r).
    change (seqZ 0 N_BASE) with [0; 1; 2; 3]. cbn [List.filter].
    rewrite (bool_decide_eq_false_2 ([0; 1; 2; 3] = [])) by done.
    by rewrite andb_false_r. }
  split; [done|].
  rewrite position_snp_call_continuous_cases.
  cbn [GermlineContinuousSiteLocusInfo.altAlleles].
  rewrite Hcalled. change (seqZ 0 N_BASE) with [0; 1; 2; 3].
  rewrite !bind_cons, list_bind_nil, !length_app, !length_replicate.
  cbn [length]. lia.
Qed.

Lemma position_snp_call_continuous_forced_output_witness :
  let opt := Scenario.options (2 / 10)%R 20 0%R in
  let locusInfo :=
    GermlineContinuousSiteLocusInfo.mk 0 Scenario.siteCounts 0 true false []
      [LocusSampleInfo.mk 0; LocusSampleInfo.mk 0] 0 in
  calledBases opt locusInfo = seqZ 0 N_BASE
  ∧ length (GermlineContinuousSiteLocusInfo.altAlleles
              (starling_continuous_variant_caller.position_snp_call_continuous
                 opt [] locusInfo))
    = (0 + 4 * 2)%nat.
Proof.
  apply (position_snp_call_continuous_forced_output (Scenario.options (2 / 10)%R 20 0%R) []
           (GermlineContinuousSiteLocusInfo.mk 0 Scenario.siteCounts 0 true false []
              [LocusSampleInfo.mk 0; LocusSampleInfo.mk 0] 0)).
  reflexivity.
Defined.


Section IndelCaller.
Context {D : Type} `{DoubleOps D}.

(** the loop over the samples after [emplace_back] *)
Lemma scoreSamples_cases (q : Z) (samples : list LocusSampleInfo.t)
    (allele : GermlineContinuousIndelAlleleInfo.t) :
  starling_continuous_variant_caller.scoreSamples q samples allele
  = ((λ _, LocusSampleInfo.mk q) <$> samples,
     GermlineContinuousIndelAlleleInfo.mk
       (GermlineContinuousIndelAlleleInfo._totalDepth allele)
       (GermlineContinuousIndelAlleleInfo._indelDepth allele)
       (if bool_decide (samples = []) then GermlineContinuousIndelAlleleInfo.gqx allele
        else q)).
Proof.
  unfold starling_continuous_variant_caller.scoreSamples.
  assert (∀ done a,
            foldl (λ '(done, a) _,
                     (done ++ [LocusSampleInfo.mk q],
                      GermlineContinuousIndelAlleleInfo.mk
                        (GermlineContinuousIndelAlleleInfo._totalDepth a)
                        (GermlineContinuousIndelAlleleInfo._indelDepth a) q))
                  (done, a) samples
            = (done ++ ((λ _, LocusSampleInfo.mk q) <$> samples),
               GermlineContinuousIndelAlleleInfo.mk
                 (GermlineContinuousIndelAlleleInfo._totalDepth a)
                 (GermlineContinuousIndelAlleleInfo._indelDepth a)
                 (if bool_decide (samples = []) then GermlineContinuousIndelAlleleInfo.gqx a
                  else q))) as Hloop; [|by rewrite Hloop].
  induction samples as [|s samples IH]; intros done a.
  - cbn [foldl fmap list_fmap]. rewrite app_nil_r. by destruct a.
  - cbn [foldl]. rewrite IH.
    rewrite (bool_decide_eq_false_2 (s :: samples = [])) by done.
    cbn [fmap list_fmap GermlineContinuousIndelAlleleInfo._totalDepth
         GermlineContinuousIndelAlleleInfo._indelDepth GermlineContinuousIndelAlleleInfo.gqx].
    rewrite <- app_assoc. cbn [app]. by case_bool_decide.
Qed.

End IndelCaller.

(** X13.  [add_indel_call] gives the locus at most one new record, behind the
    records it had: when the indel fraction exceeds [min_het_vf] or the
    output is forced, a record with the two read counts whose [gqx] is the
    score written to the [gq] of every sample, and zero when the locus has
    no sample.  Otherwise records and samples stay as they are.  The quality
    of the locus is in both cases recomputed from the [gq] of the samples,
    and lies between 0 and 40 when the indel is reported. *)
Theorem add_indel_call_record {D : Type} `{DoubleOps D}
    (opt : starling_base_options.t D) (isForcedOutput : bool)
    (indelSampleReportInfo : starling_indel_sample_report_info.t)
    (locusInfo : GermlineContinuousIndelLocusInfo.t) :
  let called := starling_continuous_variant_caller.add_indel_call
                  opt isForcedOutput indelSampleReportInfo locusInfo in
  let samples := GermlineContinuousIndelLocusInfo.samples locusInfo in
  let q := indelScore opt indelSampleReportInfo in
  (if indelReported opt isForcedOutput indelSampleReportInfo then
     GermlineContinuousIndelLocusInfo.altAlleles called
     = GermlineContinuousIndelLocusInfo.altAlleles locusInfo
         ++ [GermlineContinuousIndelAlleleInfo.mk
               (starling_indel_sample_report_info.total_confident_reads indelSampleReportInfo)
               (starling_indel_sample_report_info.n_confident_indel_reads
                  indelSampleReportInfo)
               (if bool_decide (samples = []) then 0 else q)]
     ∧ GermlineContinuousIndelLocusInfo.samples called
       = (λ _, LocusSampleInfo.mk q) <$> samples
     ∧ q ≤ 40
     ∧ 0 ≤ GermlineContinuousIndelLocusInfo.anyVariantAlleleQuality called ≤ 40
   else
     GermlineContinuousIndelLocusInfo.altAlleles called
     = GermlineContinuousIndelLocusInfo.altAlleles locusInfo
     ∧ GermlineContinuousIndelLocusInfo.samples called = samples)
  ∧ GermlineContinuousIndelLocusInfo.anyVariantAlleleQuality called
    = starling_continuous_variant_caller.maxSampleQuality
        (GermlineContinuousIndelLocusInfo.samples called).
Proof.
  intros called samples q. unfold called, starling_continuous_variant_caller.add_indel_call.
  fold (indelReported opt isForcedOutput indelSampleReportInfo).
  fold (indelScore opt indelSampleReportInfo). fold q. fold samples.
  rewrite scoreSamples_cases.
  destruct (indelReported opt isForcedOutput indelSampleReportInfo).
  - cbn [GermlineContinuousIndelLocusInfo.altAlleles GermlineContinuousIndelLocusInfo.samples
         GermlineContinuousIndelLocusInfo.anyVariantAlleleQuality
         GermlineContinuousIndelAlleleInfo._totalDepth
         GermlineContinuousIndelAlleleInfo._indelDepth GermlineContinuousIndelAlleleInfo.gqx].
    assert (q ≤ 40) as Hq by apply poisson_qscore_le_cap.
    split_and!; try done; rewrite maxSampleQuality_const; case_bool_decide; lia.
  - done.
Qed.


Lemma countCalls_snoc (isFwdStrand showsBase : bool) (base_id : Z)
    (calls : list base_call.t) (bc : base_call.t) :
  countCalls isFwdStrand showsBase base_id (calls ++ [bc])
  = if bool_decide (base_call.is_fwd_strand bc = isFwdStrand)
       && bool_decide ((base_call.base_id bc =? base_id) = showsBase)
    then add32 (countCalls isFwdStrand showsBase base_id calls) 1
    else countCalls isFwdStrand showsBase base_id calls.
Proof.
  unfold countCalls. rewrite List.filter_app, length_app. cbn [List.filter].
  destruct (_ && _); cbn [length].
  - unfold add32. rewrite Zplus_mod_idemp_l. f_equal. lia.
  - f_equal. lia.
Qed.

(** X14.  The loop over the calls of a site in [generateAlleleInfo] counts
    every call once: the forward calls that show the base, the reverse calls
    that show it, the forward calls that do not and the reverse calls that do
    not, each as an [unsigned]. *)
Theorem strandTally_counts (calls : list base_call.t) (base_id : Z) :
  @starling_continuous_variant_caller.strandTally calls base_id
  = (countCalls true true base_id calls, countCalls false true base_id calls,
     countCalls true false base_id calls, countCalls false false base_id calls).
Proof.
  unfold starling_continuous_variant_caller.strandTally.
  induction calls as [|bc calls IH] using rev_ind; [done|].
  rewrite foldl_app. cbn [foldl]. rewrite IH. rewrite !countCalls_snoc.
  destruct (base_call.is_fwd_strand bc), (base_call.base_id bc =? base_id); reflexivity.
Qed.


(** ** The adaptive model and the built-in tables, read on the real numbers *)

Lemma errorRate_value (model : AdaptiveIndelErrorModel.t R) (repeatCount : Z) :
  2 ≤ repeatCount →
  AdaptiveIndelErrorModel.errorRate model repeatCount
  = Done (exp (logRateAt (AdaptiveIndelErrorModel._highRepeatCount model)
                 (AdaptiveIndelErrorModelLogParams.logErrorRate
                    (AdaptiveIndelErrorModel._lowLogParams model))
                 (AdaptiveIndelErrorModelLogParams.logErrorRate
                    (AdaptiveIndelErrorModel._highLogParams model))
                 repeatCount)).
Proof.
  intros Hrc. unfold AdaptiveIndelErrorModel.errorRate, logRateAt.
  assert ((1 <? repeatCount) = true) as -> by (apply Z.ltb_lt; lia).
  cbn [negb].
  destruct (Z.leb_spec (AdaptiveIndelErrorModel._highRepeatCount model) repeatCount)
    as [Hle|Hlt]; [done|].
  unfold AdaptiveIndelErrorModel._lowRepeatCount.
  change (@d_of_Z R RealDouble) with IZR.
  rewrite linearFit_line; [done|].
  intros Heq%eq_IZR. unfold AdaptiveIndelErrorModel.lowRepeatCount in Heq. lia.
Qed.

Lemma noisyLocusRate_value (model : AdaptiveIndelErrorModel.t R) (repeatCount : Z) :
  2 ≤ repeatCount →
  AdaptiveIndelErrorModel.noisyLocusRate model repeatCount
  = Done (exp (logRateAt (AdaptiveIndelErrorModel._highRepeatCount model)
                 (AdaptiveIndelErrorModelLogParams.logNoisyLocusRate
                    (AdaptiveIndelErrorModel._lowLogParams model))
                 (AdaptiveIndelErrorModelLogParams.logNoisyLocusRate
                    (AdaptiveIndelErrorModel._highLogParams model))
                 repeatCount)).
Proof.
  intros Hrc. unfold AdaptiveIndelErrorModel.noisyLocusRate, logRateAt.
  assert ((1 <? repeatCount) = true) as -> by (apply Z.ltb_lt; lia).
  cbn [negb].
  destruct (Z.leb_spec (AdaptiveIndelErrorModel._highRepeatCount model) repeatCount)
    as [Hle|Hlt]; [done|].
  unfold AdaptiveIndelErrorModel._lowRepeatCount.
  change (@d_of_Z R RealDouble) with IZR.
  rewrite linearFit_line; [done|].
  intros Heq%eq_IZR. unfold AdaptiveIndelErrorModel.lowRepeatCount in Heq. lia.
Qed.

Lemma errorRate_below_two (model : AdaptiveIndelErrorModel.t R) (repeatCount : Z) :
  repeatCount < 2 →
  AdaptiveIndelErrorModel.errorRate model repeatCount = AssertionFailed
  ∧ AdaptiveIndelErrorModel.noisyLocusRate model repeatCount = AssertionFailed.
Proof.
  intros Hrc. unfold AdaptiveIndelErrorModel.errorRate, AdaptiveIndelErrorModel.noisyLocusRate.
  assert ((1 <? repeatCount) = false) as -> by (apply Z.ltb_ge; lia). done.
Qed.

(** X15.  On the real numbers [errorRate] and [noisyLocusRate] stop on an
    assertion exactly for a repeat count below 2: for a repeat count of 2 at
    least the interpolation is never asked for with two equal anchors. *)
Theorem errorRate_fails_below_two (model : AdaptiveIndelErrorModel.t R) (repeatCount : Z) :
  (AdaptiveIndelErrorModel.errorRate model repeatCount = AssertionFailed ↔ repeatCount < 2)
  ∧ (AdaptiveIndelErrorModel.noisyLocusRate model repeatCount = AssertionFailed
     ↔ repeatCount < 2)
  ∧ (2 ≤ repeatCount →
     ∃ rate noisy : R,
       AdaptiveIndelErrorModel.errorRate model repeatCount = Done rate
       ∧ AdaptiveIndelErrorModel.noisyLocusRate model repeatCount = Done noisy
       ∧ (0 < rate)%R ∧ (0 < noisy)%R).
Proof.
  split_and!.
  - split; [|by intros H%(errorRate_below_two model)%proj1].
    intros Hfail. destruct (decide (repeatCount < 2)) as [|Hge]; [done|].
    rewrite errorRate_value in Hfail by lia. done.
  - split; [|by intros H%(errorRate_below_two model)%proj2].
    intros Hfail. destruct (decide (repeatCount < 2)) as [|Hge]; [done|].
    rewrite noisyLocusRate_value in Hfail by lia. done.
  - intros Hrc. rewrite errorRate_value, noisyLocusRate_value by done.
    eexists _, _. split_and!; [done|done|apply exp_pos|apply exp_pos].
Qed.

Lemma errorRate_fails_below_two_witness :
  ∃ rate noisy : R,
    AdaptiveIndelErrorModel.errorRate Scenario.homopolymerModel 2 = Done rate
    ∧ AdaptiveIndelErrorModel.noisyLocusRate Scenario.homopolymerModel 2 = Done noisy
    ∧ (0 < rate)%R ∧ (0 < noisy)%R.
Proof.
  apply (errorRate_fails_below_two Scenario.homopolymerModel 2). lia.
Defined.

Local Open Scope R_scope.

(** between the anchors the line stays between the anchor values and rises
    with the repeat count when the high log rate is the larger one *)
Lemma logRateAt_bounds (high : Z) (yLow yHigh : R) (repeatCount : Z) :
  (2 ≤ repeatCount)%Z → yLow <= yHigh →
  yLow <= logRateAt high yLow yHigh repeatCount <= yHigh.
Proof.
  intros Hrc Hy. unfold logRateAt.
  destruct (Z.leb_spec high repeatCount) as [Hle|Hlt]; [lra|].
  unfold AdaptiveIndelErrorModel.lineThrough, AdaptiveIndelErrorModel.lowRepeatCount.
  assert (H2 : 2 <= IZR repeatCount) by (apply IZR_le; lia).
  assert (Hh : IZR repeatCount < IZR high) by (by apply IZR_lt).
  set (t := (IZR repeatCount - 2) / (IZR high - 2)).
  assert (Ht : 0 <= t <= 1).
  { unfold t. split.
    - apply Rmult_le_pos; [lra|]. apply Rlt_le, Rinv_0_lt_compat. lra.
    - apply (Rmult_le_reg_r (IZR high - 2)); [lra|].
      unfold Rdiv. rewrite Rmult_assoc, Rinv_l by lra. lra. }
  nra.
Qed.

Lemma logRateAt_mono (high : Z) (yLow yHigh : R) (rc1 rc2 : Z) :
  (2 ≤ rc1 ≤ rc2)%Z → yLow <= yHigh →
  logRateAt high yLow yHigh rc1 <= logRateAt high yLow yHigh rc2.
Proof.
  intros Hrc Hy.
  destruct (Z.leb_spec high rc2) as [Hle|Hlt].
  - pose proof (logRateAt_bounds high yLow yHigh rc1 ltac:(lia) Hy).
    unfold logRateAt at 2. destruct (Z.leb_spec high rc2); [lra|lia].
  - unfold logRateAt.
    destruct (Z.leb_spec high rc1); [lia|]. destruct (Z.leb_spec high rc2); [lia|].
    unfold AdaptiveIndelErrorModel.lineThrough, AdaptiveIndelErrorModel.lowRepeatCount.
    assert (H1 : IZR rc1 <= IZR rc2) by (apply IZR_le; lia).
    assert (Hh : 2 < IZR high) by (apply IZR_lt; lia).
    assert (Hinv : 0 < / (IZR high - 2)) by (apply Rinv_0_lt_compat; lra).
    unfold Rdiv.
    assert ((IZR rc1 - 2) * / (IZR high - 2) <= (IZR rc2 - 2) * / (IZR high - 2)).
    { apply Rmult_le_compat_r; lra. }
    nra.
Qed.

Lemma exp_le_mono (x y : R) : x <= y → exp x <= exp y.
Proof. intros [Hlt| ->]; [apply Rlt_le, exp_increasing, Hlt|lra]. Qed.

Local Close Scope R_scope.

(** X16.  For an adaptive model whose high log rate is not below its low log
    rate, [errorRate] does not decrease when the repeat count grows from 2
    on, it stays between the low rate and the high rate, and when the high
    anchor is above 2 it is the low rate at repeat count 2. *)
Theorem errorRate_monotone (model : AdaptiveIndelErrorModel.t R) (rc1 rc2 : Z)
    (ordered : 2 ≤ rc1 ≤ rc2)
    (rising : (AdaptiveIndelErrorModelLogParams.logErrorRate
                 (AdaptiveIndelErrorModel._lowLogParams model)
               <= AdaptiveIndelErrorModelLogParams.logErrorRate
                    (AdaptiveIndelErrorModel._highLogParams model))%R) :
  let lowRate := exp (AdaptiveIndelErrorModelLogParams.logErrorRate
                        (AdaptiveIndelErrorModel._lowLogParams model)) in
  let highRate := exp (AdaptiveIndelErrorModelLogParams.logErrorRate
                         (AdaptiveIndelErrorModel._highLogParams model)) in
  ∃ r1 r2 : R,
    AdaptiveIndelErrorModel.errorRate model rc1 = Done r1
    ∧ AdaptiveIndelErrorModel.errorRate model rc2 = Done r2
    ∧ (lowRate <= r1 <= r2)%R ∧ (r2 <= highRate)%R
    ∧ (2 < AdaptiveIndelErrorModel._highRepeatCount model →
       AdaptiveIndelErrorModel.errorRate model 2 = Done lowRate).
Proof.
  intros lowRate highRate.
  rewrite !errorRate_value by lia.
  eexists _, _. split_and!; try done.
  - apply exp_le_mono. by apply logRateAt_bounds; [lia|].
  - apply exp_le_mono. by apply logRateAt_mono.
  - apply exp_le_mono. by apply logRateAt_bounds; [lia|].
  - intros Hhigh. f_equal. f_equal.
    unfold logRateAt. destruct (Z.leb_spec (AdaptiveIndelErrorModel._highRepeatCount model) 2);
      [lia|].
    apply lineThrough_low.
Qed.

Lemma errorRate_monotone_witness :
  ∃ r1 r2 : R,
    AdaptiveIndelErrorModel.errorRate Scenario.homopolymerModel 3 = Done r1
    ∧ AdaptiveIndelErrorModel.errorRate Scenario.homopolymerModel 7 = Done r2
    ∧ (r1 <= r2)%R.
Proof.
  assert (Hord : 2 ≤ 3 ≤ 7) by lia.
  assert (Hrise : (ln (49 / 10000) <= ln (45 / 1000))%R).
  { apply Rlt_le, ln_increasing; lra. }
  destruct (errorRate_monotone Scenario.homopolymerModel 3 7 Hord Hrise)
    as (r1 & r2 & H1 & H2 & [_ Hle] & _).
  exists r1, r2. split_and!; done.
Defined.


Import BuiltinIndelErrorRates.

Lemma d_decimal_real (m n : Z) : @d_decimal R RealDouble m n = (IZR m / IZR (10 ^ n))%R.
Proof. reflexivity. Qed.

Lemma logLinearErrorRate_real (c : Z) :
  1 ≤ c < UINT32_MOD →
  @logLinearErrorRate R RealDouble c
  = exp (ln (5 / 100000)
         + IZR (Z.min (c - 1) 15) / 15 * (ln (3 / 10000) - ln (5 / 100000)))%R.
Proof.
  intros Hc. unfold logLinearErrorRate. rewrite !d_decimal_real.
  change (10 ^ 5) with 100000. change (10 ^ 4) with 10000.
  rewrite (Z.mod_small (c - 1)) by lia.
  cbn [Z.eqb Pos.eqb d_exp d_log d_add d_sub d_mul d_div d_of_Z RealDouble].
  f_equal. lra.
Qed.

Lemma ln_3e4_above : (ln (5 / 100000) < ln (3 / 10000))%R.
Proof. apply ln_increasing; lra. Qed.

(** X17.  The log-linear table has one entry for each homopolymer length from
    1 to 16, with the same rate for both directions.  The rate is 5e-5 at
    length 1 and 3e-4 at length 16, and it rises strictly in between.  Here
    [double] is read as the real numbers. *)
Theorem getLogLinearIndelErrorModel_ramp :
  let rate := @logLinearErrorRate R RealDouble in
  getLogLinearIndelErrorModel [] recordRate
  = (λ count, (1, count, rate count, rate count)) <$> seqZ 1 16
  ∧ rate 1 = (5 / 100000)%R
  ∧ rate 16 = (3 / 10000)%R
  ∧ (∀ c1 c2 : Z, 1 ≤ c1 → c1 < c2 → c2 ≤ 16 → (rate c1 < rate c2)%R).
Proof.
  intros rate. split_and!.
  - reflexivity.
  - unfold rate. rewrite logLinearErrorRate_real by (by vm_compute).
    change (Z.min (1 - 1) 15) with 0.
    replace (ln (5 / 100000) + 0 / 15 * (ln (3 / 10000) - ln (5 / 100000)))%R
      with (ln (5 / 100000)) by lra.
    apply exp_ln. lra.
  - unfold rate. rewrite logLinearErrorRate_real by (by vm_compute).
    change (Z.min (16 - 1) 15) with 15.
    replace (ln (5 / 100000) + 15 / 15 * (ln (3 / 10000) - ln (5 / 100000)))%R
      with (ln (3 / 10000)) by lra.
    apply exp_ln. lra.
  - intros c1 c2 H1 H12 H2. unfold rate.
    assert (16 < UINT32_MOD) by (by vm_compute).
    rewrite !logLinearErrorRate_real by lia.
    rewrite !Z.min_l by lia.
    apply exp_increasing.
    pose proof ln_3e4_above.
    assert (IZR (c1 - 1) < IZR (c2 - 1))%R by (apply IZR_lt; lia).
    nra.
Qed.


Import BuiltinIndelErrorRates.

Lemma addAdaptiveRates_done (size : Z) (model : AdaptiveIndelErrorModel.t R)
    (counts : list Z) (rates : list (rateEntry R)) :
  Forall (λ c, 2 ≤ c) counts →
  let rate c :=
    exp (logRateAt (AdaptiveIndelErrorModel._highRepeatCount model)
           (AdaptiveIndelErrorModelLogParams.logErrorRate
              (AdaptiveIndelErrorModel._lowLogParams model))
           (AdaptiveIndelErrorModelLogParams.logErrorRate
              (AdaptiveIndelErrorModel._highLogParams model)) c) in
  addAdaptiveRates recordRate size model counts rates
  = Done (rates ++ ((λ c, (size, c, rate c, rate c)) <$> counts)).
Proof.
  intros Hcounts rate. unfold addAdaptiveRates. revert rates.
  induction Hcounts as [|c counts Hc Hcounts IH]; intros rates.
  - simpl. by rewrite app_nil_r.
  - cbn [foldl fmap list_fmap]. cbn [obind].
    rewrite errorRate_value by done. cbn [obind].
    rewrite IH. unfold recordRate. by rewrite <- app_assoc.
Qed.

(** X18.  The simplified adaptive table is built without a failing assertion.
    For homopolymers and for dinucleotide repeats it has the rate 8e-3 at
    repeat count 1 and one entry for each repeat count from 2 to the switch
    point (16 and 9), with the same rate for both directions; the rate is the
    low rate (4.9e-3 and 1e-2) at repeat count 2, the high rate (4.5e-2 and
    1.8e-2) at the switch point, and it does not decrease in between.  For
    homopolymers the rate at repeat count 1 is above the rate at repeat count
    2.  Here [double] is read as the real numbers. *)
Theorem getSimplifiedAdaptiveParameters_table (defaultLogNoisyLocusRate : R) :
  ∃ rate : Z → Z → R,
    getSimplifiedAdaptiveParameters [] recordRate defaultLogNoisyLocusRate
    = Done ([(1, 1, (8 / 1000)%R, (8 / 1000)%R)]
            ++ ((λ count, (1, count, rate 1 count, rate 1 count)) <$> seqZ 2 15)
            ++ [(2, 1, (8 / 1000)%R, (8 / 1000)%R)]
            ++ ((λ count, (2, count, rate 2 count, rate 2 count)) <$> seqZ 2 8))
    ∧ rate 1 2 = (49 / 10000)%R ∧ rate 1 16 = (45 / 1000)%R
    ∧ rate 2 2 = (10 / 1000)%R ∧ rate 2 9 = (18 / 1000)%R
    ∧ (∀ size c1 c2 : Z, 2 ≤ c1 → c1 ≤ c2 → (rate size c1 <= rate size c2)%R)
    ∧ (rate 1%Z 2%Z < 8 / 1000)%R.
Proof.
  exists (λ size count,
            if size =? 1
            then exp (logRateAt 16 (ln (49 / 10000)) (ln (45 / 1000)) count)
            else exp (logRateAt 9 (ln (10 / 1000)) (ln (18 / 1000)) count)).
  assert (Hl1 : logRateAt 16 (ln (49 / 10000)) (ln (45 / 1000)) 2 = ln (49 / 10000)).
  { unfold logRateAt. cbn [Z.leb Z.compare Pos.compare Pos.compare_cont].
    apply lineThrough_low. }
  assert (Hl2 : logRateAt 9 (ln (10 / 1000)) (ln (18 / 1000)) 2 = ln (10 / 1000)).
  { unfold logRateAt. cbn [Z.leb Z.compare Pos.compare Pos.compare_cont].
    apply lineThrough_low. }
  split_and!.
  - unfold getSimplifiedAdaptiveParameters.
    cbn [length bool_decide decide_rel andb negb seq foldl lookup list_lookup default
         obind].
    rewrite !d_decimal_real.
    change (10 ^ 3) with 1000. change (10 ^ 4) with 10000.
    change (seqZ AdaptiveIndelErrorModel.lowRepeatCount
                 (16 + 1 - AdaptiveIndelErrorModel.lowRepeatCount)) with (seqZ 2 15).
    assert (Hcounts : ∀ n, Forall (λ c, 2 ≤ c) (seqZ 2 n)).
    { intros n. apply Forall_forall. intros c Hc. apply elem_of_seqZ in Hc. lia. }
    rewrite addAdaptiveRates_done by apply Hcounts.
    cbn [obind].
    change (seqZ AdaptiveIndelErrorModel.lowRepeatCount
                 (9 + 1 - AdaptiveIndelErrorModel.lowRepeatCount)) with (seqZ 2 8).
    rewrite addAdaptiveRates_done by apply Hcounts.
    unfold recordRate. rewrite <- !app_assoc. reflexivity.
  - cbn [Z.eqb Pos.eqb]. rewrite Hl1. apply exp_ln. lra.
  - cbn [Z.eqb Pos.eqb]. unfold logRateAt.
    cbn [Z.leb Z.compare Pos.compare Pos.compare_cont]. apply exp_ln. lra.
  - cbn [Z.eqb Pos.eqb]. rewrite Hl2. apply exp_ln. lra.
  - cbn [Z.eqb Pos.eqb]. unfold logRateAt.
    cbn [Z.leb Z.compare Pos.compare Pos.compare_cont]. apply exp_ln. lra.
  - intros size c1 c2 H1 H12. destruct (size =? 1).
    + apply exp_le_mono, logRateAt_mono; [lia|]. apply Rlt_le, ln_increasing; lra.
    + apply exp_le_mono, logRateAt_mono; [lia|]. apply Rlt_le, ln_increasing; lra.
  - cbn [Z.eqb Pos.eqb]. rewrite Hl1, exp_ln by lra. lra.
Qed.


(** ** The filter keeper *)

Import SOMATIC_VARIANT_VCF_FILTERS strelka_filter_keeper.

(** ** The filter keeper *)

Lemma string_app_cons (x : Ascii.ascii) (a b : string) :
  String x a +:+ b = String x (a +:+ b).
Proof. reflexivity. Qed.

Lemma string_app_assoc (a b c : string) : (a +:+ b) +:+ c = a +:+ (b +:+ c).
Proof.
  induction a as [|x a IH]; [done|].
  rewrite !string_app_cons. by f_equal.
Qed.

Lemma string_app_nil_r (a : string) : a +:+ "" = a.
Proof.
  induction a as [|x a IH]; [done|].
  rewrite string_app_cons. by f_equal.
Qed.

Lemma concat_behindSemicolons (label : string) (rest : list string) :
  String.concat ";" (label :: rest) = label +:+ behindSemicolons rest.
Proof.
  revert label. induction rest as [|x rest IH]; intros label.
  - cbn [String.concat behindSemicolons]. by rewrite string_app_nil_r.
  - change (String.concat ";" (label :: x :: rest))
      with (label +:+ ";" +:+ String.concat ";" (x :: rest)).
    rewrite IH. reflexivity.
Qed.

(** the label of a filter other than [SIZE] *)
Lemma get_label_filter (i : index_t) :
  i ∈ filters → ∃ label, get_label (value i) = Some label.
Proof.
  intros Hi. destruct i; try (eexists; reflexivity).
  exfalso. unfold filters in Hi.
  repeat (apply elem_of_cons in Hi as [Hi|Hi]; [discriminate|]).
  by apply elem_of_nil in Hi.
Qed.

Lemma value_inj (i j : index_t) : value i = value j → i = j.
Proof. destruct i, j; simpl; intros; first [reflexivity | lia]. Qed.

Lemma value_range (i : index_t) : 0 ≤ value i ≤ 10.
Proof. destruct i; simpl; lia. Qed.

Lemma filter_not_SIZE (i : index_t) : i ∈ filters ↔ i ≠ SIZE.
Proof.
  split.
  - intros Hi ->. unfold filters in Hi.
    repeat (apply elem_of_cons in Hi as [Hi|Hi]; [discriminate|]).
    by apply elem_of_nil in Hi.
  - intros Hne. unfold filters. destruct i; try done; repeat constructor.
Qed.

Lemma seqZ_filters : seqZ 0 (value SIZE) = value <$> filters.
Proof. reflexivity. Qed.

(** [writeTurn] over a list of filters appends their labels *)
Lemma writeTurn_fold (k : t) (fs : list index_t) (os : string) (is_sep : bool) :
  Forall (λ i, i ∈ filters) fs →
  let labels := omap (λ i, if test k i then get_label (value i) else None) fs in
  foldl (writeTurn k) (inr (os, is_sep)) (value <$> fs)
  = inr (match labels with
         | [] => os
         | label :: rest =>
             (if is_sep then os +:+ ";" else os) +:+ label +:+ behindSemicolons rest
         end,
         is_sep || bool_decide (labels ≠ [])).
Proof.
  intros Hfs. revert os is_sep.
  induction Hfs as [|i fs Hi Hfs IH]; intros os is_sep labels.
  - simpl. by rewrite orb_false_r.
  - unfold labels. cbn [fmap list_fmap foldl omap list_omap].
    unfold writeTurn at 2. fold (test k i).
    destruct (test k i) eqn:Ei; cbn [negb].
    + destruct (get_label_filter i Hi) as [label Hlabel]. rewrite Hlabel.
      rewrite IH. cbn [option_bind mbind]. rewrite orb_true_r. f_equal. simpl.
      destruct (omap _ fs) as [|l2 rest]; simpl.
      * by rewrite string_app_nil_r.
      * by rewrite !string_app_assoc.
    + rewrite IH. reflexivity.
Qed.


Lemma write_joinedLabels (k : t) :
  write k = inr (if _filters k =? 0 then "PASS" else joinedLabels k).
Proof.
  unfold write. destruct (_filters k =? 0); [done|].
  rewrite seqZ_filters, writeTurn_fold.
  - unfold joinedLabels. destruct (omap _ filters) as [|label rest]; [done|].
    by rewrite concat_behindSemicolons.
  - by apply Forall_forall.
Qed.

Lemma value_cases (n : Z) : 0 ≤ n < 10 → ∃ i, i ∈ filters ∧ value i = n.
Proof.
  intros Hn.
  assert (n = 0 ∨ n = 1 ∨ n = 2 ∨ n = 3 ∨ n = 4 ∨ n = 5 ∨ n = 6 ∨ n = 7 ∨ n = 8 ∨ n = 9)
    as Hcases by lia.
  destruct Hcases as [->|[->|[->|[->|[->|[->|[->|[->|[->| ->]]]]]]]]];
    [ exists HighDepth | exists LowEVS | exists BCNoise | exists SpanDel | exists QSS_ref
    | exists Repeat | exists iHpol | exists IndelBCNoise | exists QSI_ref | exists Nonref ];
    (split; [unfold filters; repeat constructor | reflexivity]).
Qed.

(** a bitset without a filter is the cleared one *)
Lemma no_filter_clear (k : t) :
  valid k → (∀ i, i ∈ filters → test k i = false) → _filters k = 0.
Proof.
  intros [Hlo Hhi] Hnone. apply Z.bits_inj'. intros n Hn. rewrite Z.bits_0.
  destruct (decide (n < 10)) as [Hlt|Hge].
  - destruct (value_cases n ltac:(lia)) as (i & Hi & <-). by apply Hnone.
  - apply (proj1 (Z.bounded_iff_bits_nonneg 10 (_filters k) ltac:(lia) Hlo)); [done|lia].
Qed.

(** the text of a set of filters starts with a label: it is neither empty nor [PASS] *)
Lemma joinedLabels_not_pass (k : t) (i : index_t) :
  i ∈ filters → test k i = true → joinedLabels k ≠ "" ∧ joinedLabels k ≠ "PASS".
Proof.
  intros Hi Hset. unfold joinedLabels, filters. cbn [omap list_omap].
  repeat match goal with
  | |- context [test k ?j] =>
      destruct (test k j) eqn:?;
      [ cbn [option_bind mbind get_label value Z.eqb Pos.eqb];
        rewrite concat_behindSemicolons; split; discriminate
      | cbn [option_bind mbind] ]
  end.
  exfalso. apply filter_not_SIZE in Hi. destruct i; congruence.
Qed.


Lemma keeper_clear_iff (k : t) : _filters k = 0 ↔ k = clear.
Proof. destruct k as [m]. unfold clear. simpl. split; [by intros ->|by intros [= ->]]. Qed.

Lemma set_valid (k : t) (i : index_t) :
  valid k → i ≠ SIZE → valid (mk (Z.setbit (_filters k) (value i))).
Proof.
  intros [Hlo Hhi] Hi. unfold valid. cbn [_filters].
  assert (Hv : 0 ≤ value i < 10) by (pose proof (value_range i); destruct i; simpl in *; try lia; done).
  assert (Hnn : 0 ≤ Z.setbit (_filters k) (value i)).
  { unfold Z.setbit. apply Z.lor_nonneg. split; [done|]. apply Z.shiftl_nonneg. lia. }
  split; [done|].
  apply (Z.bounded_iff_bits_nonneg 10); [lia|done|].
  intros n Hn. rewrite Z.setbit_neq by lia.
  apply (proj1 (Z.bounded_iff_bits_nonneg 10 (_filters k) ltac:(lia) Hlo)); [done|lia].
Qed.

(** [set] of a filter that is not set *)
Lemma set_fresh (k : t) (i : index_t) :
  i ≠ SIZE → test k i = false →
  set i k = inr (mk (Z.setbit (_filters k) (value i)))
  ∧ ∀ j, test (mk (Z.setbit (_filters k) (value i))) j = bool_decide (j = i) || test k j.
Proof.
  intros Hi Hfree. unfold set, test in *.
  assert ((value SIZE <=? value i) = false) as ->.
  { apply Z.leb_gt. pose proof (value_range i). destruct i; simpl in *; try lia. done. }
  rewrite Hfree. split; [done|].
  intros j. cbn [_filters].
  pose proof (value_range i). rewrite Z.setbit_eqb by lia.
  f_equal. case_bool_decide as Hji.
  - subst j. apply Z.eqb_refl.
  - apply Z.eqb_neq. intros Hv%value_inj. by subst.
Qed.

(** X19.  [set] on a keeper: a filter that is not set is added, and nothing
    else changes; a filter that is set already stops on the assertion
    "Setting filter twice"; [SIZE] is no position of the bitset. *)
Theorem set_adds_one_filter (k : t) (i : index_t) (validKeeper : valid k) :
  match set i k with
  | inr k' =>
      i ≠ SIZE ∧ test k i = false ∧ valid k'
      ∧ ∀ j, j ≠ SIZE → test k' j = bool_decide (j = i) || test k j
  | inl SettingFilterTwice => i ≠ SIZE ∧ test k i = true
  | inl OutOfRange => i = SIZE
  | inl UnknownFilterId => False
  end.
Proof.
  unfold set, test.
  destruct (value SIZE <=? value i) eqn:Esize.
  { apply Z.leb_le in Esize. destruct i; simpl in Esize; try lia. done. }
  assert (Hi : i ≠ SIZE) by (intros ->; simpl in Esize; done).
  destruct (Z.testbit (_filters k) (value i)) eqn:Etest; [done|].
  split_and!; try done.
  - by apply set_valid.
  - intros j Hj. cbn [_filters].
    pose proof (value_range i). rewrite Z.setbit_eqb by lia.
    f_equal. case_bool_decide as Hji.
    + subst j. apply Z.eqb_refl.
    + apply Z.eqb_neq. intros Hv%value_inj. by subst.
Qed.

(** X20.  [write] sends [PASS] for a keeper without filter, and otherwise the
    labels of the filters that are set, in the order of the enumeration and
    separated by semicolons; it never stops on the assertion of [get_label]. *)
Theorem write_lists_labels (k : t) :
  write k
  = inr (if _filters k =? 0 then "PASS"
         else String.concat ";"
                (omap (λ i, if test k i then get_label (value i) else None) filters)).
Proof. apply write_joinedLabels. Qed.

(** X21.  For a keeper that is a bitset of [SIZE] positions, [write] sends
    [PASS] exactly when no filter is set, and it never sends the empty text. *)
Theorem write_pass_iff_clear (k : t) (validKeeper : valid k) :
  (write k = inr "PASS" ↔ k = clear) ∧ write k ≠ inr "".
Proof.
  rewrite write_joinedLabels.
  destruct (_filters k =? 0) eqn:E.
  - apply Z.eqb_eq in E. split; [|done]. split; [intros _; by apply keeper_clear_iff|done].
  - apply Z.eqb_neq in E.
    assert (∃ i, i ∈ filters ∧ test k i = true) as (i & Hi & Hset).
    { destruct (decide (Exists (λ i, test k i = true) filters)) as [Hex|Hno].
      - apply Exists_exists in Hex. exact Hex.
      - exfalso. apply E, no_filter_clear; [done|].
        intros i Hi. apply not_true_is_false. intros Hset. apply Hno.
        apply Exists_exists. eauto. }
    destruct (joinedLabels_not_pass k i Hi Hset) as [Hne Hnp].
    split; [|congruence]. split; [congruence|].
    intros Hk%keeper_clear_iff. done.
Qed.

Lemma setEach_failed (f : failure) (l : list index_t) :
  foldl (λ r i, match r with inl f => inl f | inr k => set i k end) (inl f) l = inl f.
Proof. induction l as [|i l IH]; [done|]. simpl. exact IH. Qed.

Lemma setEach_cons (i : index_t) (l : list index_t) (k : t) :
  setEach (i :: l) k
  = match set i k with inl f => inl f | inr k' => setEach l k' end.
Proof.
  unfold setEach. cbn [foldl]. destruct (set i k) as [f|k']; [apply setEach_failed|done].
Qed.

Lemma setEach_tests (l : list index_t) (k0 : t) :
  valid k0 → NoDup l → SIZE ∉ l → (∀ i, i ∈ l → test k0 i = false) →
  ∃ k, setEach l k0 = inr k ∧ valid k
       ∧ ∀ j, j ≠ SIZE → test k j = bool_decide (j ∈ l) || test k0 j.
Proof.
  revert k0. induction l as [|i l IH]; intros k0 Hvalid Hnodup Hsize Hfree.
  - exists k0. split_and!; [done..|]. intros j _.
    rewrite bool_decide_eq_false_2; [done|]. apply not_elem_of_nil.
  - apply NoDup_cons in Hnodup as [Hil Hnodup].
    apply not_elem_of_cons in Hsize as [Hi Hsize].
    rewrite setEach_cons.
    destruct (set_fresh k0 i (not_eq_sym Hi)) as [-> Htest1]; [apply Hfree; by left|].
    pose proof (set_valid k0 i Hvalid (not_eq_sym Hi)) as Hvalid1.
    destruct (IH _ Hvalid1 Hnodup Hsize) as (k & Hk & Hvalidk & Htestk).
    { intros j Hj. rewrite Htest1.
      rewrite bool_decide_eq_false_2 by (intros ->; done).
      apply Hfree. by right. }
    exists k. split_and!; [done..|].
    intros j Hj. rewrite (Htestk j Hj), Htest1.
    rewrite orb_assoc. f_equal.
    apply eq_true_iff_eq. rewrite orb_true_iff, !bool_decide_eq_true, elem_of_cons.
    tauto.
Qed.

(** two bitsets of [SIZE] positions with the same filters are the same *)
Lemma keeper_ext (k1 k2 : t) :
  valid k1 → valid k2 → (∀ i, i ∈ filters → test k1 i = test k2 i) → k1 = k2.
Proof.
  intros [Hlo1 Hhi1] [Hlo2 Hhi2] Hsame.
  destruct k1 as [m1], k2 as [m2]. cbn [_filters] in *. f_equal.
  apply Z.bits_inj'. intros n Hn.
  destruct (decide (n < 10)) as [Hlt|Hge].
  - destruct (value_cases n ltac:(lia)) as (i & Hi & <-). by apply Hsame.
  - rewrite (proj1 (Z.bounded_iff_bits_nonneg 10 m1 ltac:(lia) Hlo1)) by (done || lia).
    rewrite (proj1 (Z.bounded_iff_bits_nonneg 10 m2 ltac:(lia) Hlo2)) by (done || lia).
    done.
Qed.

Lemma clear_valid : valid clear.
Proof. unfold valid, clear. simpl. lia. Qed.

(** X22.  Setting distinct filters one after the other on a cleared keeper
    never fails; the keeper then holds exactly these filters, and neither the
    keeper nor the text [write] sends depends on the order of the calls. *)
Theorem setEach_order_irrelevant (l l2 : list index_t)
    (distinct : NoDup l) (filtersOnly : SIZE ∉ l) (sameFilters : l2 ≡ₚ l) :
  ∃ k, setEach l clear = inr k
       ∧ setEach l2 clear = inr k
       ∧ valid k
       ∧ (∀ i, i ≠ SIZE → test k i = bool_decide (i ∈ l))
       ∧ write k
         = inr (if bool_decide (l = []) then "PASS"
                else String.concat ";"
                       (omap (λ i, if bool_decide (i ∈ l) then get_label (value i) else None)
                             filters)).
Proof.
  destruct (setEach_tests l clear clear_valid distinct filtersOnly) as (k & Hk & Hvalid & Htest).
  { intros i _. unfold test, clear. simpl. apply Z.bits_0. }
  destruct (setEach_tests l2 clear clear_valid) as (k2 & Hk2 & Hvalid2 & Htest2).
  { by rewrite sameFilters. }
  { by rewrite sameFilters. }
  { intros i _. unfold test, clear. simpl. apply Z.bits_0. }
  assert (Hbits : ∀ i, i ≠ SIZE → test k i = bool_decide (i ∈ l)).
  { intros i Hi. rewrite (Htest i Hi).
    assert (test clear i = false) as -> by (unfold test, clear; simpl; apply Z.bits_0).
    by rewrite orb_false_r. }
  assert (k2 = k) as ->.
  { apply keeper_ext; [done..|]. intros i Hi%filter_not_SIZE.
    rewrite (Htest2 i Hi), (Htest i Hi). f_equal.
    apply bool_decide_ext. by rewrite sameFilters. }
  exists k. split_and!; [done..|].
  rewrite write_joinedLabels. f_equal.
  destruct l as [|i l].
  - assert (_filters k = 0) as ->; [|done].
    apply no_filter_clear; [done|]. intros i Hi%filter_not_SIZE.
    rewrite (Hbits i Hi). apply bool_decide_eq_false_2, not_elem_of_nil.
  - rewrite bool_decide_eq_false_2 by done.
    assert (_filters k ≠ 0) as Hne.
    { intros Hz. apply not_elem_of_cons in filtersOnly as [Hi _].
      specialize (Hbits i (not_eq_sym Hi)).
      rewrite bool_decide_eq_true_2 in Hbits by (by left).
      unfold test in Hbits. by rewrite Hz, Z.bits_0 in Hbits. }
    apply Z.eqb_neq in Hne. rewrite Hne. unfold joinedLabels, filters.
    cbn [omap list_omap]. by rewrite !Hbits.
Qed.

(** X23.  [get_label] has a label for the values of the ten filters and stops
    on its assertion for every other value.  Two different filters have
    different labels, except [BCNoise] and [IndelBCNoise], which share the
    label [BCNoise]. *)
Theorem get_label_table :
  (∀ idx : Z, is_Some (get_label idx) ↔ 0 ≤ idx < value SIZE)
  ∧ get_label (value BCNoise) = Some "BCNoise"
  ∧ get_label (value IndelBCNoise) = Some "BCNoise"
  ∧ (∀ i j : index_t,
       i ≠ SIZE → j ≠ SIZE → i ≠ j →
       get_label (value i) = get_label (value j) →
       (i = BCNoise ∧ j = IndelBCNoise) ∨ (i = IndelBCNoise ∧ j = BCNoise)).
Proof.
  split_and!; [|done|done|].
  - intros idx. split.
    + intros [label Hlabel]. unfold get_label in Hlabel. simpl in *.
      repeat match type of Hlabel with
      | (if ?c then _ else _) = _ => destruct c eqn:?
      end; try done; lia.
    + intros Hidx. destruct (value_cases idx Hidx) as (i & Hi & <-).
      destruct (get_label_filter i Hi) as [label ->]. eauto.
  - intros i j Hi Hj Hij Hsame.
    destruct i, j; try done; vm_compute in Hsame; try discriminate; auto.
Qed.


Lemma set_adds_one_filter_witness :
  match set BCNoise clear with
  | inr k' =>
      BCNoise ≠ SIZE ∧ test clear BCNoise = false ∧ valid k'
      ∧ ∀ j, j ≠ SIZE → test k' j = bool_decide (j = BCNoise) || test clear j
  | inl SettingFilterTwice => BCNoise ≠ SIZE ∧ test clear BCNoise = true
  | inl OutOfRange => BCNoise = SIZE
  | inl UnknownFilterId => False
  end.
Proof.
  apply (set_adds_one_filter clear BCNoise).
  unfold valid, clear. cbn. lia.
Defined.

Lemma write_pass_iff_clear_witness :
  (write (mk 5) = inr "PASS" ↔ mk 5 = clear) ∧ write (mk 5) ≠ inr "".
Proof.
  apply (write_pass_iff_clear (mk 5)).
  unfold valid. cbn. lia.
Defined.

Lemma setEach_order_irrelevant_witness :
  ∃ k, setEach [BCNoise; HighDepth] clear = inr k
       ∧ setEach [HighDepth; BCNoise] clear = inr k
       ∧ valid k
       ∧ (∀ i, i ≠ SIZE → test k i = bool_decide (i ∈ [BCNoise; HighDepth]))
       ∧ write k
         = inr (if bool_decide ([BCNoise; HighDepth] = []) then "PASS"
                else String.concat ";"
                       (omap (λ i, if bool_decide (i ∈ [BCNoise; HighDepth])
                                   then get_label (value i) else None)
                             filters)).
Proof.
  apply (setEach_order_irrelevant [BCNoise; HighDepth] [HighDepth; BCNoise]).
  - apply NoDup_cons_2; [|apply NoDup_singleton].
    rewrite list_elem_of_singleton. discriminate.
  - intros [Hin|Hin]%elem_of_cons; [discriminate|].
    apply list_elem_of_singleton in Hin. discriminate.
  - apply perm_swap.
Defined.

